(** * Network I/O core of voxelcore: [src/network/Network.cpp]

    A shallow embedding of the three classes of the file
    ([CurlRequests], [SocketConnection], [SocketTcpSServer]) and of the
    [Network] facade, followed by the properties of the specification.

    Conventions of the embedding.
    - [size_t] and [int] values are integers of [Z]; every C++ operation
      that can wrap is written with [size_t] (reduction modulo 2^64) or
      [static_cast_int] (two's complement reduction to 32 bits).
    - Calls into the operating system and into libcurl are the
      environment: each call site takes the value the call returned as an
      argument ([RecvResult], [SendResult], [PerformResult], [PollEnv]).
    - A loop that blocks on the environment consumes a list of such
      results, one per turn.
    - The POSIX branch of every [#ifdef _WIN32] is the one embedded. *)

From Stdlib Require Import Strings.Byte Sorting.Sorted.
From stdpp Require Import gmap strings list fin_maps.

Local Open Scope Z_scope.

(** ** Machine integers *)

Module Machine.

Definition SIZE_MAX : Z := 2 ^ 64 - 1.
Definition INT_MAX : Z := 2 ^ 31 - 1.
Definition LONG_MAX : Z := 2 ^ 63 - 1.

(** Conversion to [size_t]: reduction modulo 2^64. *)
Definition size_t (z : Z) : Z := z mod 2 ^ 64.

(** [static_cast<int>(z)]: the low 32 bits of [z], read as two's
    complement. *)
Definition static_cast_int (z : Z) : Z := (z + 2 ^ 31) mod 2 ^ 32 - 2 ^ 31.

(** [errno] values of <errno.h> on Linux. *)
Definition EINTR : Z := 4.
Definition EAGAIN : Z := 11.
Definition EWOULDBLOCK : Z := 11.
Definition EPIPE : Z := 32.

Definition SOCKET_ERROR : Z := -1.

End Machine.

Import Machine.

(** ** [SocketConnection] *)

Module SocketConnection.

Inductive ConnectionState := INITIAL | CONNECTING | CONNECTED | CLOSED.

Definition state_eqb (a b : ConnectionState) : bool :=
  match a, b with
  | INITIAL, INITIAL | CONNECTING, CONNECTING
  | CONNECTED, CONNECTED | CLOSED, CLOSED => true
  | _, _ => false
  end.

(** The owned [std::unique_ptr<std::thread>]: null, a thread that is in
    [connectSocket], a thread that is in [listenLoop], or a thread whose
    body has returned and that has not been joined yet. *)
Inductive ThreadState := NoThread | InConnect | InListen | Finished.

(** Calls on the transport handle and on the thread, in the order made. *)
Inductive OsCall := Shutdown | CloseSocket | Join.

Record t := mk {
  totalUpload : Z;
  totalDownload : Z;
  state : ConnectionState;
  thread : ThreadState;
  readBatch : list byte;
  oscalls : list OsCall
}.

(** Constructor: counters at zero, state [INITIAL], no thread. *)
Definition create : t := mk 0 0 INITIAL NoThread [] [].

Definition set_state (s : ConnectionState) (c : t) : t :=
  mk (totalUpload c) (totalDownload c) s (thread c) (readBatch c) (oscalls c).
Definition set_thread (th : ThreadState) (c : t) : t :=
  mk (totalUpload c) (totalDownload c) (state c) th (readBatch c) (oscalls c).
Definition set_readBatch (q : list byte) (c : t) : t :=
  mk (totalUpload c) (totalDownload c) (state c) (thread c) q (oscalls c).
Definition set_totalUpload (n : Z) (c : t) : t :=
  mk n (totalDownload c) (state c) (thread c) (readBatch c) (oscalls c).
Definition set_totalDownload (n : Z) (c : t) : t :=
  mk (totalUpload c) n (state c) (thread c) (readBatch c) (oscalls c).
Definition log_calls (l : list OsCall) (c : t) : t :=
  mk (totalUpload c) (totalDownload c) (state c) (thread c) (readBatch c)
     (oscalls c ++ l).

Definition MAX_INBUF : Z := Z.shiftl 1 20.

(** [readBatch.size()] *)
Definition batch_size (c : t) : Z := Z.of_nat (length (readBatch c)).

(** [readBatch.empty()] *)
Definition batch_empty (c : t) : bool :=
  match readBatch c with [] => true | _ :: _ => false end.

(** *** The thread body *)

(** [connectSocket], given the value returned by [connect(2)]. *)
Definition connectSocket (res : Z) (c : t) : t :=
  let c := set_state CONNECTING c in
  if res <? 0 then set_state CLOSED (log_calls [CloseSocket] c)
  else set_state CONNECTED c.

(** What one call of [recvsocket] gave: the returned value (stored in an
    [int]), [errno] after the call, and the contents of the 16 KiB
    receive buffer. *)
Record RecvResult := mkRecv {
  recv_size : Z;
  recv_errno : Z;
  recv_buffer : list byte
}.

Inductive Flow := Continue | Break.

(** One turn of the body of [while (state == CONNECTED)] in
    [listenLoop]. *)
Definition listenBody (r : RecvResult) (c : t) : t * Flow :=
  let size := static_cast_int (recv_size r) in
  if size =? 0 then (c, Break)
  else if size <? 0 then
    if recv_errno r =? EINTR then (c, Continue)
    else if (recv_errno r =? EAGAIN) || (recv_errno r =? EWOULDBLOCK)
    then (c, Continue)
    else (c, Break)
  else if size_t (batch_size c + size) >? MAX_INBUF then (c, Break)
  else
    let c := set_readBatch
               (readBatch c ++ take (Z.to_nat size) (recv_buffer r)) c in
    (set_totalDownload (size_t (totalDownload c + size)) c, Continue).

(** The code after the loop of [listenLoop]; the thread body returns. *)
Definition leaveLoop (c : t) : t :=
  set_thread Finished
    (log_calls [Shutdown; CloseSocket] (set_state CLOSED c)).

(** One scheduling of the receive thread: the loop test, then either one
    turn of the body or the exit.  Nothing happens when the thread is not
    inside [listenLoop]. *)
Definition listenStep (r : RecvResult) (c : t) : t :=
  match thread c with
  | InListen =>
      if state_eqb (state c) CONNECTED then
        match listenBody r c with
        | (c', Continue) => c'
        | (c', Break) => leaveLoop c'
        end
      else leaveLoop c
  | _ => c
  end.

(** [listenLoop] over the results of its successive [recvsocket] calls.
    The second component tells whether the loop was left; [false] means
    the thread is blocked in a further [recvsocket]. *)
Fixpoint listenLoop (rs : list RecvResult) (c : t) : t * bool :=
  if state_eqb (state c) CONNECTED then
    match rs with
    | [] => (c, false)
    | r :: rs' =>
        match listenBody r c with
        | (c', Continue) => listenLoop rs' c'
        | (c', Break) => (leaveLoop c', true)
        end
    end
  else (leaveLoop c, true).

(** [startClient]: an accepted socket starts in [CONNECTED] with its
    receive thread. *)
Definition startClient (c : t) : t :=
  set_thread InListen (set_state CONNECTED c).

(** [connect(callback)] creates the thread and returns. *)
Definition connect (c : t) : t := set_thread InConnect c.

(** The first part of the body of that thread: [connectSocket], then the
    callback and [listenLoop] when it succeeded; otherwise the body
    returns. *)
Definition connectStep (res : Z) (c : t) : t :=
  match thread c with
  | InConnect =>
      let c := connectSocket res c in
      if state_eqb (state c) CONNECTED then set_thread InListen c
      else set_thread Finished c
  | _ => c
  end.

(** *** The caller's side *)

(** [recv(outBuffer, length)]: the connection afterwards, the bytes
    copied into [outBuffer], and the returned [int].  (A negative [size]
    would make the [memcpy] undefined; it cannot arise while the queue
    holds fewer than 2^31 bytes.) *)
Definition recv (length : Z) (c : t) : t * list byte * Z :=
  if negb (state_eqb (state c) CONNECTED) && batch_empty c
  then (c, [], -1)
  else
    let size := static_cast_int (Z.min (batch_size c) length) in
    (set_readBatch (drop (Z.to_nat size) (readBatch c)) c,
     take (Z.to_nat size) (readBatch c),
     size).

(** [available()] *)
Definition available (c : t) : Z := static_cast_int (batch_size c).

Definition getState (c : t) : ConnectionState := state c.

(** [close(discardAll)].  [join] returns once the thread body has
    returned: a thread still in [listenLoop] leaves the loop and runs its
    exit code, a thread still in [connectSocket] sees its [connect(2)] on
    the handle just released fail. *)
Definition close (discardAll : bool) (c : t) : t :=
  let c := if discardAll then set_readBatch [] c else c in
  if state_eqb (state c) CLOSED then c
  else
    let c := set_state CLOSED c in
    let c := log_calls [Shutdown; CloseSocket] c in
    let c := match thread c with
             | NoThread => c
             | InConnect => log_calls [Join] (connectStep (-1) c)
             | InListen => log_calls [Join] (leaveLoop c)
             | Finished => log_calls [Join] c
             end in
    set_thread NoThread c.

(** What one call of [sendsocket] gave: the returned value (stored in an
    [int]) and [errno] after the call. *)
Record SendResult := mkSend {
  sent : Z;
  send_errno : Z
}.

(** The [while (total < length)] loop of [send] over the results of its
    successive [sendsocket] calls; [None] when the results run out while
    the loop is still retrying. *)
Fixpoint sendLoop (length total : Z) (env : list SendResult) (c : t)
  : option (t * Z) :=
  if total <? length then
    match env with
    | [] => None
    | r :: env' =>
        let sent := static_cast_int (sent r) in
        if sent =? SOCKET_ERROR then
          if send_errno r =? EINTR then sendLoop length total env' c
          else if (send_errno r =? EAGAIN) || (send_errno r =? EWOULDBLOCK)
          then sendLoop length total env' c
          else Some (close false c, -1)
        else if sent =? 0 then Some (close false c, -1)
        else sendLoop length (size_t (total + size_t sent)) env' c
    end
  else
    Some (set_totalUpload (size_t (totalUpload c + total)) c,
          static_cast_int total).

(** The size handed to the [sendsocket] call made at offset [total]. *)
Definition toSend (length total : Z) : Z :=
  let n := size_t (length - total) in
  if n >? INT_MAX then INT_MAX else n.

(** [send(inBuffer, length)] *)
Definition send (length : Z) (env : list SendResult) (c : t)
  : option (t * Z) :=
  if negb (state_eqb (state c) CONNECTED) then Some (c, -1)
  else sendLoop length 0 env c.

(** [pullUpload()] *)
Definition pullUpload (c : t) : t * Z :=
  let size := totalUpload c in
  (set_totalUpload 0 c, size).

(** [pullDownload()], its read and its write with nothing in between.
    The counter is a plain [size_t] and the call takes no lock, so the
    receive thread can access the counter between the two; the accesses
    are taken one by one in [Interleaving] below. *)
Definition pullDownload (c : t) : t * Z :=
  let size := totalDownload c in
  (set_totalDownload 0 c, size).

(** *** Operations on one connection

    The calls that reach a connection once it exists, from its own
    thread and from its users, in the order in which they take the
    lock. *)
Inductive Op :=
  | OpStartClient
  | OpConnect
  | OpConnectStep (res : Z)
  | OpListenStep (r : RecvResult)
  | OpRecv (length : Z)
  | OpSend (length : Z) (env : list SendResult)
  | OpAvailable
  | OpClose (discardAll : bool)
  | OpPullUpload
  | OpPullDownload.

Definition step (o : Op) (c : t) : t :=
  match o with
  | OpStartClient => startClient c
  | OpConnect => connect c
  | OpConnectStep res => connectStep res c
  | OpListenStep r => listenStep r c
  | OpRecv n => (recv n c).1.1
  | OpSend n env => match send n env c with Some (c', _) => c' | None => c end
  | OpAvailable => c
  | OpClose d => close d c
  | OpPullUpload => (pullUpload c).1
  | OpPullDownload => (pullDownload c).1
  end.

Definition run (ops : list Op) (c : t) : t := foldl (fun c o => step o c) c ops.

(** The operations that bring a new connection to life:
    [startClient] is called once by the listener on the socket it
    accepted, [connect] once by the factory of client connections. *)
Definition starting (o : Op) : bool :=
  match o with
  | OpStartClient | OpConnect | OpConnectStep _ => true
  | _ => false
  end.

(** *** Notions used in the statements *)

(** The bound kept by the receive loop. *)
Definition inbuf_ok (c : t) : Prop := batch_size c <= MAX_INBUF.

(** A batch of [size] bytes that does not fit. *)
Definition overflows (r : RecvResult) (c : t) : Prop :=
  0 < static_cast_int (recv_size r)
  ∧ batch_size c + static_cast_int (recv_size r) > MAX_INBUF.

(** The [int] that a [sendsocket] call returned. *)
Definition sent_int (r : SendResult) : Z := static_cast_int (sent r).

(** A failed write that [send] tries again: interrupted, or would
    block. *)
Definition retried (r : SendResult) : bool :=
  (sent_int r =? SOCKET_ERROR)
  && ((send_errno r =? EINTR) || (send_errno r =? EAGAIN)
      || (send_errno r =? EWOULDBLOCK)).

(** A write that took some bytes. *)
Definition partial (r : SendResult) : bool := 0 <? sent_int r.

(** A write of zero bytes, or a failed write with any other [errno]
    (peer reset, broken pipe, ...). *)
Definition fatal (r : SendResult) : bool :=
  (sent_int r =? 0) || ((sent_int r =? SOCKET_ERROR) && negb (retried r)).

(** The bytes taken by the transport over a run of writes. *)
Definition flushed (env : list SendResult) : Z :=
  foldr (fun r acc => if partial r then sent_int r + acc else acc) 0 env.

(** The contract of [send(2)]: a call returns -1 or a count between 0 and
    the size it was given. *)
Fixpoint transport_ok (len total : Z) (env : list SendResult) : Prop :=
  match env with
  | [] => True
  | r :: env' =>
      -1 <= sent_int r <= toSend len total
      ∧ transport_ok len (if partial r then total + sent_int r else total) env'
  end.

(** A result after which the loop goes on. *)
Definition carries_on (r : SendResult) : bool := retried r || partial r.

(** How a run of writes ends for a buffer of [len] bytes of which [total]
    are out already: on a fatal result met before the last byte is out,
    with the last byte out, or not yet. *)
Definition stops_fatal (len total : Z) (env : list SendResult) : Prop :=
  ∃ pre r post,
    env = pre ++ r :: post
    ∧ Forall (fun x => carries_on x = true) pre
    ∧ fatal r = true
    ∧ total + flushed pre < len.

Definition flushes_all (len total : Z) (env : list SendResult) : Prop :=
  ∃ pre post,
    env = pre ++ post
    ∧ Forall (fun x => carries_on x = true) pre
    ∧ total + flushed pre = len.

Definition still_sending (len total : Z) (env : list SendResult) : Prop :=
  Forall (fun x => carries_on x = true) env ∧ total + flushed env < len.

(** A closed connection that still holds three bytes: [recv(2)] hands
    out the first two. *)
Definition residual : t :=
  mk 0 3 CLOSED Finished ["a"; "b"; "c"]%byte [Shutdown; CloseSocket].

(** A connection whose queue is full to the last byte. *)
Definition full : t :=
  mk 0 0 CONNECTED InListen (replicate (Z.to_nat MAX_INBUF) "x"%byte) [].

(** Five bytes that go out in two writes, with two retries on the way. *)
Definition five_bytes : list SendResult :=
  [mkSend (-1) EAGAIN; mkSend 2 0; mkSend (-1) EINTR; mkSend 3 0].

End SocketConnection.

(** ** [CurlRequests] *)

Module CurlRequests.

Definition HTTP_OK : Z := 200.
Definition HTTP_BAD_GATEWAY : Z := 502.

(** Values of <curl/multi.h>. *)
Definition CURLM_OK : Z := 0.
Definition CURLMSG_DONE : Z := 1.

Inductive RequestType := GET | POST.

(** An [OnResponse] or [OnReject] is a [std::function]; it is known here
    by the identity of the closure it holds, [None] when it is empty. *)
Definition Callback := nat.

Record Request := mkRequest {
  req_type : RequestType;
  req_url : string;
  req_onResponse : option Callback;
  req_onReject : option Callback;
  req_maxSize : Z;
  req_followLocation : bool;
  req_data : string
}.

(** The options of the one easy handle, as left by [curl_easy_setopt]. *)
Record EasyHandle := mkEasy {
  opt_url : string;
  opt_post : bool;
  opt_postfieldsize : Z;
  opt_postfields : string;
  opt_httpheader : list string;
  opt_followlocation : bool;
  opt_useragent : string;
  opt_maxfilesize : Z
}.

Definition easy_init : EasyHandle :=
  mkEasy EmptyString false 0 EmptyString [] false EmptyString 0.

(** What the class does to the outside, in order: calls on the multi
    handle and invocations of the callbacks.  [Cleared] marks
    [url.clear()], the point where the active request is given up. *)
Inductive Action :=
  | AddHandle (h : EasyHandle)
  | RemoveHandle
  | CallOnResponse (cb : Callback) (body : list byte)
  | CallOnReject (cb : Callback) (code : Z)
  | Cleared.

Record t := mk {
  curl : EasyHandle;
  totalUpload : Z;
  totalDownload : Z;
  onResponse : option Callback;
  onReject : option Callback;
  buffer : list byte;
  url : string;
  requests : list Request
}.

(** Constructor. *)
Definition create : t :=
  mk easy_init 0 0 None None [] EmptyString [].

(** [url.empty()] *)
Definition url_empty (u : string) : bool :=
  match u with EmptyString => true | String _ _ => false end.

(** [write_callback]: the chunk of [size * nmemb] bytes is appended to
    the vector behind [userdata]. *)
Definition write_callback (buf chunk : list byte) : list byte := buf ++ chunk.

(** What one [curl_multi_perform] did: the chunks it passed to
    [write_callback], and the [CURLMcode] it returned. *)
Record PerformResult := mkPerform {
  written : list (list byte);
  perform_code : Z
}.

(** A message of [curl_multi_info_read]: its kind, the [CURLcode] of the
    transfer, and what [CURLINFO_RESPONSE_CODE] reads on its handle (0
    when the transfer got no HTTP status). *)
Record CURLMsg := mkMsg {
  msg : Z;
  msg_result : Z;
  msg_response : Z
}.

(** The environment of one [update()]: its [curl_multi_perform], the
    message read (if any), the two [curl_easy_getinfo] sizes ([None] when
    the call fails), and the [curl_multi_perform] of the request started
    from the queue. *)
Record UpdateEnv := mkEnv {
  env_perform : PerformResult;
  env_msg : option CURLMsg;
  env_request_size : option Z;
  env_header_size : option Z;
  env_start : PerformResult
}.

(** [if (f) f(arg)] for the two callbacks. *)
Definition call_onReject (f : option Callback) (code : Z) : list Action :=
  match f with Some cb => [CallOnReject cb code] | None => [] end.
Definition call_onResponse (f : option Callback) (body : list byte)
  : list Action :=
  match f with Some cb => [CallOnResponse cb body] | None => [] end.

(** The [curl_easy_setopt] calls of [processRequest]. *)
Definition configure (request : Request) (h : EasyHandle) : EasyHandle :=
  let post := match req_type request with POST => true | GET => false end in
  mkEasy (req_url request)
         post
         (if post then Z.of_nat (String.length (req_data request))
          else opt_postfieldsize h)
         (if post then req_data request else opt_postfields h)
         (if post then ["Content-Type: application/json"%string] else [])
         (req_followLocation request)
         "curl/7.81.0"
         (if req_maxSize request =? 0 then LONG_MAX else req_maxSize request).

(** [processRequest(request)], given its [curl_multi_perform]. *)
Definition processRequest (request : Request) (p : PerformResult) (s : t)
  : t * list Action :=
  if negb (url_empty (url s)) then
    (mk (curl s) (totalUpload s) (totalDownload s) (onResponse s)
        (onReject s) (buffer s) (url s) (requests s ++ [request]), [])
  else
    let h := configure request (curl s) in
    let buf := foldl write_callback [] (written p) in
    if negb (perform_code p =? CURLM_OK) then
      (mk h (totalUpload s) (totalDownload s) (req_onResponse request)
          (req_onReject request) buf EmptyString (requests s),
       AddHandle h :: call_onReject (req_onReject request) HTTP_BAD_GATEWAY
         ++ [Cleared])
    else
      (mk h (totalUpload s) (totalDownload s) (req_onResponse request)
          (req_onReject request) buf (req_url request) (requests s),
       [AddHandle h]).

(** [get(url, onResponse, onReject, maxSize)] *)
Definition get (u : string) (onResp onRej : option Callback) (maxSize : Z)
  (p : PerformResult) (s : t) : t * list Action :=
  processRequest (mkRequest GET u onResp onRej maxSize false EmptyString) p s.

(** [post(url, data, onResponse, onReject, maxSize)]; [onReject] defaults
    to the empty function and [maxSize] to 0. *)
Definition post (u data : string) (onResp onRej : option Callback)
  (maxSize : Z) (p : PerformResult) (s : t) : t * list Action :=
  processRequest (mkRequest POST u onResp onRej maxSize false data) p s.

(** [x += size] on a [size_t] counter when [curl_easy_getinfo]
    succeeded. *)
Definition add_info (x : Z) (info : option Z) : Z :=
  match info with Some size => size_t (x + size) | None => x end.

(** The part of [update()] that handles the message read, when there is
    one. *)
Definition handleMessage (e : UpdateEnv) (m : CURLMsg) (s : t)
  : t * list Action :=
  let removed := if msg m =? CURLMSG_DONE then [RemoveHandle] else [] in
  if msg_response m =? HTTP_OK then
    let up := add_info (totalUpload s) (env_request_size e) in
    let down := add_info (totalDownload s) (env_header_size e) in
    let down := size_t (down + Z.of_nat (length (buffer s))) in
    (mk (curl s) up down (onResponse s) (onReject s)
        (match onResponse s with Some _ => [] | None => buffer s end)
        EmptyString (requests s),
     removed ++ call_onResponse (onResponse s) (buffer s) ++ [Cleared])
  else
    (mk (curl s) (totalUpload s) (totalDownload s) (onResponse s)
        (onReject s) (buffer s) EmptyString (requests s),
     removed ++ call_onReject (onReject s) (msg_response m) ++ [Cleared]).

(** The last statement of [update()]: start the next queued request when
    no request is active. *)
Definition startNext (p : PerformResult) (s : t) : t * list Action :=
  if url_empty (url s) then
    match requests s with
    | request :: rest =>
        processRequest request p
          (mk (curl s) (totalUpload s) (totalDownload s) (onResponse s)
              (onReject s) (buffer s) (url s) rest)
    | [] => (s, [])
    end
  else (s, []).

(** The first part of [update()]: [curl_multi_perform], then the message
    read.  The flag tells that [update()] returns there (the [return] of
    the error branch). *)
Definition poll (e : UpdateEnv) (s : t) : t * list Action * bool :=
  let buf := foldl write_callback (buffer s) (written (env_perform e)) in
  let s := mk (curl s) (totalUpload s) (totalDownload s) (onResponse s)
              (onReject s) buf (url s) (requests s) in
  if negb (perform_code (env_perform e) =? CURLM_OK) then
    (mk (curl s) (totalUpload s) (totalDownload s) (onResponse s)
        (onReject s) (buffer s) EmptyString (requests s),
     call_onReject (onReject s) HTTP_BAD_GATEWAY ++ [RemoveHandle; Cleared],
     true)
  else
    match env_msg e with
    | Some m => (handleMessage e m s, false)
    | None => (s, [], false)
    end.

(** [update()] *)
Definition update (e : UpdateEnv) (s : t) : t * list Action :=
  let '(s, acts, returned) := poll e s in
  if returned then (s, acts)
  else
    let '(s, acts') := startNext (env_start e) s in
    (s, acts ++ acts').

Definition getTotalUpload (s : t) : Z := totalUpload s.
Definition getTotalDownload (s : t) : Z := totalDownload s.

(** A submission through [get] or [post]. *)
Inductive Submission :=
  | Get (u : string) (onResp onRej : option Callback) (maxSize : Z)
  | Post (u data : string) (onResp onRej : option Callback) (maxSize : Z).

Definition submit (sub : Submission) (p : PerformResult) (s : t)
  : t * list Action :=
  match sub with
  | Get u f g m => get u f g m p s
  | Post u d f g m => post u d f g m p s
  end.

(** The [Request] that a submission builds. *)
Definition request_of (sub : Submission) : Request :=
  match sub with
  | Get u f g m => mkRequest GET u f g m false EmptyString
  | Post u d f g m => mkRequest POST u f g m false d
  end.

(** Successive submissions, each with its [curl_multi_perform]. *)
Fixpoint submitAll (subs : list (Submission * PerformResult)) (s : t)
  : t * list Action :=
  match subs with
  | [] => (s, [])
  | (sub, p) :: rest =>
      let '(s1, a1) := submit sub p s in
      let '(s2, a2) := submitAll rest s1 in
      (s2, a1 ++ a2)
  end.

(** Successive calls of [update()]. *)
Fixpoint updates (es : list UpdateEnv) (s : t) : t * list Action :=
  match es with
  | [] => (s, [])
  | e :: rest =>
      let '(s1, a1) := update e s in
      let '(s2, a2) := updates rest s1 in
      (s2, a1 ++ a2)
  end.

(** *** Notions used in the statements *)

(** The callback that an action invokes. *)
Definition callee (a : Action) : option Callback :=
  match a with
  | CallOnResponse cb _ | CallOnReject cb _ => Some cb
  | _ => None
  end.

(** The callback invocations among some actions, and the callbacks they
    invoke. *)
Definition callbacks (acts : list Action) : list Action :=
  filter (fun a => is_Some (callee a)) acts.
Definition callees (acts : list Action) : list Callback := omap callee acts.

(** An [update()] that finds the transfer still running: its
    [curl_multi_perform] succeeds and there is no message to read. *)
Definition waiting (e : UpdateEnv) : Prop :=
  perform_code (env_perform e) = CURLM_OK ∧ env_msg e = None.

(** The bytes that the [curl_multi_perform] calls of some updates passed
    to [write_callback]. *)
Definition received (es : list UpdateEnv) : list byte :=
  concat (flat_map (fun e => written (env_perform e)) es).

(** Whether a transfer is in flight after some actions, given whether one
    was before: [AddHandle] puts one in flight, [Cleared] ends it.
    [None] when a transfer is added while another is in flight. *)
Fixpoint in_flight (busy : bool) (acts : list Action) : option bool :=
  match acts with
  | [] => Some busy
  | AddHandle _ :: rest => if busy then None else in_flight true rest
  | Cleared :: rest => in_flight false rest
  | _ :: rest => in_flight busy rest
  end.

(** The callbacks of a request are those of the [i]-th submission. *)
Definition numbered (i : nat) (r : Request) : Prop :=
  (∀ cb, req_onResponse r = Some cb → cb = i)
  ∧ (∀ cb, req_onReject r = Some cb → cb = i).

(** The requests of a list carry the numbers [i], [i+1], ... in order. *)
Fixpoint numbered_from (i : nat) (rs : list Request) : Prop :=
  match rs with
  | [] => True
  | r :: rest => numbered i r ∧ numbered_from (S i) rest
  end.

(** The callbacks held by the active slot are those of the [i]-th
    submission. *)
Definition slot_numbered (i : nat) (s : t) : Prop :=
  (∀ cb, onResponse s = Some cb → cb = i)
  ∧ (∀ cb, onReject s = Some cb → cb = i).

(** Numbers that go up from [lo] to at most [hi]. *)
Fixpoint ascending (lo hi : nat) (l : list nat) : Prop :=
  match l with
  | [] => (lo <= hi)%nat
  | x :: rest => (lo <= x)%nat ∧ ascending x hi rest
  end.

(** Whether a request is active: [!url.empty()]. *)
Definition active (s : t) : bool := negb (url_empty (url s)).

(** An invocation of the closure [f] as [onResponse]. *)
Definition responds (f : Callback) (a : Action) : bool :=
  match a with
  | CallOnResponse cb _ => Nat.eqb cb f
  | _ => false
  end.

(** *** Scenarios *)

(** A GET with both callbacks and a bound on the body. *)
Definition page : Request :=
  mkRequest GET "http://h/a" (Some 1%nat) (Some 2%nat) 1024 false EmptyString.

(** An [update()] in which the active transfer is reported done with
    the given status. *)
Definition done (status : Z) : UpdateEnv :=
  mkEnv (mkPerform [] CURLM_OK) (Some (mkMsg CURLMSG_DONE 0 status))
    (Some 80) (Some 120) (mkPerform [] CURLM_OK).

(** Three requests: a GET that ends in 404, a POST without [onReject]
    that ends in 200, a GET that ends in 500. *)
Definition three_active : t :=
  (submit (Get "http://h/a" (Some 0%nat) (Some 0%nat) 0)
     (mkPerform [] CURLM_OK) create).1.

Definition three_queued : list (Submission * PerformResult) :=
  [(Post "http://h/b" "{}" (Some 1%nat) None 0, mkPerform [] CURLM_OK);
   (Get "http://h/c" (Some 2%nat) (Some 2%nat) 0, mkPerform [] CURLM_OK)].

(** The request queued behind the GET of the scenario, and an
    [update()] that finds the GET still running. *)
Definition second_get : Submission :=
  Get "http://h/b" (Some 3%nat) (Some 4%nat) 0.

Definition still_running : UpdateEnv :=
  mkEnv (mkPerform [] CURLM_OK) None None None (mkPerform [] CURLM_OK).

End CurlRequests.

(** ** [SocketTcpSServer] *)

Module SocketTcpSServer.

Import SocketConnection.

Record t := mk {
  clients : list Z;
  open : bool;
  thread : bool;
  port : Z;
  oscalls : list OsCall
}.

(** Constructor: open, no thread yet. *)
Definition create (port : Z) : t := mk [] true false port [].

(** The loop of [closeSocket] over [clients]:
    [if (auto client = network->getConnection(clientid)) client->close()]. *)
Definition closeClients (ids : list Z) (conns : gmap Z SocketConnection.t)
  : gmap Z SocketConnection.t :=
  foldl (fun cs id =>
           match cs !! id with
           | Some client => <[id := close false client]> cs
           | None => cs
           end) conns ids.

(** [closeSocket()], on the connections of the [network] it points to. *)
Definition closeSocket (srv : t) (conns : gmap Z SocketConnection.t)
  : t * gmap Z SocketConnection.t :=
  if negb (open srv) then (srv, conns)
  else
    (mk [] false false (port srv)
        (oscalls srv ++ [Shutdown; CloseSocket]
           ++ (if thread srv then [Join] else [])),
     closeClients (clients srv) conns).

(** [isOpen()] *)
Definition isOpen (srv : t) : bool := open srv.

Definition getPort (srv : t) : Z := port srv.

End SocketTcpSServer.

(** ** The [Network] facade *)

Module Network.

Record t := mk {
  requests : CurlRequests.t;
  connections : gmap Z SocketConnection.t;
  servers : gmap Z SocketTcpSServer.t;
  nextConnection : Z;
  nextServer : Z;
  totalUpload : Z;
  totalDownload : Z
}.

(** Constructor, with the first ids that the class declaration gives to
    its two counters. *)
Definition create (firstConnection firstServer : Z) : t :=
  mk CurlRequests.create ∅ ∅ firstConnection firstServer 0 0.

Definition set_connections (cs : gmap Z SocketConnection.t) (n : t) : t :=
  mk (requests n) cs (servers n) (nextConnection n) (nextServer n)
     (totalUpload n) (totalDownload n).
Definition set_servers (ss : gmap Z SocketTcpSServer.t) (n : t) : t :=
  mk (requests n) (connections n) ss (nextConnection n) (nextServer n)
     (totalUpload n) (totalDownload n).
Definition set_requests (r : CurlRequests.t) (n : t) : t :=
  mk r (connections n) (servers n) (nextConnection n) (nextServer n)
     (totalUpload n) (totalDownload n).
Definition set_totals (up down : Z) (n : t) : t :=
  mk (requests n) (connections n) (servers n) (nextConnection n)
     (nextServer n) up down.

(** [getConnection(id)] *)
Definition getConnection (id : Z) (n : t) : option SocketConnection.t :=
  connections n !! id.

(** [getServer(id)] *)
Definition getServer (id : Z) (n : t) : option SocketTcpSServer.t :=
  servers n !! id.

(** [addConnection(socket)] *)
Definition addConnection (socket : SocketConnection.t) (n : t) : t * Z :=
  let id := nextConnection n in
  (mk (requests n) (<[id := socket]> (connections n)) (servers n)
      (size_t (id + 1)) (nextServer n) (totalUpload n) (totalDownload n),
   id).

(** [connect(address, port, callback)], when the address resolves and the
    socket is created: the connection is registered while its thread has
    still to run [connectSocket]. *)
Definition connect (n : t) : t * Z :=
  let id := nextConnection n in
  (mk (requests n)
      (<[id := SocketConnection.connect SocketConnection.create]>
         (connections n))
      (servers n) (size_t (id + 1)) (nextServer n) (totalUpload n)
      (totalDownload n),
   id).

(** [connect(address, port, callback)], when [SocketConnection::connect]
    throws (the address does not resolve, or no socket can be created):
    [nextConnection++] was evaluated before, so the id is used up;
    nothing is registered and the caller gets the exception, no id. *)
Definition connectThrows (n : t) : t :=
  mk (requests n) (connections n) (servers n)
     (size_t (nextConnection n + 1)) (nextServer n) (totalUpload n)
     (totalDownload n).

(** [connect(address, port, callback)] on both paths: [created] tells
    whether [SocketConnection::connect] returned a connection. *)
Definition connectWith (created : bool) (n : t) : t * option Z :=
  if created then ((connect n).1, Some (connect n).2)
  else (connectThrows n, None).

(** An operation of a user on the connection registered under [id],
    reached through [getConnection(id)]; nothing when the id is
    unknown. *)
Definition onConnection (id : Z) (o : SocketConnection.Op) (n : t) : t :=
  match getConnection id n with
  | Some c => set_connections (<[id := SocketConnection.step o c]> (connections n)) n
  | None => n
  end.

(** [close()] of the server registered under [id]. *)
Definition closeServer (id : Z) (n : t) : t :=
  match getServer id n with
  | Some srv =>
      let '(srv', cs) := SocketTcpSServer.closeSocket srv (connections n) in
      set_servers (<[id := srv']> (servers n)) (set_connections cs n)
  | None => n
  end.

(** The first loop of [update()], over the entries of [connections],
    when no receive thread takes a turn while the loop runs.  The loop
    holds [connectionsMutex] only, which no receive thread takes; the
    turns that the receive threads take between the calls of the loop
    are added in [Interleaving] below. *)
Fixpoint sweepConnections (es : list (Z * SocketConnection.t)) (n : t) : t :=
  match es with
  | [] => n
  | (id, socket) :: rest =>
      let '(socket, down) := SocketConnection.pullDownload socket in
      let n := set_totals (totalUpload n) (size_t (totalDownload n + down)) n in
      let '(socket, up) := SocketConnection.pullUpload socket in
      let n := set_totals (size_t (totalUpload n + up)) (totalDownload n) n in
      if (SocketConnection.available socket =? 0)
         && SocketConnection.state_eqb (SocketConnection.getState socket)
              SocketConnection.CLOSED
      then sweepConnections rest (set_connections (delete id (connections n)) n)
      else sweepConnections rest
             (set_connections (<[id := socket]> (connections n)) n)
  end.

(** The second loop of [update()], over the entries of [servers]. *)
Fixpoint sweepServers (es : list (Z * SocketTcpSServer.t)) (n : t) : t :=
  match es with
  | [] => n
  | (id, server) :: rest =>
      if negb (SocketTcpSServer.isOpen server)
      then sweepServers rest (set_servers (delete id (servers n)) n)
      else sweepServers rest n
  end.

(** [update()] *)
Definition update (e : CurlRequests.UpdateEnv) (n : t)
  : t * list CurlRequests.Action :=
  let '(r, acts) := CurlRequests.update e (requests n) in
  let n := set_requests r n in
  let n := sweepConnections (map_to_list (connections n)) n in
  let n := sweepServers (map_to_list (servers n)) n in
  (n, acts).

(** [getTotalUpload()] *)
Definition getTotalUpload (n : t) : Z :=
  size_t (CurlRequests.getTotalUpload (requests n) + totalUpload n).

(** [getTotalDownload()] *)
Definition getTotalDownload (n : t) : Z :=
  size_t (CurlRequests.getTotalDownload (requests n) + totalDownload n).

End Network.

(** ** The registry of the facade, as [update()] sees it *)

Module Registry.

Import SocketConnection.

(** A connection after its two counters were pulled. *)
Definition drained (c : t) : t := set_totalUpload 0 (set_totalDownload 0 c).

(** The test under which [update()] erases a connection. *)
Definition reclaimed (c : t) : bool :=
  (available c =? 0) && state_eqb (getState c) CLOSED.

(** What [update()] leaves under the id of a connection. *)
Definition swept (c : t) : option t :=
  if reclaimed (drained c) then None else Some (drained c).

(** The bytes that the registered connections hold in their counters. *)
Definition pendingUpload (es : list (Z * t)) : Z :=
  foldr (fun e acc => totalUpload e.2 + acc) 0 es.
Definition pendingDownload (es : list (Z * t)) : Z :=
  foldr (fun e acc => totalDownload e.2 + acc) 0 es.

(** The totals of the facade are [size_t] values. *)
Definition totals_ok (n : Network.t) : Prop :=
  0 <= Network.totalUpload n < 2 ^ 64 ∧ 0 <= Network.totalDownload n < 2 ^ 64.

(** An [update()] in which libcurl has nothing to report. *)
Definition quiet : CurlRequests.UpdateEnv :=
  CurlRequests.mkEnv (CurlRequests.mkPerform [] 0) None None None
    (CurlRequests.mkPerform [] 0).

(** A registry with one connection, closed by its peer with three bytes
    still in its queue. *)
Definition lingering : Network.t :=
  Network.set_connections {[ 7 := residual ]} (Network.create 1 1).

(** The facade with one connection that has booked 5 bytes up and 3
    down. *)
Definition busy : Network.t :=
  Network.set_connections
    {[ 7 := mk 5 3 CONNECTED InListen ["a"; "b"; "c"]%byte [] ]}
    (Network.create 1 1).

(** A listener that accepted the connections 7 and 8, of which 8 was
    reclaimed by the facade in the meantime. *)
Definition listener : SocketTcpSServer.t :=
  SocketTcpSServer.mk [7; 8] true true 25565 [].

End Registry.

(** ** Ports of socket addresses *)

Module Sockaddr.

(** Conversion to [uint16_t]. *)
Definition uint16 (z : Z) : Z := z mod 2 ^ 16.

(** [htons] of <arpa/inet.h>: it takes and returns a [uint16_t], swaps
    its two bytes on a little-endian host and is the identity on a
    big-endian one. *)
Definition htons (little_endian : bool) (x : Z) : Z :=
  let x := uint16 x in
  if little_endian
  then Z.lor (Z.shiftl (Z.land x 255) 8) (Z.shiftr x 8)
  else x.

(** [serverAddress.sin_port = htons(port)] of
    [SocketConnection::connect(address, port, callback)], and
    [address.sin_port = htons(port)] of [openServer]. *)
Definition sin_port (little_endian : bool) (port : Z) : Z :=
  htons little_endian port.

(** [SocketConnection::getPort()]: [htons(addr.sin_port)]. *)
Definition getPort (little_endian : bool) (addr_sin_port : Z) : Z :=
  htons little_endian addr_sin_port.

End Sockaddr.

(** ** More of [SocketConnection] *)

Module Transport.

Import SocketConnection.

(** The bytes that the transport took during [send(inBuffer, length)],
    in order: a [sendsocket] call at offset [total] that returns
    [sent > 0] took the first [sent] bytes of [inBuffer + total].  The
    function follows the loop of [send] turn by turn. *)
Fixpoint sendWire (inBuffer : list byte) (length total : Z)
  (env : list SendResult) : list byte :=
  if total <? length then
    match env with
    | [] => []
    | r :: env' =>
        let sent := static_cast_int (sent r) in
        if sent =? SOCKET_ERROR then
          if send_errno r =? EINTR then sendWire inBuffer length total env'
          else if (send_errno r =? EAGAIN) || (send_errno r =? EWOULDBLOCK)
          then sendWire inBuffer length total env'
          else []
        else if sent =? 0 then []
        else
          take (Z.to_nat sent) (drop (Z.to_nat total) inBuffer)
            ++ sendWire inBuffer length (size_t (total + size_t sent)) env'
    end
  else [].

(** The destructor [~SocketConnection()]; [join] as in [close]. *)
Definition destroy (c : t) : t :=
  let c := if negb (state_eqb (state c) CLOSED)
           then log_calls [Shutdown; CloseSocket] c else c in
  match thread c with
  | NoThread => c
  | InConnect => log_calls [Join] (connectStep (-1) c)
  | InListen => log_calls [Join] (leaveLoop c)
  | Finished => log_calls [Join] c
  end.

(** A result of [recvsocket] that the loop of [listenLoop] passes over:
    interrupted, or would block. *)
Definition passed_over (r : RecvResult) : bool :=
  (static_cast_int (recv_size r) <? 0)
  && ((recv_errno r =? EINTR) || (recv_errno r =? EAGAIN)
      || (recv_errno r =? EWOULDBLOCK)).

(** The contract of [recv(2)] on the 16 KiB buffer: the call returns at
    most as many bytes as the buffer holds. *)
Definition buffer_ok (r : RecvResult) : Prop :=
  static_cast_int (recv_size r) <= Z.of_nat (length (recv_buffer r)).

(** The bytes that a result of [recvsocket] brings. *)
Definition payload (r : RecvResult) : list byte :=
  take (Z.to_nat (static_cast_int (recv_size r))) (recv_buffer r).

(** A result that brings exactly its buffer, at least one byte. *)
Definition batch (r : RecvResult) : Prop :=
  recv_buffer r ≠ []
  ∧ static_cast_int (recv_size r) = Z.of_nat (length (recv_buffer r)).

End Transport.

(** ** More of [SocketTcpSServer] and of the facade *)

Module Listener.

Import SocketConnection.

(** What one call of [accept] gave: the returned descriptor and [errno]
    after the call. *)
Record AcceptResult := mkAccept {
  accept_fd : Z;
  accept_errno : Z
}.

(** One turn of the [while (open)] loop of the thread of [startListen]:
    the listener and the facade afterwards, the ids passed to [handler],
    and how the loop goes on.  When [accept] fails with another error
    than [EINTR] the thread calls [close()], whose [closeSocket] ends by
    joining [thread], here the calling thread itself: [std::thread::join]
    throws there and the exception leaves the thread function, so that
    turn has no state afterwards ([None]). *)
Definition acceptTurn (r : AcceptResult) (srv : SocketTcpSServer.t)
  (n : Network.t)
  : option (SocketTcpSServer.t * Network.t * list Z * Flow) :=
  if negb (SocketTcpSServer.open srv) then Some (srv, n, [], Break)
  else
    let clientDescriptor := static_cast_int (accept_fd r) in
    if clientDescriptor =? SOCKET_ERROR then
      if accept_errno r =? EINTR then Some (srv, n, [], Continue)
      else None
    else
      let socket := startClient create in
      let '(n', id) := Network.addConnection socket n in
      Some
        (SocketTcpSServer.mk (SocketTcpSServer.clients srv ++ [id])
           (SocketTcpSServer.open srv) (SocketTcpSServer.thread srv)
           (SocketTcpSServer.port srv) (SocketTcpSServer.oscalls srv),
         n', [id], Continue).

(** [Network::openServer(port, handler)], when the socket is created and
    bound: the listener, its thread started, is registered under the
    next server id. *)
Definition openServer (port : Z) (n : Network.t) : Network.t * Z :=
  let id := Network.nextServer n in
  (Network.mk (Network.requests n) (Network.connections n)
     (<[id := SocketTcpSServer.mk [] true true port []]> (Network.servers n))
     (Network.nextConnection n) (size_t (id + 1)) (Network.totalUpload n)
     (Network.totalDownload n),
   id).

(** What [update()] leaves under the id of a listener. *)
Definition kept (srv : SocketTcpSServer.t) : option SocketTcpSServer.t :=
  if SocketTcpSServer.isOpen srv then Some srv else None.

(** Every registered connection has an id below the next one to be
    given. *)
Definition ids_below (n : Network.t) : Prop :=
  0 <= Network.nextConnection n
  ∧ ∀ id, is_Some (Network.connections n !! id) →
          0 <= id < Network.nextConnection n.

(** The calls made on the facade and on what it registers. *)
Inductive Call :=
  | CallConnect
  | CallConnectThrows
  | CallAddConnection (socket : SocketConnection.t)
  | CallOpenServer (port : Z)
  | CallUpdate (e : CurlRequests.UpdateEnv)
  | CallOnConnection (id : Z) (o : Op)
  | CallCloseServer (id : Z).

Definition call (k : Call) (n : Network.t) : Network.t :=
  match k with
  | CallConnect => (Network.connectWith true n).1
  | CallConnectThrows => (Network.connectWith false n).1
  | CallAddConnection socket => (Network.addConnection socket n).1
  | CallOpenServer port => (openServer port n).1
  | CallUpdate e => (Network.update e n).1
  | CallOnConnection id o => Network.onConnection id o n
  | CallCloseServer id => Network.closeServer id n
  end.

Definition calls (ks : list Call) (n : Network.t) : Network.t :=
  foldl (fun n k => call k n) n ks.

(** The calls that register a connection. *)
Definition registers (k : Call) : bool :=
  match k with
  | CallConnect | CallAddConnection _ => true
  | _ => false
  end.

(** The calls that evaluate [nextConnection++]: those that register a
    connection, and the [connect] that throws after it. *)
Definition takes_id (k : Call) : bool :=
  match k with
  | CallConnect | CallConnectThrows | CallAddConnection _ => true
  | _ => false
  end.

(** The number of ids that a run of calls uses up. *)
Definition ids_taken (ks : list Call) : Z :=
  Z.of_nat (length (filter (fun k => takes_id k = true) ks)).

End Listener.

(** ** More notions on the request queue *)

Module Queueing.

Import CurlRequests.

(** The URLs of the transfers handed to the multi handle, in order. *)
Definition started (acts : list Action) : list string :=
  omap (fun a => match a with AddHandle h => Some (opt_url h) | _ => None end)
    acts.

(** An [update()] in which libcurl reports a message for the transfer. *)
Definition completing (e : UpdateEnv) : Prop :=
  perform_code (env_perform e) = CURLM_OK ∧ is_Some (env_msg e).

(** An [update()] whose [curl_multi_perform] fails. *)
Definition failing (e : UpdateEnv) : Prop :=
  perform_code (env_perform e) ≠ CURLM_OK.

End Queueing.

(** ** The receive threads during [update()]

    [Network::update()] runs on the thread of its caller while every
    connection has its receive thread in [listenLoop].  [readBatch] is
    accessed under [mutex] and [state] is atomic, so that a call of
    [available()] or [getState()] and a turn of the receive loop take
    effect one after the other; but [update()] makes these calls one
    after the other with the receive thread free to take turns in
    between, and [totalDownload] is a plain [size_t], which
    [listenLoop] updates holding [mutex] and [pullDownload()] reads and
    zeroes holding nothing. *)

Module Interleaving.

Import SocketConnection.

(** The accesses to [totalDownload]: the read and the write of
    [totalDownload += size] in [listenLoop], and the read
    ([size_t size = totalDownload]) and the write ([totalDownload = 0])
    of [pullDownload()], which then returns [size]. *)
Inductive Access :=
  | BookRead
  | BookWrite (size : Z)
  | PullRead
  | PullWrite.

(** A connection with what each thread holds between its read and its
    write, and the values returned by the calls of [pullDownload()] so
    far, in order. *)
Record Counter := mkCounter {
  connection : t;
  held : Z;
  size : Z;
  returned : list Z
}.

Definition access (a : Access) (k : Counter) : Counter :=
  match a with
  | BookRead =>
      mkCounter (connection k) (totalDownload (connection k)) (size k)
        (returned k)
  | BookWrite sz =>
      mkCounter (set_totalDownload (size_t (held k + sz)) (connection k))
        (held k) (size k) (returned k)
  | PullRead =>
      mkCounter (connection k) (held k) (totalDownload (connection k))
        (returned k)
  | PullWrite =>
      mkCounter (set_totalDownload 0 (connection k)) (held k) (size k)
        (returned k ++ [size k])
  end.

Definition accesses (l : list Access) (k : Counter) : Counter :=
  foldl (fun k a => access a k) k l.

(** [totalDownload += socket->pullDownload()] of [update()], for the
    values that successive pulls returned. *)
Definition added (total : Z) (pulled : list Z) : Z :=
  foldl (fun total down => size_t (total + down)) total pulled.

(** Turns of the receive loop, one after the other. *)
Definition turns (rs : list RecvResult) (c : t) : t :=
  foldl (fun c r => listenStep r c) c rs.

(** What the receive thread of a connection does while the first loop
    of [update()] is at that connection: the turns it takes before
    [pullDownload()], before [pullUpload()], before [available()], and
    between [available()] and [getState()]. *)
Record Turns := mkTurns {
  before_pullDownload : list RecvResult;
  before_pullUpload : list RecvResult;
  before_available : list RecvResult;
  before_getState : list RecvResult
}.

Definition no_turns : Turns := mkTurns [] [] [] [].

(** The first loop of [update()], with the turns of the receive threads;
    [getState()] is called only when [available() == 0] held. *)
Fixpoint sweepConnections (sched : Z → Turns) (es : list (Z * t))
  (n : Network.t) : Network.t :=
  match es with
  | [] => n
  | (id, socket) :: rest =>
      let socket := turns (before_pullDownload (sched id)) socket in
      let '(socket, down) := pullDownload socket in
      let n := Network.set_totals (Network.totalUpload n)
                 (size_t (Network.totalDownload n + down)) n in
      let socket := turns (before_pullUpload (sched id)) socket in
      let '(socket, up) := pullUpload socket in
      let n := Network.set_totals (size_t (Network.totalUpload n + up))
                 (Network.totalDownload n) n in
      let socket := turns (before_available (sched id)) socket in
      if available socket =? 0 then
        let socket := turns (before_getState (sched id)) socket in
        if state_eqb (getState socket) CLOSED
        then sweepConnections sched rest
               (Network.set_connections
                  (delete id (Network.connections n)) n)
        else sweepConnections sched rest
               (Network.set_connections
                  (<[id := socket]> (Network.connections n)) n)
      else sweepConnections sched rest
             (Network.set_connections
                (<[id := socket]> (Network.connections n)) n)
  end.

(** [update()], with the turns of the receive threads. *)
Definition update (sched : Z → Turns) (e : CurlRequests.UpdateEnv)
  (n : Network.t) : Network.t * list CurlRequests.Action :=
  let '(r, acts) := CurlRequests.update e (Network.requests n) in
  let n := Network.set_requests r n in
  let n := sweepConnections sched (map_to_list (Network.connections n)) n in
  let n := Network.sweepServers (map_to_list (Network.servers n)) n in
  (n, acts).

(** *** Scenarios *)

(** A connection that has booked three bytes, and the accesses of a
    batch of five bytes with a [pullDownload()] between the read and
    the write of the booking, followed by the next [pullDownload()]. *)
Definition booked3 : Counter :=
  mkCounter (mk 0 3 CONNECTED InListen ["a"; "b"; "c"]%byte []) 0 0 [].

Definition torn : list Access :=
  [BookRead; PullRead; PullWrite; BookWrite 5; PullRead; PullWrite].

(** The same accesses with the booking before, and after, the first
    pull. *)
Definition booked_first : list Access :=
  [BookRead; BookWrite 5; PullRead; PullWrite; PullRead; PullWrite].

Definition pulled_first : list Access :=
  [PullRead; PullWrite; BookRead; BookWrite 5; PullRead; PullWrite].

(** A registry with one connection, connected and with nothing
    buffered; its peer sends three bytes and closes, and the receive
    thread takes both turns between [available()] and [getState()]. *)
Definition waiting7 : t := mk 0 0 CONNECTED InListen [] [].

Definition attended : Network.t :=
  Network.set_connections {[ 7 := waiting7 ]} (Network.create 1 1).

Definition last_words : list RecvResult :=
  [mkRecv 3 0 ["a"; "b"; "c"]%byte; mkRecv 0 0 []].

Definition in_between (id : Z) : Turns := mkTurns [] [] [] last_words.

End Interleaving.

(** * Properties *)

(** ** Machine integers *)

Section MachineFacts.

Lemma static_cast_int_id (z : Z) :
  - 2 ^ 31 <= z < 2 ^ 31 → static_cast_int z = z.
Proof.
  intros Hz. unfold static_cast_int.
  rewrite Z.mod_small; lia.
Qed.

Lemma size_t_id (z : Z) : 0 <= z < 2 ^ 64 → size_t z = z.
Proof. intros Hz. unfold size_t. now apply Z.mod_small. Qed.

Lemma size_t_range (z : Z) : 0 <= size_t z < 2 ^ 64.
Proof. unfold size_t. apply Z.mod_pos_bound. lia. Qed.

Lemma size_t_add_l (a b : Z) : size_t (size_t a + b) = size_t (a + b).
Proof. unfold size_t. apply Zplus_mod_idemp_l. Qed.

Lemma size_t_add_r (a b : Z) : size_t (a + size_t b) = size_t (a + b).
Proof. unfold size_t. apply Zplus_mod_idemp_r. Qed.

Lemma size_t_0_r (a : Z) : size_t (size_t a + 0) = size_t a.
Proof. rewrite Z.add_0_r. unfold size_t. apply Z.mod_mod. lia. Qed.

End MachineFacts.

(** ** The inbound queue of a connection *)

Section ConnectionQueue.

Import SocketConnection.

Lemma MAX_INBUF_eq : MAX_INBUF = 1048576.
Proof. reflexivity. Qed.

Lemma state_eqb_eq (a b : ConnectionState) : state_eqb a b = true ↔ a = b.
Proof. destruct a, b; simpl; split; congruence. Qed.

Lemma state_eqb_neq (a b : ConnectionState) : state_eqb a b = false ↔ a ≠ b.
Proof. destruct a, b; simpl; split; congruence. Qed.

Lemma batch_empty_nil (c : t) : batch_empty c = true ↔ readBatch c = [].
Proof. unfold batch_empty. destruct (readBatch c); split; congruence. Qed.

Lemma batch_size_nonneg (c : t) : 0 <= batch_size c.
Proof. unfold batch_size. lia. Qed.

Lemma batch_size_zero (c : t) : batch_size c = 0 ↔ readBatch c = [].
Proof.
  unfold batch_size. destruct (readBatch c); simpl; split; try congruence; lia.
Qed.

Lemma available_size (c : t) : inbuf_ok c → available c = batch_size c.
Proof.
  unfold inbuf_ok, available. rewrite MAX_INBUF_eq. intros Hc.
  pose proof (batch_size_nonneg c). apply static_cast_int_id. lia.
Qed.

(** What [recv] does once it is past its guard. *)
Lemma recv_copy (c : t) (maxLen : Z) :
  inbuf_ok c → 0 <= maxLen →
  negb (state_eqb (state c) CONNECTED) && batch_empty c = false →
  let n := Z.min (batch_size c) maxLen in
  recv maxLen c
  = (set_readBatch (drop (Z.to_nat n) (readBatch c)) c,
     take (Z.to_nat n) (readBatch c), n).
Proof.
  unfold inbuf_ok. rewrite MAX_INBUF_eq. intros Hc Hlen Hguard. cbv zeta.
  unfold recv. rewrite Hguard.
  pose proof (batch_size_nonneg c).
  rewrite static_cast_int_id by lia. reflexivity.
Qed.

(** C1, as the specification words it, fails: a client connection is
    registered by [Network::connect] before its thread has run the
    handshake, and [recv] on it already gives -1 although it is not
    [CLOSED]. *)
Lemma recv_no_data_before_closed :
  ¬ (∀ (c : t) (maxLen : Z),
       (recv maxLen c).2 = -1 → readBatch c = [] ∧ state c = CLOSED).
Proof.
  intros H.
  destruct (H (connect create) 16 eq_refl) as [_ Hst].
  discriminate Hst.
Qed.

(** C1, amended: [recv(maxLen)] returns -1 exactly when the inbound queue
    is empty and the connection is not [CONNECTED] (that is [INITIAL],
    [CONNECTING] or [CLOSED]), and then changes nothing.  In every other
    case, so whenever bytes are buffered (also after [CLOSED]), it copies
    the first [min(size, maxLen)] bytes of the queue in order, removes
    them from the queue and returns their number; on a [CONNECTED]
    connection with an empty queue it returns 0. *)
Theorem recv_no_data_iff_drained_and_not_connected (c : t) (maxLen : Z) :
  inbuf_ok c → 0 <= maxLen →
  let '(c', out, n) := recv maxLen c in
  (n = -1 ↔ readBatch c = [] ∧ state c ≠ CONNECTED)
  ∧ (n = -1 → c' = c ∧ out = [])
  ∧ (n ≠ -1 →
       n = Z.min (batch_size c) maxLen
       ∧ out = take (Z.to_nat n) (readBatch c)
       ∧ Z.of_nat (length out) = n
       ∧ out ++ readBatch c' = readBatch c
       ∧ c' = set_readBatch (drop (Z.to_nat n) (readBatch c)) c)
  ∧ (readBatch c ≠ [] → n ≠ -1)
  ∧ (state c = CONNECTED → readBatch c = [] → n = 0).
Proof.
  intros Hc Hlen.
  destruct (negb (state_eqb (state c) CONNECTED) && batch_empty c) eqn:Hguard.
  - (* the guard: not CONNECTED and nothing buffered *)
    unfold recv. rewrite Hguard.
    apply andb_true_iff in Hguard as [Hst Hemp].
    apply negb_true_iff, state_eqb_neq in Hst.
    apply batch_empty_nil in Hemp.
    repeat split; try done.
  - rewrite (recv_copy c maxLen Hc Hlen Hguard).
    pose proof (batch_size_nonneg c) as Hsz.
    assert (Hn : 0 <= Z.min (batch_size c) maxLen) by lia.
    assert (Hne : Z.min (batch_size c) maxLen ≠ -1) by lia.
    apply andb_false_iff in Hguard.
    repeat split; try done.
    + intros [Hemp Hst]. destruct Hguard as [Hg | Hg].
      * apply negb_false_iff, state_eqb_eq in Hg. contradiction.
      * apply batch_empty_nil in Hemp. congruence.
    + rewrite length_take. unfold batch_size. lia.
    + simpl. apply take_drop.
    + intros _ Hemp. apply batch_size_zero in Hemp. lia.
Qed.

Lemma recv_no_data_iff_drained_and_not_connected_witness :
  inbuf_ok residual ∧ 0 <= 2
  ∧ ((recv 2 residual).2 ≠ -1 →
     (recv 2 residual).2 = Z.min (batch_size residual) 2
     ∧ (recv 2 residual).1.2 = ["a"; "b"]%byte).
Proof.
  assert (Hc : inbuf_ok residual) by (vm_compute; discriminate).
  assert (Hl : 0 <= 2) by lia.
  split; [exact Hc | split; [exact Hl |]].
  pose proof (recv_no_data_iff_drained_and_not_connected residual 2 Hc Hl) as H.
  destruct (recv 2 residual) as [[c' out] n] eqn:E.
  destruct H as (_ & _ & H & _).
  intros Hn. destruct (H Hn) as (Hmin & Hout & _).
  split; [exact Hmin |].
  simpl. rewrite Hout. injection E as _ _ <-. reflexivity.
Defined.

End ConnectionQueue.

(** ** The bound on the inbound queue *)

Section InboundBound.

Import SocketConnection.

Lemma close_readBatch (d : bool) (c : t) :
  readBatch (close d c) = if d then [] else readBatch c.
Proof.
  destruct c as [up down st th q os]. destruct d, st, th; reflexivity.
Qed.

Lemma close_state (d : bool) (c : t) : state (close d c) = CLOSED.
Proof.
  destruct c as [up down st th q os]. destruct d, st, th; reflexivity.
Qed.

Lemma close_counters (d : bool) (c : t) :
  totalUpload (close d c) = totalUpload c
  ∧ totalDownload (close d c) = totalDownload c.
Proof.
  destruct c as [up down st th q os]. destruct d, st, th; split; reflexivity.
Qed.

(** [send] never touches the inbound queue. *)
Lemma sendLoop_readBatch (len : Z) (env : list SendResult) :
  ∀ (total : Z) (c c' : t) (ret : Z),
    sendLoop len total env c = Some (c', ret) → readBatch c' = readBatch c.
Proof.
  induction env as [| r env IH]; intros total c c' ret; simpl.
  - destruct (total <? len); [discriminate |].
    intros [= <- _]. reflexivity.
  - destruct (total <? len).
    + repeat case_match; try (apply IH);
        intros [= <- _]; apply (close_readBatch false).
    + intros [= <- _]. reflexivity.
Qed.

Lemma send_readBatch (len : Z) (env : list SendResult) (c c' : t) (ret : Z) :
  send len env c = Some (c', ret) → readBatch c' = readBatch c.
Proof.
  unfold send. destruct (negb (state_eqb (state c) CONNECTED)).
  - intros [= <- _]. reflexivity.
  - apply sendLoop_readBatch.
Qed.

(** One turn of the receive loop keeps the bound. *)
Lemma listenBody_inbuf_ok (r : RecvResult) (c : t) :
  inbuf_ok c → inbuf_ok (listenBody r c).1.
Proof.
  unfold inbuf_ok, listenBody, batch_size. rewrite MAX_INBUF_eq. intros Hc.
  set (size := static_cast_int (recv_size r)).
  assert (Hint : - 2 ^ 31 <= size < 2 ^ 31).
  { unfold size, static_cast_int.
    pose proof (Z.mod_pos_bound (recv_size r + 2 ^ 31) (2 ^ 32)). lia. }
  destruct (size =? 0) eqn:H0; [exact Hc |].
  destruct (size <? 0) eqn:Hneg.
  - repeat case_match; exact Hc.
  - apply Z.ltb_ge in Hneg.
    rewrite size_t_id by lia.
    destruct (_ >? _) eqn:Hover; [exact Hc |].
    simpl. rewrite length_app, length_take. lia.
Qed.

Lemma leaveLoop_readBatch (c : t) : readBatch (leaveLoop c) = readBatch c.
Proof. reflexivity. Qed.

Lemma step_inbuf_ok (o : Op) (c : t) : inbuf_ok c → inbuf_ok (step o c).
Proof.
  intros Hc. destruct o; simpl; try exact Hc.
  - (* connectStep *)
    unfold connectStep, connectSocket. repeat case_match; exact Hc.
  - (* listenStep *)
    unfold listenStep.
    pose proof (listenBody_inbuf_ok r c Hc) as Hb.
    repeat case_match; subst; try exact Hc; simpl in Hb; exact Hb.
  - (* recv *)
    unfold recv. case_match; [exact Hc |].
    unfold inbuf_ok, batch_size in *. simpl. rewrite length_drop. lia.
  - (* send *)
    destruct (send length env c) as [[c' ret] |] eqn:E; [| exact Hc].
    unfold inbuf_ok, batch_size in *.
    rewrite (send_readBatch _ _ _ _ _ E). exact Hc.
  - (* close *)
    unfold inbuf_ok, batch_size in *. rewrite close_readBatch.
    destruct discardAll; [simpl; rewrite MAX_INBUF_eq; lia | exact Hc].
Qed.

Lemma run_inbuf_ok (ops : list Op) :
  ∀ c : t, inbuf_ok c → inbuf_ok (run ops c).
Proof.
  induction ops as [| o ops IH]; intros c Hc; [exact Hc |].
  apply IH, step_inbuf_ok, Hc.
Qed.

Lemma create_inbuf_ok : inbuf_ok create.
Proof. unfold inbuf_ok, batch_size. rewrite MAX_INBUF_eq. cbn. lia. Qed.

Lemma listenBody_overflow (r : RecvResult) (c : t) :
  inbuf_ok c → overflows r c → listenBody r c = (c, Break).
Proof.
  unfold inbuf_ok, overflows, listenBody. rewrite MAX_INBUF_eq.
  intros Hc [Hpos Hover].
  set (size := static_cast_int (recv_size r)) in *.
  assert (Hint : size < 2 ^ 31).
  { unfold size, static_cast_int.
    pose proof (Z.mod_pos_bound (recv_size r + 2 ^ 31) (2 ^ 32)). lia. }
  pose proof (batch_size_nonneg c).
  destruct (size =? 0) eqn:H0; [lia |].
  destruct (size <? 0) eqn:Hneg; [lia |].
  rewrite size_t_id by lia.
  destruct (_ >? _) eqn:Hgt; [reflexivity | lia].
Qed.

(** C5: whatever is done to a connection from its construction on, its
    inbound queue never holds more than 2^20 bytes; and a received batch
    that would take the queue past 2^20 bytes makes the receive loop
    stop, which leaves the connection [CLOSED] with the queue and the
    download counter as they were before the batch. *)
Theorem inbound_queue_bounded (ops : list Op) (c : t) (r : RecvResult)
  (rs : list RecvResult) :
  batch_size (run ops create) <= 2 ^ 20
  ∧ (inbuf_ok c → state c = CONNECTED → overflows r c →
     listenLoop (r :: rs) c = (leaveLoop c, true)
     ∧ (thread c = InListen → listenStep r c = leaveLoop c)
     ∧ state (leaveLoop c) = CLOSED
     ∧ readBatch (leaveLoop c) = readBatch c
     ∧ totalDownload (leaveLoop c) = totalDownload c).
Proof.
  split.
  - apply (run_inbuf_ok ops create create_inbuf_ok).
  - intros Hc Hst Hover.
    pose proof (listenBody_overflow r c Hc Hover) as Hb.
    repeat split.
    + simpl. rewrite Hst, Hb. reflexivity.
    + intros Hth. unfold listenStep. rewrite Hth, Hst, Hb. reflexivity.
Qed.

Lemma full_batch_size : batch_size full = MAX_INBUF.
Proof.
  unfold batch_size, full. cbn [readBatch].
  rewrite length_replicate. apply Z2Nat.id. rewrite MAX_INBUF_eq. lia.
Qed.

Lemma inbound_queue_bounded_witness :
  let r := mkRecv 1 0 ["y"%byte] in
  inbuf_ok full ∧ state full = CONNECTED ∧ overflows r full
  ∧ listenLoop [r] full = (leaveLoop full, true)
  ∧ readBatch (leaveLoop full) = readBatch full.
Proof.
  intros r.
  assert (Hc : inbuf_ok full) by (unfold inbuf_ok; rewrite full_batch_size; lia).
  assert (Hst : state full = CONNECTED) by reflexivity.
  assert (Hov : overflows r full).
  { unfold overflows. rewrite full_batch_size, MAX_INBUF_eq.
    change (static_cast_int (recv_size r)) with 1. lia. }
  destruct (inbound_queue_bounded [] full r [] ) as [_ H].
  destruct (H Hc Hst Hov) as (Hloop & _ & _ & Hq & _).
  exact (conj Hc (conj Hst (conj Hov (conj Hloop Hq)))).
Defined.

End InboundBound.

(** ** [send] *)

Section Send.

Import SocketConnection.

Lemma toSend_le (len total : Z) :
  0 <= total <= len → len <= SIZE_MAX → toSend len total <= len - total.
Proof.
  unfold toSend, SIZE_MAX. intros Ht Hl.
  rewrite size_t_id by lia. case_match; lia.
Qed.

Lemma sent_int_cases (r : SendResult) :
  -1 <= sent_int r →
  (fatal r = true ∧ partial r = false)
  ∨ (fatal r = false ∧ partial r = false ∧ retried r = true)
  ∨ (fatal r = false ∧ partial r = true ∧ retried r = false
     ∧ 0 < sent_int r).
Proof.
  unfold fatal, partial, retried, SOCKET_ERROR. intros Hlo.
  destruct (Z.ltb_spec 0 (sent_int r)) as [Hpos | Hnp].
  - right; right.
    rewrite (proj2 (Z.eqb_neq (sent_int r) 0)) by lia.
    rewrite (proj2 (Z.eqb_neq (sent_int r) (-1))) by lia.
    simpl. auto.
  - assert (sent_int r = 0 ∨ sent_int r = -1) as [-> | ->] by lia.
    + left. simpl. auto.
    + simpl.
      destruct ((send_errno r =? EINTR) || (send_errno r =? EAGAIN)
                || (send_errno r =? EWOULDBLOCK)); simpl; auto.
Qed.

Lemma sendLoop_done (len total : Z) (env : list SendResult) (c : t) :
  len <= total →
  sendLoop len total env c
  = Some (set_totalUpload (size_t (totalUpload c + total)) c,
          static_cast_int total).
Proof.
  intros Hge. destruct env; simpl;
    (destruct (total <? len) eqn:Hlt; [lia | reflexivity]).
Qed.

(** One turn of the loop, by the kind of result. *)
Lemma sendLoop_turn (len total : Z) (r : SendResult) (env : list SendResult)
  (c : t) :
  total < len →
  sendLoop len total (r :: env) c
  = if fatal r then Some (close false c, -1)
    else if retried r then sendLoop len total env c
    else sendLoop len (size_t (total + size_t (sent_int r))) env c.
Proof.
  intros Hlt. cbn [sendLoop]. fold (sent_int r).
  destruct (total <? len) eqn:E; [| lia].
  unfold fatal, retried, SOCKET_ERROR.
  destruct (sent_int r =? -1) eqn:H1.
  - assert ((sent_int r =? 0) = false) as -> by lia. simpl.
    destruct (send_errno r =? EINTR); [reflexivity |].
    simpl. destruct ((send_errno r =? EAGAIN) || (send_errno r =? EWOULDBLOCK));
      reflexivity.
  - simpl. rewrite orb_false_r. destruct (sent_int r =? 0); reflexivity.
Qed.

(** The three ways in which the loop of [send] can go. *)
Lemma sendLoop_spec (len : Z) (env : list SendResult) (c : t) :
  len <= SIZE_MAX →
  ∀ total : Z,
    0 <= total <= len → transport_ok len total env →
    match sendLoop len total env c with
    | None => still_sending len total env
    | Some (c', ret) =>
        (c' = close false c ∧ ret = -1 ∧ stops_fatal len total env)
        ∨ (c' = set_totalUpload (size_t (totalUpload c + len)) c
           ∧ ret = static_cast_int len ∧ flushes_all len total env)
    end.
Proof.
  intros Hmax. induction env as [| r env IH]; intros total Ht Hok.
  - simpl. destruct (total <? len) eqn:Hlt.
    + split; [constructor | simpl; lia].
    + right. assert (total = len) as -> by lia.
      repeat split. exists [], []. repeat split; [constructor | simpl; lia].
  - destruct (Z.eq_dec total len) as [-> | Hne].
    { rewrite sendLoop_done by lia. right. repeat split.
      exists [], (r :: env). repeat split; [constructor | simpl; lia]. }
    destruct Hok as [[Hlo Hhi] Hok].
    pose proof (toSend_le len total Ht Hmax) as Hts.
    rewrite sendLoop_turn by lia.
    assert (Hgo : ∀ l, carries_on r = true →
                       Forall (fun x => carries_on x = true) l →
                       Forall (fun x => carries_on x = true) (r :: l))
      by (intros; constructor; assumption).
    destruct (sent_int_cases r Hlo)
      as [[Hf Hp] | [(Hf & Hp & Hr) | (Hf & Hp & Hr & Hpos)]]; rewrite Hf;
      try (assert (Hc : carries_on r = true)
             by (unfold carries_on; rewrite Hp, Hr; reflexivity)).
    + (* a fatal result: close() and -1 *)
      left. repeat split.
      exists [], r, env. repeat split; [constructor | exact Hf | simpl; lia].
    + (* a retry: same offset *)
      rewrite Hp in Hok. rewrite Hr. specialize (IH total Ht Hok).
      destruct (sendLoop len total env c) as [[c' ret] |].
      * destruct IH as [(-> & -> & pre & x & post & -> & Hpre & Hx & Hsum)
                       | (-> & -> & pre & post & -> & Hpre & Hsum)].
        -- left. repeat split. exists (r :: pre), x, post.
           repeat split; [apply Hgo; assumption | exact Hx |].
           simpl. rewrite Hp. exact Hsum.
        -- right. repeat split. exists (r :: pre), post.
           repeat split; [apply Hgo; assumption |].
           simpl. rewrite Hp. exact Hsum.
      * destruct IH as [Hall Hsum]. split; [apply Hgo; assumption |].
        simpl. rewrite Hp. exact Hsum.
    + (* a partial write: the offset moves on *)
      rewrite Hp in Hok. rewrite Hr.
      unfold SIZE_MAX in *.
      rewrite (size_t_id (sent_int r)) by lia.
      rewrite size_t_id by lia.
      assert (Ht' : 0 <= total + sent_int r <= len) by lia.
      specialize (IH _ Ht' Hok).
      destruct (sendLoop len (total + sent_int r) env c) as [[c' ret] |].
      * destruct IH as [(-> & -> & pre & x & post & -> & Hpre & Hx & Hsum)
                       | (-> & -> & pre & post & -> & Hpre & Hsum)].
        -- left. repeat split. exists (r :: pre), x, post.
           repeat split; [apply Hgo; assumption | exact Hx |].
           simpl. rewrite Hp. lia.
        -- right. repeat split. exists (r :: pre), post.
           repeat split; [apply Hgo; assumption |].
           simpl. rewrite Hp. lia.
      * destruct IH as [Hall Hsum]. split; [apply Hgo; assumption |].
        simpl. rewrite Hp. lia.
Qed.

Lemma flushed_nonneg (env : list SendResult) : 0 <= flushed env.
Proof.
  induction env as [| r env IH]; simpl; [lia |].
  unfold partial at 1. destruct (Z.ltb_spec 0 (sent_int r)); lia.
Qed.

Lemma carries_on_not_fatal (r : SendResult) :
  carries_on r = true → fatal r = false.
Proof.
  unfold carries_on, fatal, retried, partial, SOCKET_ERROR.
  destruct (sent_int r =? 0) eqn:H0, (sent_int r =? -1) eqn:H1,
    (0 <? sent_int r) eqn:Hp; simpl; try lia; try discriminate;
    try reflexivity;
    destruct ((send_errno r =? EINTR) || (send_errno r =? EAGAIN)
              || (send_errno r =? EWOULDBLOCK)); simpl; congruence.
Qed.

(** A turn that carries on, with the new offset. *)
Lemma sendLoop_carry (len total : Z) (r : SendResult) (env : list SendResult)
  (c : t) :
  0 <= total < len → len <= SIZE_MAX → carries_on r = true →
  total + (if partial r then sent_int r else 0) <= len →
  sendLoop len total (r :: env) c
  = sendLoop len (total + (if partial r then sent_int r else 0)) env c.
Proof.
  intros Ht Hmax Hgo Hsum. rewrite sendLoop_turn by lia.
  rewrite (carries_on_not_fatal r Hgo).
  unfold carries_on in Hgo. destruct (retried r) eqn:Hr.
  - assert (partial r = false) as ->.
    { unfold retried, partial, SOCKET_ERROR in *.
      apply andb_true_iff in Hr as [Hr _]. lia. }
    rewrite Z.add_0_r. reflexivity.
  - simpl in Hgo. rewrite Hgo in *. unfold partial, SIZE_MAX in *.
    rewrite (size_t_id (sent_int r)) by lia.
    rewrite size_t_id by lia. reflexivity.
Qed.

(** A fatal result met before the last byte is out ends the call with
    [close()] and -1. *)
Lemma sendLoop_fatal (len : Z) (pre : list SendResult) (r : SendResult)
  (post : list SendResult) (c : t) :
  len <= SIZE_MAX → Forall (fun x => carries_on x = true) pre →
  fatal r = true →
  ∀ total : Z,
    0 <= total → total + flushed pre < len →
    sendLoop len total (pre ++ r :: post) c = Some (close false c, -1).
Proof.
  intros Hmax Hpre Hf. induction Hpre as [| x pre Hx Hpre IH];
    intros total Ht Hsum.
  - simpl in Hsum. rewrite app_nil_l, sendLoop_turn by lia.
    rewrite Hf. reflexivity.
  - simpl in Hsum. pose proof (flushed_nonneg pre) as Hnn.
    assert (Hstep : 0 <= (if partial x then sent_int x else 0)).
    { unfold partial. destruct (Z.ltb_spec 0 (sent_int x)); lia. }
    rewrite <- app_comm_cons, sendLoop_carry;
      [| destruct (partial x); lia | exact Hmax | exact Hx
       | destruct (partial x); lia].
    apply IH; destruct (partial x); lia.
Qed.

(** Once the writes that carry on add up to [len], the call returns the
    count and books it. *)
Lemma sendLoop_flush (len : Z) (pre post : list SendResult) (c : t) :
  len <= SIZE_MAX → Forall (fun x => carries_on x = true) pre →
  ∀ total : Z,
    0 <= total → total + flushed pre = len →
    sendLoop len total (pre ++ post) c
    = Some (set_totalUpload (size_t (totalUpload c + len)) c,
            static_cast_int len).
Proof.
  intros Hmax Hpre. induction Hpre as [| x pre Hx Hpre IH];
    intros total Ht Hsum.
  - simpl in Hsum. rewrite Z.add_0_r in Hsum. subst total.
    apply sendLoop_done. lia.
  - simpl in Hsum. pose proof (flushed_nonneg pre) as Hnn.
    destruct (Z.eq_dec total len) as [-> | Hne].
    { apply sendLoop_done. lia. }
    assert (Hstep : 0 <= (if partial x then sent_int x else 0)).
    { unfold partial. destruct (Z.ltb_spec 0 (sent_int x)); lia. }
    rewrite <- app_comm_cons, sendLoop_carry;
      [| destruct (partial x); lia | exact Hmax | exact Hx
       | destruct (partial x); lia].
    apply IH; destruct (partial x); lia.
Qed.

(** C6, as worded, fails on the returned count: [send] returns an [int],
    so for a buffer of 2^31 bytes that the transport takes whole (in two
    writes) the call books 2^31 bytes of upload and returns -2^31, which
    is neither -1 nor [len]. *)
Lemma send_count_does_not_fit_int :
  ¬ (∀ (len : Z) (env : list SendResult) (c c' : t) (ret : Z),
       0 <= len <= SIZE_MAX → transport_ok len 0 env →
       state c = CONNECTED → send len env c = Some (c', ret) →
       ret = -1 ∨ ret = len).
Proof.
  intros H.
  specialize (H (2 ^ 31) [mkSend (2 ^ 31 - 4096) 0; mkSend 4096 0]
                (startClient create)
                (set_totalUpload (2 ^ 31) (startClient create))
                (- 2 ^ 31)).
  destruct H as [H | H]; try discriminate H; try reflexivity.
  - unfold SIZE_MAX. lia.
  - vm_compute. intuition discriminate.
Qed.

(** C6, amended in the returned count only: [send(buf, len)] returns -1
    at once, changing nothing, when the state is not [CONNECTED].
    Otherwise it goes through the transport writes, trying again after
    an interrupted or would-block result, and ends in one of two ways:
    on a fatal result (a zero-byte write, or a failed write with any
    other error such as peer reset or broken pipe) met before the last
    byte is out, it invokes [close()], leaves the upload counter as it
    was and returns -1; with all [len] bytes out, it adds exactly [len]
    to the upload counter, leaves the state [CONNECTED] and returns
    [len] converted to [int], which is [len] whenever [len <= 2^31-1].
    The call has not returned only while every result so far was a retry
    or a partial write short of [len]. *)
Theorem send_all_or_nothing (len : Z) (env : list SendResult) (c : t) :
  0 <= len <= SIZE_MAX → transport_ok len 0 env →
  (state c ≠ CONNECTED → send len env c = Some (c, -1))
  ∧ (state c = CONNECTED →
     match send len env c with
     | None => still_sending len 0 env
     | Some (c', ret) =>
         (stops_fatal len 0 env
          ∧ c' = close false c ∧ ret = -1
          ∧ state c' = CLOSED ∧ totalUpload c' = totalUpload c)
         ∨ (flushes_all len 0 env
            ∧ c' = set_totalUpload (size_t (totalUpload c + len)) c
            ∧ state c' = CONNECTED
            ∧ ret = static_cast_int len
            ∧ (len <= INT_MAX → ret = len))
     end)
  ∧ (state c = CONNECTED → stops_fatal len 0 env →
     send len env c = Some (close false c, -1))
  ∧ (state c = CONNECTED → flushes_all len 0 env →
     send len env c
     = Some (set_totalUpload (size_t (totalUpload c + len)) c,
             static_cast_int len)).
Proof.
  intros Hlen Hok. unfold send. repeat split.
  - intros Hst. apply state_eqb_neq in Hst. rewrite Hst. reflexivity.
  - intros Hst. rewrite (proj2 (state_eqb_eq _ _) Hst). simpl.
    pose proof (sendLoop_spec len env c (proj2 Hlen) 0
                  (conj (Z.le_refl 0) (proj1 Hlen)) Hok) as H.
    destruct (sendLoop len 0 env c) as [[c' ret] |]; [| exact H].
    destruct H as [(-> & -> & Hfatal) | (-> & -> & Hall)].
    + left. repeat split; [exact Hfatal | apply close_state |].
      apply (close_counters false c).
    + right. repeat split; [exact Hall | exact Hst |].
      intros Hint. apply static_cast_int_id. unfold INT_MAX in Hint. lia.
  - intros Hst (pre & r & post & -> & Hpre & Hf & Hsum).
    rewrite (proj2 (state_eqb_eq _ _) Hst). simpl.
    apply sendLoop_fatal; try assumption; lia.
  - intros Hst (pre & post & -> & Hpre & Hsum).
    rewrite (proj2 (state_eqb_eq _ _) Hst). simpl.
    apply sendLoop_flush; try assumption; lia.
Qed.

Lemma send_all_or_nothing_witness :
  0 <= 5 <= SIZE_MAX ∧ transport_ok 5 0 five_bytes
  ∧ send 5 five_bytes (startClient create)
    = Some (set_totalUpload 5 (startClient create), 5).
Proof.
  assert (Hlen : 0 <= 5 <= SIZE_MAX) by (unfold SIZE_MAX; lia).
  assert (Hok : transport_ok 5 0 five_bytes)
    by (vm_compute; intuition discriminate).
  split; [exact Hlen | split; [exact Hok |]].
  destruct (send_all_or_nothing 5 five_bytes (startClient create) Hlen Hok)
    as (_ & _ & _ & H).
  apply H; [reflexivity |].
  exists five_bytes, []. repeat split.
  repeat constructor.
Defined.

End Send.

(** ** The sweep of [Network::update] *)

Section Sweep.

Import SocketConnection Registry.

Lemma pulls_drain (c : t) :
  (pullUpload (pullDownload c).1).1 = drained c
  ∧ (pullDownload c).2 = totalDownload c
  ∧ (pullUpload (pullDownload c).1).2 = totalUpload c.
Proof. repeat split. Qed.

(** One turn of the first loop. *)
Lemma sweepConnections_cons (id : Z) (c : t) (rest : list (Z * t))
  (n : Network.t) :
  Network.sweepConnections ((id, c) :: rest) n
  = Network.sweepConnections rest
      (Network.mk (Network.requests n)
         (match swept c with
          | Some c' => <[id := c']> (Network.connections n)
          | None => delete id (Network.connections n)
          end)
         (Network.servers n) (Network.nextConnection n) (Network.nextServer n)
         (size_t (Network.totalUpload n + totalUpload c))
         (size_t (Network.totalDownload n + totalDownload c))).
Proof.
  cbn [Network.sweepConnections]. unfold swept, reclaimed.
  destruct c as [up down st th q os]. cbn.
  destruct (_ && _); reflexivity.
Qed.

Lemma sweepConnections_lookup (es : list (Z * t)) :
  ∀ (n : Network.t) (id : Z),
    NoDup es.*1 →
    Network.connections (Network.sweepConnections es n) !! id
    = match (list_to_map es : gmap Z t) !! id with
      | Some c => swept c
      | None => Network.connections n !! id
      end.
Proof.
  induction es as [| [k c] es IH]; intros n id Hnd; [reflexivity |].
  apply NoDup_cons in Hnd as [Hk Hnd].
  rewrite sweepConnections_cons, IH by exact Hnd. cbn [Network.connections].
  rewrite list_to_map_cons.
  destruct (decide (k = id)) as [-> | Hne].
  - rewrite lookup_insert_eq, (not_elem_of_list_to_map_1 es id Hk).
    destruct (swept c); [apply lookup_insert_eq | apply lookup_delete_eq].
  - rewrite lookup_insert_ne by exact Hne.
    destruct (list_to_map es !! id); [reflexivity |].
    destruct (swept c);
      [apply lookup_insert_ne | apply lookup_delete_ne]; exact Hne.
Qed.

Lemma sweepConnections_totals (es : list (Z * t)) :
  ∀ n : Network.t,
    totals_ok n →
    Network.totalUpload (Network.sweepConnections es n)
    = size_t (Network.totalUpload n + pendingUpload es)
    ∧ Network.totalDownload (Network.sweepConnections es n)
      = size_t (Network.totalDownload n + pendingDownload es).
Proof.
  induction es as [| [k c] es IH]; intros n [Hup Hdown].
  - simpl. rewrite !Z.add_0_r, !size_t_id by assumption. split; reflexivity.
  - rewrite sweepConnections_cons.
    edestruct IH as [-> ->].
    { split; cbn [Network.totalUpload Network.totalDownload];
        apply size_t_range. }
    cbn [Network.totalUpload Network.totalDownload pendingUpload
         pendingDownload foldr snd].
    rewrite !size_t_add_l, !Z.add_assoc. split; reflexivity.
Qed.

Lemma sweepConnections_rest (es : list (Z * t)) :
  ∀ n : Network.t,
    Network.requests (Network.sweepConnections es n) = Network.requests n
    ∧ Network.servers (Network.sweepConnections es n) = Network.servers n.
Proof.
  induction es as [| [k c] es IH]; intros n; [split; reflexivity |].
  rewrite sweepConnections_cons. destruct (IH
    (Network.mk (Network.requests n)
       (match swept c with
        | Some c' => <[k := c']> (Network.connections n)
        | None => delete k (Network.connections n)
        end)
       (Network.servers n) (Network.nextConnection n) (Network.nextServer n)
       (size_t (Network.totalUpload n + totalUpload c))
       (size_t (Network.totalDownload n + totalDownload c)))) as [-> ->].
  split; reflexivity.
Qed.

(** The second loop leaves the connections and the totals alone. *)
Lemma sweepServers_keeps (es : list (Z * SocketTcpSServer.t)) :
  ∀ n : Network.t,
    Network.connections (Network.sweepServers es n) = Network.connections n
    ∧ Network.totalUpload (Network.sweepServers es n) = Network.totalUpload n
    ∧ Network.totalDownload (Network.sweepServers es n)
      = Network.totalDownload n
    ∧ Network.requests (Network.sweepServers es n) = Network.requests n.
Proof.
  induction es as [| [k srv] es IH]; intros n; [repeat split |].
  cbn [Network.sweepServers]. destruct (negb _); [| apply IH].
  destruct (IH (Network.set_servers (delete k (Network.servers n)) n))
    as (-> & -> & -> & ->).
  repeat split.
Qed.

(** The registry after [update()]: each connection is found drained under
    its id, or gone when it was reclaimed; no id appears. *)
Lemma update_lookup (e : CurlRequests.UpdateEnv) (n : Network.t) (id : Z) :
  Network.getConnection id (Network.update e n).1
  = Network.getConnection id n ≫= swept.
Proof.
  unfold Network.update, Network.getConnection.
  destruct (CurlRequests.update e (Network.requests n)) as [r acts].
  cbn [fst].
  rewrite (proj1 (sweepServers_keeps _ _)).
  rewrite sweepConnections_lookup by apply NoDup_fst_map_to_list.
  cbn [Network.set_requests Network.connections].
  rewrite list_to_map_to_list.
  destruct (Network.connections n !! id); reflexivity.
Qed.

(** The totals after [update()]. *)
Lemma update_totals (e : CurlRequests.UpdateEnv) (n : Network.t) :
  totals_ok n →
  Network.totalUpload (Network.update e n).1
  = size_t (Network.totalUpload n
            + pendingUpload (map_to_list (Network.connections n)))
  ∧ Network.totalDownload (Network.update e n).1
    = size_t (Network.totalDownload n
              + pendingDownload (map_to_list (Network.connections n))).
Proof.
  intros Hn. unfold Network.update.
  destruct (CurlRequests.update e (Network.requests n)) as [r acts].
  cbn [fst].
  destruct (sweepServers_keeps
              (map_to_list
                 (Network.servers
                    (Network.sweepConnections
                       (map_to_list
                          (Network.connections (Network.set_requests r n)))
                       (Network.set_requests r n))))
              (Network.sweepConnections
                 (map_to_list (Network.connections (Network.set_requests r n)))
                 (Network.set_requests r n))) as (_ & -> & -> & _).
  apply (sweepConnections_totals _ (Network.set_requests r n)). exact Hn.
Qed.

Lemma update_totals_ok (e : CurlRequests.UpdateEnv) (n : Network.t) :
  totals_ok n → totals_ok (Network.update e n).1.
Proof.
  intros Hn. destruct (update_totals e n Hn) as [Hu Hd].
  split; [rewrite Hu | rewrite Hd]; apply size_t_range.
Qed.

End Sweep.

(** ** Deferred removal, drains and [close] *)

Section Reclaim.

Import SocketConnection Registry.

Lemma reclaimed_drained (c : t) :
  inbuf_ok c →
  reclaimed (drained c) = true ↔ state c = CLOSED ∧ readBatch c = [].
Proof.
  intros Hc. unfold reclaimed, getState.
  change (available (drained c)) with (available c).
  change (state (drained c)) with (state c).
  rewrite (available_size c Hc), andb_true_iff, Z.eqb_eq, state_eqb_eq,
    batch_size_zero.
  tauto.
Qed.

Lemma swept_None (c : t) :
  inbuf_ok c → swept c = None ↔ state c = CLOSED ∧ readBatch c = [].
Proof.
  intros Hc. rewrite <- (reclaimed_drained c Hc). unfold swept.
  destruct (reclaimed (drained c)); split; congruence.
Qed.

Lemma swept_Some (c c' : t) : swept c = Some c' → c' = drained c.
Proof. unfold swept. destruct (reclaimed (drained c)); congruence. Qed.

(** When no receive thread takes a turn while [update()] runs, it takes
    a connection out of the registry exactly when it is [CLOSED] and its
    inbound queue is empty.  A connection that is [CLOSED] with bytes
    still buffered stays under its id, its queue untouched, so that
    [recv] through the id still hands out those bytes; and [update()]
    registers nothing. *)
Theorem removed_only_when_closed_and_drained
  (e : CurlRequests.UpdateEnv) (n : Network.t) (id : Z) (c : t) (maxLen : Z) :
  Network.getConnection id n = Some c → inbuf_ok c → 0 < maxLen →
  let n' := (Network.update e n).1 in
  (Network.getConnection id n' = None ↔ state c = CLOSED ∧ available c = 0)
  ∧ (available c = 0 ↔ readBatch c = [])
  ∧ (Network.getConnection id n' ≠ None →
     Network.getConnection id n' = Some (drained c))
  ∧ (state c = CLOSED → readBatch c ≠ [] →
     ∃ c', Network.getConnection id n' = Some c'
           ∧ state c' = CLOSED
           ∧ readBatch c' = readBatch c
           ∧ (recv maxLen c').2 = Z.min (batch_size c) maxLen
           ∧ (recv maxLen c').1.2
             = take (Z.to_nat (Z.min (batch_size c) maxLen)) (readBatch c)
           ∧ 0 < (recv maxLen c').2)
  ∧ (∀ id', Network.getConnection id' n = None →
            Network.getConnection id' n' = None).
Proof.
  intros Hreg Hc Hlen n'. unfold n'.
  assert (Hav : available c = 0 ↔ readBatch c = []).
  { rewrite (available_size c Hc). apply batch_size_zero. }
  rewrite update_lookup, Hreg. cbn [mbind option_bind].
  split; [| split; [exact Hav | split; [| split]]].
  - rewrite Hav. apply (swept_None c Hc).
  - intros Hsome. destruct (swept c) as [c' |] eqn:Hs; [| contradiction].
    rewrite (swept_Some c c' Hs). reflexivity.
  - intros Hst Hq.
    assert (Hs : swept c = Some (drained c)).
    { destruct (swept c) as [c' |] eqn:Hs.
      - rewrite (swept_Some c c' Hs). reflexivity.
      - apply (swept_None c Hc) in Hs. tauto. }
    exists (drained c). split; [exact Hs | split; [exact Hst | split]];
      [reflexivity |].
    assert (Hguard : negb (state_eqb (state (drained c)) CONNECTED)
                     && batch_empty (drained c) = false).
    { apply andb_false_iff. right. unfold batch_empty.
      change (readBatch (drained c)) with (readBatch c).
      destruct (readBatch c); congruence. }
    rewrite (recv_copy (drained c) maxLen Hc ltac:(lia) Hguard).
    cbn [fst snd]. change (batch_size (drained c)) with (batch_size c).
    split; [reflexivity | split; [reflexivity |]].
    assert (batch_size c ≠ 0) by (rewrite batch_size_zero; exact Hq).
    pose proof (batch_size_nonneg c). lia.
  - intros id' Hnone. rewrite update_lookup, Hnone. reflexivity.
Qed.

Lemma removed_only_when_closed_and_drained_witness :
  Network.getConnection 7 lingering = Some residual
  ∧ inbuf_ok residual ∧ 0 < 2
  ∧ ∃ c', Network.getConnection 7 (Network.update quiet lingering).1 = Some c'
          ∧ (recv 2 c').1.2 = ["a"; "b"]%byte.
Proof.
  assert (Hreg : Network.getConnection 7 lingering = Some residual)
    by reflexivity.
  assert (Hc : inbuf_ok residual) by (vm_compute; discriminate).
  assert (Hl : 0 < 2) by lia.
  split; [exact Hreg | split; [exact Hc | split; [exact Hl |]]].
  destruct (removed_only_when_closed_and_drained quiet lingering 7 residual 2
              Hreg Hc Hl) as (_ & _ & _ & H & _).
  destruct H as (c' & Hget & _ & _ & _ & Hout & _);
    [reflexivity | discriminate |].
  exists c'. split; [exact Hget |]. rewrite Hout. reflexivity.
Defined.

Lemma pending_zero (es : list (Z * t)) :
  Forall (fun x => totalUpload x.2 = 0 ∧ totalDownload x.2 = 0) es →
  pendingUpload es = 0 ∧ pendingDownload es = 0.
Proof.
  induction 1 as [| [k c] es [Hu Hd] _ [IHu IHd]]; [split; reflexivity |].
  unfold pendingUpload, pendingDownload in *. simpl in *.
  rewrite IHu, IHd, Hu, Hd. split; reflexivity.
Qed.

(** After [update()] every connection still registered has both counters
    at zero. *)
Lemma update_drains (e : CurlRequests.UpdateEnv) (n : Network.t) :
  Forall (fun x => totalUpload x.2 = 0 ∧ totalDownload x.2 = 0)
    (map_to_list (Network.connections (Network.update e n).1)).
Proof.
  apply Forall_forall. intros [id c'] Hin.
  apply elem_of_map_to_list in Hin.
  change (Network.getConnection id (Network.update e n).1 = Some c') in Hin.
  rewrite update_lookup in Hin.
  destruct (Network.getConnection id n) as [c |]; [| discriminate].
  cbn in Hin. rewrite (swept_Some c c' Hin). split; reflexivity.
Qed.

(** With no access of the receive thread between the read and the
    write of a pull: [pullUpload()] and [pullDownload()] return the
    counter and leave it at zero, so a pull made right after another
    returns 0; what a pull returns is what was booked since the pull
    before it (the length of a buffer sent whole, the size of a batch
    received).  [Network::update()] adds to the totals of the facade the
    counters of the registered connections, taken through these two
    pulls, and an [update()] made right after another adds nothing. *)
Theorem counters_drain_and_reset
  (c : t) (len : Z) (env : list SendResult) (r : RecvResult)
  (e e' : CurlRequests.UpdateEnv) (n : Network.t) :
  0 <= len <= SIZE_MAX → totals_ok n →
  (pullUpload c = (set_totalUpload 0 c, totalUpload c)
   ∧ pullUpload (pullUpload c).1 = ((pullUpload c).1, 0)
   ∧ pullDownload c = (set_totalDownload 0 c, totalDownload c)
   ∧ pullDownload (pullDownload c).1 = ((pullDownload c).1, 0))
  ∧ (state c = CONNECTED → flushes_all len 0 env →
     ∃ c' ret, send len env (pullUpload c).1 = Some (c', ret)
               ∧ (pullUpload c').2 = len)
  ∧ (∀ c', listenBody r (pullDownload c).1 = (c', Continue) →
           0 < static_cast_int (recv_size r) →
           (pullDownload c').2 = static_cast_int (recv_size r))
  ∧ (Network.totalUpload (Network.update e n).1
     = size_t (Network.totalUpload n
               + pendingUpload (map_to_list (Network.connections n)))
     ∧ Network.totalDownload (Network.update e n).1
       = size_t (Network.totalDownload n
                 + pendingDownload (map_to_list (Network.connections n))))
  ∧ (Network.totalUpload (Network.update e' (Network.update e n).1).1
     = Network.totalUpload (Network.update e n).1
     ∧ Network.totalDownload (Network.update e' (Network.update e n).1).1
       = Network.totalDownload (Network.update e n).1).
Proof.
  intros Hlen Hn.
  split; [repeat split |]. split; [| split; [| split]].
  - intros Hst Hall.
    exists (set_totalUpload (size_t (0 + len)) (pullUpload c).1),
      (static_cast_int len).
    split.
    + unfold send. change (state (pullUpload c).1) with (state c).
      rewrite (proj2 (state_eqb_eq _ _) Hst). cbn [negb].
      destruct Hall as (pre & post & -> & Hpre & Hsum).
      apply (sendLoop_flush len pre post (pullUpload c).1);
        [lia | exact Hpre | lia | exact Hsum].
    + cbn. apply size_t_id. unfold SIZE_MAX in Hlen. lia.
  - intros c' Hbody Hpos.
    set (size := static_cast_int (recv_size r)) in *.
    assert (Hint : size < 2 ^ 31).
    { unfold size, static_cast_int.
      pose proof (Z.mod_pos_bound (recv_size r + 2 ^ 31) (2 ^ 32)). lia. }
    unfold listenBody in Hbody. fold size in Hbody.
    destruct (size =? 0) eqn:H0; [discriminate |].
    destruct (size <? 0) eqn:Hneg; [lia |].
    destruct (_ >? _); [discriminate |].
    injection Hbody as <-. cbn. apply size_t_id. lia.
  - apply update_totals, Hn.
  - pose proof (update_totals_ok e n Hn) as Hn'.
    destruct (update_totals e' _ Hn') as [-> ->].
    destruct (pending_zero _ (update_drains e n)) as [-> ->].
    destruct Hn' as [Hu Hd].
    rewrite !Z.add_0_r, !size_t_id by assumption. split; reflexivity.
Qed.

Lemma counters_drain_and_reset_witness :
  0 <= 5 <= SIZE_MAX ∧ totals_ok busy
  ∧ Network.totalUpload (Network.update quiet busy).1 = 5
  ∧ Network.totalDownload (Network.update quiet busy).1 = 3
  ∧ Network.totalUpload
      (Network.update quiet (Network.update quiet busy).1).1 = 5.
Proof.
  assert (Hlen : 0 <= 5 <= SIZE_MAX) by (unfold SIZE_MAX; lia).
  assert (Hn : totals_ok busy) by (unfold totals_ok; cbn; lia).
  destruct (counters_drain_and_reset create 5 [] (mkRecv 0 0 []) quiet quiet
              busy Hlen Hn) as (_ & _ & _ & [Hu Hd] & [Hu' _]).
  assert (Hmap : map_to_list (Network.connections busy)
                 = [(7, mk 5 3 CONNECTED InListen ["a"; "b"; "c"]%byte [])])
    by apply map_to_list_singleton.
  rewrite Hmap in Hu, Hd.
  split; [exact Hlen | split; [exact Hn |]].
  rewrite Hu', Hu, Hd. repeat split.
Defined.

End Reclaim.

(** ** The receive threads during [update()] *)

Section Threads.

Import SocketConnection Registry Interleaving.

(** The two accesses of [pullDownload()], one right after the other,
    are the call. *)
Lemma accesses_pull (k : Counter) :
  accesses [PullRead; PullWrite] k
  = mkCounter (pullDownload (connection k)).1 (held k)
      (pullDownload (connection k)).2
      (returned k ++ [(pullDownload (connection k)).2]).
Proof. reflexivity. Qed.

(** The two accesses of [totalDownload += size], one right after the
    other, book [size] bytes as a turn of the receive loop does. *)
Lemma accesses_book (r : RecvResult) (c c' : t) (k : Counter) :
  connection k = c → listenBody r c = (c', Continue) →
  0 < static_cast_int (recv_size r) →
  totalDownload
    (connection
       (accesses [BookRead; BookWrite (static_cast_int (recv_size r))] k))
  = totalDownload c'.
Proof.
  intros <- Hbody Hpos. unfold listenBody in Hbody.
  destruct (static_cast_int (recv_size r) =? 0) eqn:H0;
    [apply Z.eqb_eq in H0; lia |].
  destruct (static_cast_int (recv_size r) <? 0) eqn:Hneg;
    [apply Z.ltb_lt in Hneg; lia |].
  destruct (_ >? _); [discriminate |].
  injection Hbody as <-. reflexivity.
Qed.

(** Without turns of the receive threads, the loop is the one of
    [Network]. *)
Lemma sweepConnections_no_turns (es : list (Z * t)) :
  ∀ n : Network.t,
    Interleaving.sweepConnections (fun _ => no_turns) es n
    = Network.sweepConnections es n.
Proof.
  induction es as [| [id c] es IH]; intros n; [reflexivity |].
  cbn [Interleaving.sweepConnections Network.sweepConnections no_turns
       before_pullDownload before_pullUpload before_available
       before_getState turns foldl pullDownload pullUpload].
  destruct (available _ =? 0); cbn [andb]; [| apply IH].
  destruct (state_eqb _ CLOSED); apply IH.
Qed.

Lemma update_no_turns (e : CurlRequests.UpdateEnv) (n : Network.t) :
  Interleaving.update (fun _ => no_turns) e n = Network.update e n.
Proof.
  unfold Interleaving.update, Network.update.
  destruct (CurlRequests.update e (Network.requests n)) as [r acts].
  rewrite sweepConnections_no_turns. reflexivity.
Qed.

(** C4 fails on the code.  [update()] reads [available()] and then
    [getState()], and the receive thread can take turns between the two
    calls: here the connection under id 7 is [CONNECTED] with nothing
    buffered when [available()] is read; its peer then sends three bytes
    and closes, so that it is [CLOSED] with three bytes buffered when
    [getState()] is read; and [update()] erases it.  At no moment was it
    [CLOSED] with an empty queue.  With no turn in between the same
    [update()] keeps it. *)
Theorem erased_with_bytes_buffered :
  Network.getConnection 7 attended = Some waiting7
  ∧ (available waiting7 = 0 ∧ getState waiting7 = CONNECTED)
  ∧ (available (turns (take 1 last_words) waiting7) = 3
     ∧ getState (turns (take 1 last_words) waiting7) = CONNECTED)
  ∧ (available (turns last_words waiting7) = 3
     ∧ getState (turns last_words waiting7) = CLOSED
     ∧ readBatch (turns last_words waiting7) = ["a"; "b"; "c"]%byte)
  ∧ Network.getConnection 7 (Interleaving.update in_between quiet attended).1
    = None
  ∧ Network.getConnection 7
      (Interleaving.update (fun _ => no_turns) quiet attended).1
    = Some waiting7.
Proof.
  split; [reflexivity |].
  split; [split; reflexivity |].
  split; [split; vm_compute; reflexivity |].
  split; [split; [| split]; vm_compute; reflexivity |].
  split; vm_compute; reflexivity.
Qed.

(** C7 fails on the code.  [pullDownload()] reads and zeroes
    [totalDownload] without the lock under which the receive loop does
    [totalDownload += size]: with a pull between the read and the write
    of the booking of a batch of five bytes, on a connection that had
    booked three, that pull returns 3 and the next one 8, so that the
    first three bytes are reported by two consecutive drains and
    [update()] adds 11 to its total for the 8 bytes received.  With the
    booking before or after the first pull the two drains return 8 and
    0, or 3 and 5. *)
Theorem pull_amid_booking_reports_twice :
  totalDownload (connection booked3) = 3
  ∧ returned (accesses torn booked3) = [3; 8]
  ∧ added 0 (returned (accesses torn booked3)) = 11
  ∧ returned (accesses booked_first booked3) = [8; 0]
  ∧ returned (accesses pulled_first booked3) = [3; 5]
  ∧ added 0 (returned (accesses booked_first booked3)) = 8
  ∧ added 0 (returned (accesses pulled_first booked3)) = 8.
Proof. repeat split; vm_compute; reflexivity. Qed.

End Threads.

(** ** [close] *)

Section Close.

Import SocketConnection Registry.

(** [close] on a connection that is [CLOSED] already: only the queue can
    change. *)
Lemma close_closed (d : bool) (c : t) :
  state c = CLOSED → close d c = if d then set_readBatch [] c else c.
Proof.
  destruct c as [up down st th q os]. simpl. intros ->.
  destruct d; reflexivity.
Qed.

Lemma recv_state (maxLen : Z) (c : t) : state (recv maxLen c).1.1 = state c.
Proof. unfold recv. case_match; reflexivity. Qed.

Lemma send_closed (len : Z) (env : list SendResult) (c : t) :
  state c = CLOSED → send len env c = Some (c, -1).
Proof. unfold send. intros ->. reflexivity. Qed.

Lemma listenStep_closed (r : RecvResult) (c : t) :
  state c = CLOSED → state (listenStep r c) = CLOSED.
Proof.
  unfold listenStep. intros Hst. rewrite Hst.
  destruct (thread c); simpl; assumption || reflexivity.
Qed.

(** No call that a living connection receives takes it out of
    [CLOSED]. *)
Lemma step_closed (o : Op) (c : t) :
  starting o = false → state c = CLOSED → state (step o c) = CLOSED.
Proof.
  intros Ho Hst. destruct o; try discriminate Ho; simpl; try exact Hst.
  - apply listenStep_closed, Hst.
  - rewrite recv_state. exact Hst.
  - rewrite (send_closed _ _ _ Hst). exact Hst.
  - apply close_state.
Qed.

Lemma run_closed (ops : list Op) :
  Forall (fun o => starting o = false) ops →
  ∀ c : t, state c = CLOSED → state (run ops c) = CLOSED.
Proof.
  induction 1 as [| o ops Ho _ IH]; intros c Hst; [exact Hst |].
  apply IH, step_closed; assumption.
Qed.

(** [closeSocket] on a listener that is closed already. *)
Lemma closeSocket_closed (srv : SocketTcpSServer.t)
  (conns : gmap Z SocketConnection.t) :
  SocketTcpSServer.open srv = false →
  SocketTcpSServer.closeSocket srv conns = (srv, conns).
Proof. unfold SocketTcpSServer.closeSocket. intros ->. reflexivity. Qed.

Lemma closeSocket_open (srv : SocketTcpSServer.t)
  (conns : gmap Z SocketConnection.t) :
  SocketTcpSServer.open (SocketTcpSServer.closeSocket srv conns).1 = false.
Proof.
  unfold SocketTcpSServer.closeSocket.
  destruct (SocketTcpSServer.open srv) eqn:Ho; simpl; [reflexivity | exact Ho].
Qed.

(** C8: the first [close()] of a connection leaves it [CLOSED]; a further
    [close()] changes nothing at all (no second release of the transport,
    no second join), and a further [close(true)] changes nothing but the
    queue, which it empties.  Once [CLOSED], a connection stays [CLOSED]
    under every call it can still receive ([recv], [send], [available],
    [close], the pulls, the turns of its receive thread).  The first
    [close()] of a listener flips its open flag, and a further one
    changes neither the listener nor any connection. *)
Theorem close_idempotent
  (d d' : bool) (c : t) (ops : list Op)
  (srv : SocketTcpSServer.t) (conns : gmap Z SocketConnection.t) :
  Forall (fun o => starting o = false) ops →
  (state (close d c) = CLOSED
   ∧ close false (close d c) = close d c
   ∧ close d' (close d c)
     = (if d' then set_readBatch [] (close d c) else close d c)
   ∧ oscalls (close d' (close d c)) = oscalls (close d c)
   ∧ thread (close d' (close d c)) = thread (close d c))
  ∧ state (run ops (close d c)) = CLOSED
  ∧ (let '(srv1, conns1) := SocketTcpSServer.closeSocket srv conns in
     SocketTcpSServer.isOpen srv1 = false
     ∧ SocketTcpSServer.closeSocket srv1 conns1 = (srv1, conns1)).
Proof.
  intros Hops.
  pose proof (close_state d c) as Hst.
  pose proof (close_closed d' (close d c) Hst) as Hagain.
  split; [| split].
  - split; [exact Hst | split; [| split; [exact Hagain | split]]].
    + apply (close_closed false), Hst.
    + rewrite Hagain. destruct d'; reflexivity.
    + rewrite Hagain. destruct d'; reflexivity.
  - apply run_closed; assumption.
  - pose proof (closeSocket_open srv conns) as Ho.
    destruct (SocketTcpSServer.closeSocket srv conns) as [srv1 conns1].
    split; [exact Ho | apply closeSocket_closed, Ho].
Qed.

Lemma close_idempotent_witness :
  let ops := [OpRecv 2; OpSend 4 [mkSend 4 0]; OpClose true;
              OpListenStep (mkRecv 1 0 ["z"%byte]); OpPullUpload] in
  Forall (fun o => starting o = false) ops
  ∧ state (run ops (close false (startClient create))) = CLOSED
  ∧ SocketTcpSServer.closeSocket
      (SocketTcpSServer.closeSocket listener {[ 7 := startClient create ]}).1
      (SocketTcpSServer.closeSocket listener {[ 7 := startClient create ]}).2
    = SocketTcpSServer.closeSocket listener {[ 7 := startClient create ]}.
Proof.
  intros ops.
  assert (Hops : Forall (fun o => starting o = false) ops)
    by (repeat constructor).
  destruct (close_idempotent false false (startClient create) ops listener
              {[ 7 := startClient create ]} Hops) as (_ & Hrun & Hsrv).
  split; [exact Hops | split; [exact Hrun |]].
  destruct (SocketTcpSServer.closeSocket listener {[ 7 := startClient create ]})
    as [srv1 conns1].
  apply Hsrv.
Defined.

(** C10: [close(true)] on a connection that is [CLOSED] already still
    empties the inbound queue, and changes nothing else: the bytes that
    [recv] could have handed out are gone, [recv] now gives -1, and the
    next [Network::update()] takes the connection, registered under
    [id], out of the registry.  Without the call, the same [update()]
    keeps it for as long as bytes are buffered. *)
Theorem discard_after_closed
  (e : CurlRequests.UpdateEnv) (n : Network.t) (id : Z) (c : t) (maxLen : Z) :
  Network.getConnection id n = Some c → state c = CLOSED →
  inbuf_ok c → readBatch c ≠ [] →
  close true c = set_readBatch [] c
  ∧ readBatch (close true c) = []
  ∧ recv maxLen (close true c) = (close true c, [], -1)
  ∧ Network.getConnection id
      (Network.onConnection id (OpClose true) n) = Some (close true c)
  ∧ Network.getConnection id
      (Network.update e (Network.onConnection id (OpClose true) n)).1 = None
  ∧ Network.getConnection id (Network.update e n).1 = Some (drained c).
Proof.
  intros Hreg Hst Hc Hq.
  pose proof (close_closed true c Hst) as Hclose. cbn iota in Hclose.
  assert (Hget : Network.getConnection id
                   (Network.onConnection id (OpClose true) n)
                 = Some (close true c)).
  { unfold Network.onConnection. rewrite Hreg.
    unfold Network.getConnection. cbn. apply lookup_insert_eq. }
  split; [exact Hclose | split; [| split; [| split; [exact Hget | split]]]].
  - rewrite Hclose. reflexivity.
  - rewrite Hclose. unfold recv. cbn. rewrite Hst. reflexivity.
  - rewrite update_lookup, Hget. cbn [mbind option_bind].
    apply swept_None.
    + rewrite Hclose. unfold inbuf_ok, batch_size. cbn.
      rewrite MAX_INBUF_eq. lia.
    + rewrite Hclose. split; [exact Hst | reflexivity].
  - rewrite update_lookup, Hreg. cbn [mbind option_bind].
    destruct (swept c) as [c' |] eqn:Hs.
    + rewrite (swept_Some c c' Hs). reflexivity.
    + apply (swept_None c Hc) in Hs. tauto.
Qed.

Lemma discard_after_closed_witness :
  Network.getConnection 7 lingering = Some residual
  ∧ state residual = CLOSED ∧ inbuf_ok residual ∧ readBatch residual ≠ []
  ∧ Network.getConnection 7
      (Network.update quiet
         (Network.onConnection 7 (OpClose true) lingering)).1 = None.
Proof.
  assert (Hreg : Network.getConnection 7 lingering = Some residual)
    by reflexivity.
  assert (Hst : state residual = CLOSED) by reflexivity.
  assert (Hc : inbuf_ok residual) by (vm_compute; discriminate).
  assert (Hq : readBatch residual ≠ []) by discriminate.
  destruct (discard_after_closed quiet lingering 7 residual 4 Hreg Hst Hc Hq)
    as (_ & _ & _ & _ & H & _).
  exact (conj Hreg (conj Hst (conj Hc (conj Hq H)))).
Defined.

End Close.

(** ** The request queue *)

Section Requests.

Import CurlRequests.

Lemma foldl_write_callback (chunks : list (list byte)) :
  ∀ buf : list byte, foldl write_callback buf chunks = buf ++ concat chunks.
Proof.
  induction chunks as [| ch chunks IH]; intros buf; simpl.
  - symmetry. apply app_nil_r.
  - rewrite IH. unfold write_callback. symmetry. apply app_assoc.
Qed.

Lemma url_empty_true (u : string) : url_empty u = true ↔ u = EmptyString.
Proof. destruct u; simpl; split; congruence. Qed.

(** A submission made while a request is active only joins the queue. *)
Lemma processRequest_active (r : Request) (p : PerformResult) (s : t) :
  url_empty (url s) = false →
  processRequest r p s
  = (mk (curl s) (totalUpload s) (totalDownload s) (onResponse s)
        (onReject s) (buffer s) (url s) (requests s ++ [r]), []).
Proof. unfold processRequest. intros ->. reflexivity. Qed.

(** A request started while none is active, when its first
    [curl_multi_perform] succeeds. *)
Lemma processRequest_idle (r : Request) (p : PerformResult) (s : t) :
  url_empty (url s) = true → perform_code p = CURLM_OK →
  processRequest r p s
  = (mk (configure r (curl s)) (totalUpload s) (totalDownload s)
        (req_onResponse r) (req_onReject r) (concat (written p))
        (req_url r) (requests s),
     [AddHandle (configure r (curl s))]).
Proof.
  unfold processRequest. intros -> ->. simpl.
  rewrite foldl_write_callback. reflexivity.
Qed.

(** The same, when that [curl_multi_perform] fails. *)
Lemma processRequest_failed (r : Request) (p : PerformResult) (s : t) :
  url_empty (url s) = true → perform_code p ≠ CURLM_OK →
  processRequest r p s
  = (mk (configure r (curl s)) (totalUpload s) (totalDownload s)
        (req_onResponse r) (req_onReject r) (concat (written p))
        EmptyString (requests s),
     AddHandle (configure r (curl s))
       :: call_onReject (req_onReject r) HTTP_BAD_GATEWAY ++ [Cleared]).
Proof.
  unfold processRequest. intros -> Hp. apply Z.eqb_neq in Hp.
  rewrite Hp. simpl. rewrite foldl_write_callback. reflexivity.
Qed.

(** An [update()] that finds the active transfer still running only
    collects what was written. *)
Lemma update_waiting (e : UpdateEnv) (s : t) :
  waiting e → url_empty (url s) = false →
  update e s
  = (mk (curl s) (totalUpload s) (totalDownload s) (onResponse s)
        (onReject s) (buffer s ++ concat (written (env_perform e))) (url s)
        (requests s), []).
Proof.
  intros [Hok Hmsg] Hurl. unfold update, poll, startNext.
  rewrite Hok, Hmsg. simpl. rewrite Hurl, foldl_write_callback. reflexivity.
Qed.

Lemma updates_waiting (es : list UpdateEnv) :
  ∀ s : t,
    Forall waiting es → url_empty (url s) = false →
    updates es s
    = (mk (curl s) (totalUpload s) (totalDownload s) (onResponse s)
          (onReject s) (buffer s ++ received es) (url s) (requests s), []).
Proof.
  induction es as [| e es IH]; intros s Hes Hurl.
  - unfold received. simpl. rewrite app_nil_r. destruct s; reflexivity.
  - apply Forall_cons in Hes as [He Hes]. cbn [updates].
    rewrite (update_waiting e s He Hurl), IH by assumption.
    cbn. unfold received. cbn [flat_map].
    rewrite concat_app, app_assoc. reflexivity.
Qed.

Lemma callbacks_call_onReject (f : option Callback) (code : Z) :
  callbacks (call_onReject f code) = call_onReject f code.
Proof. destruct f; reflexivity. Qed.

Lemma callbacks_call_onResponse (f : option Callback) (body : list byte) :
  callbacks (call_onResponse f body) = call_onResponse f body.
Proof. destruct f; reflexivity. Qed.

Lemma callbacks_app (a b : list Action) :
  callbacks (a ++ b) = callbacks a ++ callbacks b.
Proof. apply filter_app. Qed.





End Requests.

(** ** First in, first out *)

Section Fifo.

Import CurlRequests.

Lemma ascending_le (lo hi : nat) (l : list nat) :
  ascending lo hi l → (lo <= hi)%nat.
Proof.
  revert lo. induction l as [| x l IH]; intros lo; simpl; [lia |].
  intros [Hx Hl]. specialize (IH x Hl). lia.
Qed.

Lemma ascending_app (a b c : nat) (l1 l2 : list nat) :
  ascending a b l1 → ascending b c l2 → ascending a c (l1 ++ l2).
Proof.
  revert a. induction l1 as [| x l1 IH]; intros a; simpl.
  - intros Hab Hl2. destruct l2 as [| y l2]; simpl in *; [lia |].
    destruct Hl2 as [Hy Hl2]. split; [lia | exact Hl2].
  - intros [Hx Hl1] Hl2. split; [exact Hx | apply IH; assumption].
Qed.

Lemma ascending_same (j : nat) (l : list nat) :
  Forall (eq j) l → ascending j j l.
Proof.
  induction 1 as [| x l <- _ IH]; simpl; [lia |]. split; [lia | exact IH].
Qed.

Lemma ascending_Forall (lo hi : nat) (l : list nat) :
  ascending lo hi l → Forall (Nat.le lo) l.
Proof.
  revert lo. induction l as [| x l IH]; intros lo; simpl; [constructor |].
  intros [Hx Hl]. constructor; [exact Hx |].
  eapply Forall_impl; [apply (IH x Hl) |]. intros y Hy. simpl in Hy.
  unfold Nat.le in *. lia.
Qed.

Lemma ascending_sorted (lo hi : nat) (l : list nat) :
  ascending lo hi l → StronglySorted Nat.le l.
Proof.
  revert lo. induction l as [| x l IH]; intros lo; simpl; [constructor |].
  intros [Hx Hl]. constructor; [apply (IH x Hl) |].
  apply (ascending_Forall x hi l Hl).
Qed.

Lemma callees_app (a b : list Action) :
  callees (a ++ b) = callees a ++ callees b.
Proof. apply omap_app. Qed.

Lemma callees_skip (a : Action) (l : list Action) :
  callee a = None → callees (a :: l) = callees l.
Proof. unfold callees. cbn. intros ->. reflexivity. Qed.

Lemma callees_call_onReject (j : nat) (f : option Callback) (code : Z) :
  (∀ cb, f = Some cb → cb = j) → Forall (eq j) (callees (call_onReject f code)).
Proof.
  intros Hf. destruct f as [cb |]; cbn; [| constructor].
  rewrite (Hf cb eq_refl). repeat constructor.
Qed.

Lemma callees_call_onResponse (j : nat) (f : option Callback)
  (body : list byte) :
  (∀ cb, f = Some cb → cb = j) →
  Forall (eq j) (callees (call_onResponse f body)).
Proof.
  intros Hf. destruct f as [cb |]; cbn; [| constructor].
  rewrite (Hf cb eq_refl). repeat constructor.
Qed.

(** The first part of [update()] invokes callbacks of the active slot
    only, and leaves slot and queue to the same submissions. *)
Lemma poll_numbered (j : nat) (e : UpdateEnv) (s : t) :
  slot_numbered j s →
  slot_numbered j (poll e s).1.1
  ∧ requests (poll e s).1.1 = requests s
  ∧ Forall (eq j) (callees (poll e s).1.2).
Proof.
  intros [Hresp Hrej]. unfold poll.
  destruct (negb _); cbn [fst snd].
  - split; [split; assumption | split; [reflexivity |]].
    rewrite callees_app. apply Forall_app. split; [| constructor].
    apply callees_call_onReject, Hrej.
  - destruct (env_msg e) as [m |]; cbn [fst snd];
      [| split; [split; assumption | split; [reflexivity | constructor]]].
    unfold handleMessage. cbn [onResponse onReject buffer].
    destruct (msg_response m =? HTTP_OK); cbn [fst snd];
      (split; [split; assumption | split; [reflexivity |]]);
      rewrite !callees_app, !Forall_app;
      (split; [destruct (msg m =? CURLMSG_DONE); constructor |]);
      (split; [| constructor]).
    + apply callees_call_onResponse, Hresp.
    + apply callees_call_onReject, Hrej.
Qed.

(** The last statement of [update()] either does nothing or moves the
    slot on to the next submission. *)
Lemma startNext_numbered (j : nat) (p : PerformResult) (s : t) :
  slot_numbered j s → numbered_from (S j) (requests s) →
  ∃ j' : nat,
    (j <= j')%nat
    ∧ slot_numbered j' (startNext p s).1
    ∧ numbered_from (S j') (requests (startNext p s).1)
    ∧ Forall (eq j') (callees (startNext p s).2).
Proof.
  intros Hslot Hq. unfold startNext.
  assert (Hstay : ∃ j' : nat,
             (j <= j')%nat ∧ slot_numbered j' (s, @nil Action).1
             ∧ numbered_from (S j') (requests (s, @nil Action).1)
             ∧ Forall (eq j') (callees (s, @nil Action).2)).
  { exists j. split; [lia | split; [exact Hslot | split; [exact Hq |]]].
    constructor. }
  destruct (url_empty (url s)) eqn:Hurl; [| exact Hstay].
  destruct (requests s) as [| r rest] eqn:Hreq; [exact Hstay |].
  clear Hstay. destruct Hq as [[Hresp Hrej] Hrest].
  exists (S j). unfold processRequest. cbn [url]. rewrite Hurl. cbn [negb].
  destruct (negb (perform_code p =? CURLM_OK)); cbn [fst snd requests];
    (split; [lia |]); (split; [split; assumption |]);
    (split; [exact Hrest |]).
  - rewrite callees_skip, callees_app, Forall_app by reflexivity.
    split; [apply callees_call_onReject, Hrej | constructor].
  - constructor.
Qed.

Lemma update_numbered (j : nat) (e : UpdateEnv) (s : t) :
  slot_numbered j s → numbered_from (S j) (requests s) →
  ∃ j' : nat,
    slot_numbered j' (update e s).1
    ∧ numbered_from (S j') (requests (update e s).1)
    ∧ ascending j j' (callees (update e s).2).
Proof.
  intros Hslot Hq. unfold update.
  destruct (poll_numbered j e s Hslot) as (Hslot1 & Hreq1 & Hacts1).
  destruct (poll e s) as [[s1 a1] returned]. cbn [fst snd] in *.
  destruct returned.
  - exists j. cbn [fst snd]. rewrite Hreq1.
    repeat split; try apply Hslot1; try exact Hq.
    apply ascending_same, Hacts1.
  - rewrite <- Hreq1 in Hq.
    destruct (startNext_numbered j (env_start e) s1 Hslot1 Hq)
      as (j' & Hle & Hslot2 & Hq2 & Hacts2).
    destruct (startNext (env_start e) s1) as [s2 a2]. cbn [fst snd] in *.
    exists j'. split; [exact Hslot2 | split; [exact Hq2 |]].
    rewrite callees_app.
    apply (ascending_app j j j'); [apply ascending_same, Hacts1 |].
    pose proof (ascending_same j' _ Hacts2) as Hasc.
    destruct (callees a2) as [| x l]; simpl in *; [exact Hle |].
    destruct Hasc as [Hx Hl]. split; [lia | exact Hl].
Qed.

Lemma updates_numbered (es : list UpdateEnv) :
  ∀ (j : nat) (s : t),
    slot_numbered j s → numbered_from (S j) (requests s) →
    ∃ j' : nat, ascending j j' (callees (updates es s).2).
Proof.
  induction es as [| e es IH]; intros j s Hslot Hq.
  - exists j. simpl. lia.
  - cbn [updates].
    destruct (update_numbered j e s Hslot Hq) as (j1 & Hslot1 & Hq1 & Hasc1).
    destruct (update e s) as [s1 a1]. cbn [fst snd] in *.
    destruct (IH j1 s1 Hslot1 Hq1) as (j2 & Hasc2).
    destruct (updates es s1) as [s2 a2]. cbn [fst snd] in *.
    exists j2. rewrite callees_app.
    apply (ascending_app j j1 j2); assumption.
Qed.

(** Submissions made while a request is active are appended to the queue
    in order; nothing else happens. *)
Lemma submit_request_of (sub : Submission) (p : PerformResult) (s : t) :
  submit sub p s = processRequest (request_of sub) p s.
Proof. destruct sub; reflexivity. Qed.

Lemma submitAll_active (subs : list (Submission * PerformResult)) :
  ∀ s : t,
    url_empty (url s) = false →
    submitAll subs s
    = (mk (curl s) (totalUpload s) (totalDownload s) (onResponse s)
          (onReject s) (buffer s) (url s)
          (requests s ++ (request_of <$> subs.*1)), []).
Proof.
  induction subs as [| [sub p] subs IH]; intros s Hurl.
  - simpl. rewrite app_nil_r. destruct s; reflexivity.
  - cbn [submitAll]. rewrite submit_request_of.
    rewrite (processRequest_active _ p s Hurl), IH by exact Hurl.
    cbn. rewrite <- app_assoc. reflexivity.
Qed.

Lemma in_flight_app (a b : list Action) :
  ∀ busy : bool,
    in_flight busy (a ++ b) = in_flight busy a ≫= fun busy' => in_flight busy' b.
Proof.
  induction a as [| x a IH]; intros busy; [reflexivity |].
  destruct x; cbn [app in_flight]; try apply IH.
  destruct busy; [reflexivity | apply IH].
Qed.

Lemma in_flight_call_onReject (f : option Callback) (code : Z) (busy : bool) :
  in_flight busy (call_onReject f code) = Some busy.
Proof. destruct f; reflexivity. Qed.

Lemma in_flight_call_onResponse (f : option Callback) (body : list byte)
  (busy : bool) :
  in_flight busy (call_onResponse f body) = Some busy.
Proof. destruct f; reflexivity. Qed.

Lemma in_flight_completed (removed calls : list Action) (busy : bool) :
  in_flight busy removed = Some busy → in_flight busy calls = Some busy →
  in_flight busy (removed ++ calls ++ [Cleared]) = Some false.
Proof.
  intros Hr Hc. rewrite in_flight_app, Hr. cbn [mbind option_bind].
  rewrite in_flight_app, Hc. reflexivity.
Qed.

Lemma poll_in_flight (e : UpdateEnv) (s : t) :
  in_flight (active s) (poll e s).1.2 = Some (active (poll e s).1.1)
  ∧ requests (poll e s).1.1 = requests s
  ∧ ((poll e s).2 = true → active (poll e s).1.1 = false).
Proof.
  unfold poll. destruct (negb _); cbn [fst snd].
  - rewrite in_flight_app, in_flight_call_onReject. repeat split.
  - destruct (env_msg e) as [m |]; cbn [fst snd];
      [| repeat split; discriminate].
    assert (Hrm : ∀ busy, in_flight busy
                            (if msg m =? CURLMSG_DONE then [RemoveHandle]
                             else []) = Some busy)
      by (intros busy; destruct (msg m =? CURLMSG_DONE); reflexivity).
    unfold handleMessage.
    destruct (msg_response m =? HTTP_OK); cbn [fst snd];
      (split; [| split; [reflexivity | discriminate]]);
      apply in_flight_completed;
      auto using in_flight_call_onReject, in_flight_call_onResponse.
Qed.

Lemma startNext_in_flight (p : PerformResult) (s : t) :
  Forall (fun r => url_empty (req_url r) = false) (requests s) →
  in_flight (active s) (startNext p s).2 = Some (active (startNext p s).1)
  ∧ Forall (fun r => url_empty (req_url r) = false)
      (requests (startNext p s).1).
Proof.
  intros Hq. unfold startNext, active.
  destruct (url_empty (url s)) eqn:Hurl; [| cbn; rewrite Hurl; auto].
  destruct (requests s) as [| r rest] eqn:Hreq;
    [cbn; rewrite Hurl, Hreq; auto |].
  apply Forall_cons in Hq as [Hr Hrest].
  unfold processRequest. cbn [url]. rewrite Hurl. cbn [negb].
  destruct (negb (perform_code p =? CURLM_OK)); cbn [fst snd url requests].
  - split; [| exact Hrest]. cbn [in_flight].
    rewrite in_flight_app, in_flight_call_onReject. reflexivity.
  - split; [| exact Hrest]. cbn. rewrite Hr. reflexivity.
Qed.

Lemma update_in_flight (e : UpdateEnv) (s : t) :
  Forall (fun r => url_empty (req_url r) = false) (requests s) →
  in_flight (active s) (update e s).2 = Some (active (update e s).1)
  ∧ Forall (fun r => url_empty (req_url r) = false) (requests (update e s).1).
Proof.
  intros Hq. unfold update.
  destruct (poll_in_flight e s) as (Hfl & Hreq & _).
  destruct (poll e s) as [[s1 a1] returned]. cbn [fst snd] in *.
  destruct returned; cbn [fst snd].
  - rewrite Hreq. split; assumption.
  - rewrite <- Hreq in Hq.
    destruct (startNext_in_flight (env_start e) s1 Hq) as [Hfl2 Hq2].
    destruct (startNext (env_start e) s1) as [s2 a2]. cbn [fst snd] in *.
    rewrite in_flight_app, Hfl. split; assumption.
Qed.

Lemma updates_in_flight (es : list UpdateEnv) :
  ∀ s : t,
    Forall (fun r => url_empty (req_url r) = false) (requests s) →
    in_flight (active s) (updates es s).2 = Some (active (updates es s).1).
Proof.
  induction es as [| e es IH]; intros s Hq; [reflexivity |].
  cbn [updates].
  destruct (update_in_flight e s Hq) as [Hfl Hq1].
  destruct (update e s) as [s1 a1]. cbn [fst snd] in *.
  specialize (IH s1 Hq1).
  destruct (updates es s1) as [s2 a2]. cbn [fst snd] in *.
  rewrite in_flight_app, Hfl. exact IH.
Qed.

(** C2: submissions made through [get] and [post] while a request is
    active are appended to the queue in the order made, and do nothing
    else (the active request and the transfer context are untouched, no
    transfer is started).  Number the active request 0 and the queued
    and submitted ones 1, 2, ... in order: over any further calls of
    [update()], whatever libcurl reports in them, the callbacks are
    invoked in ascending order of these numbers.  And no transfer is
    handed to the multi handle while another is in flight; here a
    request is in flight as the code has it, from its start until its
    [url] is cleared, which takes the URLs of the requests to be
    non-empty. *)
Theorem callbacks_in_submission_order
  (s : t) (subs : list (Submission * PerformResult)) (es : list UpdateEnv) :
  active s = true →
  slot_numbered 0 s →
  numbered_from 1 (requests s ++ (request_of <$> subs.*1)) →
  let '(s1, a1) := submitAll subs s in
  let '(s2, a2) := updates es s1 in
  (a1 = []
   ∧ requests s1 = requests s ++ (request_of <$> subs.*1)
   ∧ url s1 = url s ∧ onResponse s1 = onResponse s
   ∧ onReject s1 = onReject s ∧ buffer s1 = buffer s ∧ curl s1 = curl s)
  ∧ StronglySorted Nat.le (callees (a1 ++ a2))
  ∧ (Forall (fun r => url_empty (req_url r) = false)
       (requests s ++ (request_of <$> subs.*1)) →
     is_Some (in_flight true (a1 ++ a2))).
Proof.
  intros Hact Hslot Hnum.
  assert (Hurl : url_empty (url s) = false)
    by (unfold active in Hact; apply negb_true_iff, Hact).
  rewrite (submitAll_active subs s Hurl).
  set (s1 := mk (curl s) (totalUpload s) (totalDownload s) (onResponse s)
               (onReject s) (buffer s) (url s)
               (requests s ++ (request_of <$> subs.*1))).
  destruct (updates_numbered es 0 s1 Hslot Hnum) as (j & Hasc).
  pose proof (updates_in_flight es s1) as Hfl.
  destruct (updates es s1) as [s2 a2]. cbn [fst snd app] in *.
  split; [repeat split |]. split.
  - apply (ascending_sorted 0 j), Hasc.
  - intros Hurls. specialize (Hfl Hurls).
    change (active s1) with (active s) in Hfl. rewrite Hact in Hfl.
    rewrite Hfl. eexists. reflexivity.
Qed.

Lemma callbacks_in_submission_order_witness :
  active three_active = true
  ∧ slot_numbered 0 three_active
  ∧ numbered_from 1
      (requests three_active ++ (request_of <$> three_queued.*1))
  ∧ Forall (fun r => url_empty (req_url r) = false)
      (requests three_active ++ (request_of <$> three_queued.*1))
  ∧ callees (updates [done 404; done 200; done 500]
               (submitAll three_queued three_active).1).2
    = [0; 1; 2]%nat
  ∧ StronglySorted Nat.le
      (callees ((submitAll three_queued three_active).2
                ++ (updates [done 404; done 200; done 500]
                      (submitAll three_queued three_active).1).2))
  ∧ is_Some
      (in_flight true
         ((submitAll three_queued three_active).2
          ++ (updates [done 404; done 200; done 500]
                (submitAll three_queued three_active).1).2)).
Proof.
  assert (H1 : active three_active = true) by reflexivity.
  assert (H2 : slot_numbered 0 three_active)
    by (split; intros cb [= <-]; reflexivity).
  assert (H3 : numbered_from 1
                 (requests three_active ++ (request_of <$> three_queued.*1))).
  { cbn. repeat split; intros cb H; try discriminate H;
      injection H as <-; reflexivity. }
  assert (H4 : Forall (fun r => url_empty (req_url r) = false)
                 (requests three_active ++ (request_of <$> three_queued.*1)))
    by (repeat constructor).
  pose proof (callbacks_in_submission_order three_active three_queued
                [done 404; done 200; done 500] H1 H2 H3) as H.
  split; [exact H1 | split; [exact H2 | split; [exact H3 | split; [exact H4 |]]]].
  split; [reflexivity |].
  revert H.
  destruct (submitAll three_queued three_active) as [s1 a1]. cbn [fst snd].
  destruct (updates [done 404; done 200; done 500] s1) as [s2 a2].
  cbn [fst snd]. intros (_ & Hsorted & Hone).
  split; [exact Hsorted | exact (Hone H4)].
Defined.

End Fifo.

(** ** A request that ends in 404 *)

Section Rejected.

Import CurlRequests.

Lemma responds_call_onReject (f : Callback) (g : option Callback) (code : Z) :
  Forall (fun a => responds f a = false) (call_onReject g code).
Proof. destruct g; repeat constructor. Qed.

Lemma responds_call_onResponse (f : Callback) (g : option Callback)
  (body : list byte) :
  g ≠ Some f → Forall (fun a => responds f a = false) (call_onResponse g body).
Proof.
  intros Hg. destruct g as [cb |]; repeat constructor.
  cbn. apply Nat.eqb_neq. congruence.
Qed.

(** A closure that neither the slot nor the queue holds as [onResponse]
    is not invoked as such by [update()], and is not picked up. *)
Lemma update_never_responds (f : Callback) (e : UpdateEnv) (s : t) :
  onResponse s ≠ Some f →
  Forall (fun r => req_onResponse r ≠ Some f) (requests s) →
  onResponse (update e s).1 ≠ Some f
  ∧ Forall (fun r => req_onResponse r ≠ Some f) (requests (update e s).1)
  ∧ Forall (fun a => responds f a = false) (update e s).2.
Proof.
  intros Hslot Hq. unfold update.
  assert (Hpoll : onResponse (poll e s).1.1 = onResponse s
                  ∧ requests (poll e s).1.1 = requests s
                  ∧ Forall (fun a => responds f a = false) (poll e s).1.2).
  { unfold poll. destruct (negb _); cbn [fst snd].
    - repeat split. apply Forall_app.
      split; [apply responds_call_onReject | repeat constructor].
    - destruct (env_msg e) as [m |]; cbn [fst snd];
        [| repeat split; constructor].
      unfold handleMessage.
      destruct (msg_response m =? HTTP_OK); cbn [fst snd];
        repeat split; rewrite !Forall_app;
        (split; [destruct (msg m =? CURLMSG_DONE); repeat constructor |]);
        (split; [| repeat constructor]).
      + apply responds_call_onResponse, Hslot.
      + apply responds_call_onReject. }
  destruct (poll e s) as [[s1 a1] returned]. cbn [fst snd] in Hpoll.
  destruct Hpoll as (Hresp1 & Hreq1 & Hacts1).
  destruct returned; cbn [fst snd].
  - rewrite Hresp1, Hreq1. repeat split; assumption.
  - rewrite <- Hresp1 in Hslot. rewrite <- Hreq1 in Hq.
    unfold startNext.
    destruct (url_empty (url s1)) eqn:Hurl;
      [| cbn [fst snd]; rewrite app_nil_r; repeat split; assumption].
    destruct (requests s1) as [| r rest] eqn:Hreq;
      [cbn [fst snd]; rewrite app_nil_r, Hreq; repeat split;
       assumption || constructor |].
    apply Forall_cons in Hq as [Hr Hrest].
    unfold processRequest. cbn [url]. rewrite Hurl. cbn [negb].
    destruct (negb (perform_code (env_start e) =? CURLM_OK));
      cbn [fst snd onResponse requests];
      (split; [exact Hr | split; [exact Hrest |]]);
      apply Forall_app; (split; [exact Hacts1 |]).
    + constructor; [reflexivity |]. apply Forall_app.
      split; [apply responds_call_onReject | repeat constructor].
    + repeat constructor.
Qed.

Lemma updates_never_responds (f : Callback) (es : list UpdateEnv) :
  ∀ s : t,
    onResponse s ≠ Some f →
    Forall (fun r => req_onResponse r ≠ Some f) (requests s) →
    Forall (fun a => responds f a = false) (updates es s).2.
Proof.
  induction es as [| e es IH]; intros s Hslot Hq; [constructor |].
  cbn [updates].
  destruct (update_never_responds f e s Hslot Hq) as (Hslot1 & Hq1 & Hacts1).
  destruct (update e s) as [s1 a1]. cbn [fst snd] in *.
  specialize (IH s1 Hslot1 Hq1).
  destruct (updates es s1) as [s2 a2]. cbn [fst snd] in *.
  apply Forall_app. split; assumption.
Qed.

(** C9, as worded, fails: the queued request is started in the same
    [update()] that invokes [onReject(404)], right after it, and the
    [update()] that follows starts nothing. *)
Lemma next_request_starts_in_the_rejecting_update :
  let ok := mkPerform [] CURLM_OK in
  let queued :=
    (submit second_get ok
       (get "http://h/a" (Some 1%nat) (Some 2%nat) 0 ok create).1).1 in
  let rejecting := update (done 404) queued in
  let following := update still_running rejecting.1 in
  callbacks rejecting.2 = [CallOnReject 2%nat 404]
  ∧ Queueing.started rejecting.2 = ["http://h/b"%string]
  ∧ url rejecting.1 = "http://h/b"%string
  ∧ following.2 = []
  ∧ ¬ (∃ h, AddHandle h ∈ following.2).
Proof.
  cbv zeta.
  assert (Hfollowing :
    (update still_running
       (update (done 404)
          (submit second_get (mkPerform [] CURLM_OK)
             (get "http://h/a" (Some 1%nat) (Some 2%nat) 0
                (mkPerform [] CURLM_OK) create).1).1).1).2 = [])
    by (vm_compute; reflexivity).
  split; [vm_compute; reflexivity |].
  split; [vm_compute; reflexivity |].
  split; [vm_compute; reflexivity |].
  split; [exact Hfollowing |].
  rewrite Hfollowing. intros [h Hin]. apply elem_of_nil in Hin. exact Hin.
Qed.

(** C9, amended: a GET is active and another request is queued behind
    it.  As long as the transfer is running, the queued request is not
    started and no callback is invoked.  In the [update()] in which
    libcurl reports the GET done with status 404, [onReject(404)] is
    invoked and then, in that same [update()], the queued request is
    started: the easy handle is set to its URL, method and body and
    handed to the multi handle and, its first [curl_multi_perform]
    succeeding, it is the active request when that [update()] returns;
    the updates that follow and find it running do nothing.  The
    [onResponse] of the GET is invoked neither before, nor then, nor in
    any later [update()]. *)
Theorem rejected_404_then_next
  (s0 : t) (u : string) (f g : Callback) (maxSize : Z) (p : PerformResult)
  (next : Submission) (p' : PerformResult) (waits : list UpdateEnv)
  (e : UpdateEnv) (m : CURLMsg) (later : list UpdateEnv) :
  url_empty (url s0) = true → requests s0 = [] →
  url_empty u = false → perform_code p = CURLM_OK →
  Forall waiting waits →
  perform_code (env_perform e) = CURLM_OK → env_msg e = Some m →
  msg m = CURLMSG_DONE → msg_response m = 404 →
  req_onResponse (request_of next) ≠ Some f →
  let '(s1, a1) := get u (Some f) (Some g) maxSize p s0 in
  let '(s2, a2) := submit next p' s1 in
  let '(s3, a3) := updates waits s2 in
  let '(s4, a4) := update e s3 in
  let '(s5, a5) := updates later s4 in
  let h := configure (request_of next) (curl s1) in
  (a1 = [AddHandle (curl s1)] ∧ a2 = [] ∧ a3 = []
   ∧ url s3 = u ∧ requests s3 = [request_of next])
  ∧ a4 = [RemoveHandle; CallOnReject g 404; Cleared; AddHandle h]
         ++ (if perform_code (env_start e) =? CURLM_OK then []
             else call_onReject (req_onReject (request_of next))
                    HTTP_BAD_GATEWAY ++ [Cleared])
  ∧ (opt_url h = req_url (request_of next)
     ∧ opt_post h = match req_type (request_of next) with
                    | POST => true
                    | GET => false
                    end
     ∧ opt_followlocation h = false
     ∧ (req_type (request_of next) = POST →
        opt_postfields h = req_data (request_of next)
        ∧ opt_postfieldsize h
          = Z.of_nat (String.length (req_data (request_of next)))
        ∧ opt_httpheader h = ["Content-Type: application/json"%string])
     ∧ (req_type (request_of next) = GET → opt_httpheader h = []))
  ∧ (perform_code (env_start e) = CURLM_OK →
     url s4 = req_url (request_of next)
     ∧ onResponse s4 = req_onResponse (request_of next)
     ∧ onReject s4 = req_onReject (request_of next)
     ∧ curl s4 = h ∧ requests s4 = []
     ∧ (url_empty (req_url (request_of next)) = false →
        Forall waiting later → a5 = []))
  ∧ Forall (fun a => responds f a = false) (a1 ++ a2 ++ a3 ++ a4 ++ a5).
Proof.
  intros Hidle Hq0 Hu Hp Hwaits Hok Hmsg Hdone H404 Hother.
  unfold get. rewrite (processRequest_idle _ p s0 Hidle Hp).
  cbn [req_url req_onResponse req_onReject].
  set (r := mkRequest GET u (Some f) (Some g) maxSize false EmptyString).
  rewrite submit_request_of, processRequest_active by exact Hu.
  cbn [curl totalUpload totalDownload onResponse onReject buffer url requests].
  rewrite Hq0, app_nil_l.
  rewrite updates_waiting by assumption.
  cbn [curl totalUpload totalDownload onResponse onReject buffer url requests].
  set (s3 := mk (configure r (curl s0)) (totalUpload s0) (totalDownload s0)
               (Some f) (Some g) (concat (written p) ++ received waits) u
               [request_of next]).
  assert (Hupd : update e s3
            = let x := processRequest (request_of next) (env_start e)
                         (mk (curl s3) (totalUpload s3) (totalDownload s3)
                             (onResponse s3) (onReject s3)
                             (buffer s3 ++ concat (written (env_perform e)))
                             EmptyString []) in
              (x.1, [RemoveHandle; CallOnReject g 404; Cleared] ++ x.2)).
  { unfold update, poll. rewrite Hok, Hmsg, Z.eqb_refl. cbn [negb].
    unfold handleMessage. rewrite Hdone, H404, Z.eqb_refl.
    change (404 =? HTTP_OK) with false. cbn [fst snd call_onReject app].
    rewrite foldl_write_callback.
    unfold startNext. subst s3.
    cbn [url url_empty requests curl totalUpload totalDownload onResponse
         onReject buffer].
    destruct (processRequest _ _ _) as [s4 a4]. reflexivity. }
  rewrite Hupd. clear Hupd. cbv zeta.
  set (idle := mk (curl s3) (totalUpload s3) (totalDownload s3)
                 (onResponse s3) (onReject s3)
                 (buffer s3 ++ concat (written (env_perform e)))
                 EmptyString []).
  assert (Hhandle :
    let h := configure (request_of next) (configure r (curl s0)) in
    opt_url h = req_url (request_of next)
    ∧ opt_post h = match req_type (request_of next) with
                   | POST => true
                   | GET => false
                   end
    ∧ opt_followlocation h = false
    ∧ (req_type (request_of next) = POST →
       opt_postfields h = req_data (request_of next)
       ∧ opt_postfieldsize h
         = Z.of_nat (String.length (req_data (request_of next)))
       ∧ opt_httpheader h = ["Content-Type: application/json"%string])
    ∧ (req_type (request_of next) = GET → opt_httpheader h = [])).
  { destruct next as [u' f' g' m' | u' d' f' g' m'];
      cbn [request_of configure req_type req_url req_data req_followLocation
           opt_url opt_post opt_followlocation opt_postfields
           opt_postfieldsize opt_httpheader];
      (split; [reflexivity | split; [reflexivity | split; [reflexivity
        | split; intros Hty; [| try reflexivity]]]]);
      try discriminate Hty.
    split; [reflexivity | split; reflexivity]. }
  cbv zeta in Hhandle.
  destruct (Z.eq_dec (perform_code (env_start e)) CURLM_OK) as [Hstart | Hstart].
  - rewrite (processRequest_idle _ (env_start e) idle eq_refl Hstart).
    cbn [fst snd].
    rewrite Hstart, Z.eqb_refl.
    pose proof (updates_never_responds f later
                  (mk (configure (request_of next) (curl idle))
                      (totalUpload idle) (totalDownload idle)
                      (req_onResponse (request_of next))
                      (req_onReject (request_of next))
                      (concat (written (env_start e)))
                      (req_url (request_of next)) (requests idle)) Hother
                  (Forall_nil_2 _)) as Hlater.
    assert (Hquiet :
      url_empty (req_url (request_of next)) = false → Forall waiting later →
      (updates later
         (mk (configure (request_of next) (curl idle))
             (totalUpload idle) (totalDownload idle)
             (req_onResponse (request_of next))
             (req_onReject (request_of next))
             (concat (written (env_start e)))
             (req_url (request_of next)) (requests idle))).2 = []).
    { intros Hnext Hl. rewrite updates_waiting by assumption. reflexivity. }
    destruct (updates later _) as [s5 a5]. cbn [fst snd] in Hlater, Hquiet.
    split; [repeat split |]. split; [reflexivity |].
    split; [exact Hhandle |].
    split; [intros _; repeat split; exact Hquiet |].
    cbn [app]. repeat (constructor; [reflexivity |]). exact Hlater.
  - rewrite (processRequest_failed _ (env_start e) idle eq_refl Hstart).
    cbn [fst snd].
    rewrite (proj2 (Z.eqb_neq _ _) Hstart).
    pose proof (updates_never_responds f later
                  (mk (configure (request_of next) (curl idle))
                      (totalUpload idle) (totalDownload idle)
                      (req_onResponse (request_of next))
                      (req_onReject (request_of next))
                      (concat (written (env_start e))) EmptyString
                      (requests idle)) Hother (Forall_nil_2 _)) as Hlater.
    destruct (updates later _) as [s5 a5]. cbn [fst snd] in Hlater.
    split; [repeat split |]. split; [reflexivity |].
    split; [exact Hhandle |].
    split; [intros Habs; contradiction |].
    cbn [app]. repeat (constructor; [reflexivity |]).
    rewrite <- app_assoc. apply Forall_app.
    split; [apply responds_call_onReject |].
    constructor; [reflexivity | exact Hlater].
Qed.

Lemma rejected_404_then_next_witness :
  let ok := mkPerform [] CURLM_OK in
  url_empty (url create) = true ∧ requests create = []
  ∧ url_empty "http://h/a" = false ∧ perform_code ok = CURLM_OK
  ∧ Forall waiting [still_running]
  ∧ perform_code (env_perform (done 404)) = CURLM_OK
  ∧ env_msg (done 404) = Some (mkMsg CURLMSG_DONE 0 404)
  ∧ req_onResponse (request_of second_get) ≠ Some 1%nat
  ∧ (update (done 404)
       (updates [still_running]
          (submit second_get ok
             (get "http://h/a" (Some 1%nat) (Some 2%nat) 0 ok create).1).1).1).2
    = [RemoveHandle; CallOnReject 2%nat 404; Cleared;
       AddHandle (configure (request_of second_get)
                    (curl (get "http://h/a" (Some 1%nat) (Some 2%nat) 0 ok
                             create).1))].
Proof.
  intros ok.
  assert (H1 : url_empty (url create) = true) by reflexivity.
  assert (H2 : requests create = []) by reflexivity.
  assert (H3 : url_empty "http://h/a" = false) by reflexivity.
  assert (H4 : perform_code ok = CURLM_OK) by reflexivity.
  assert (H5 : Forall waiting [still_running]) by (repeat constructor).
  assert (H6 : perform_code (env_perform (done 404)) = CURLM_OK)
    by reflexivity.
  assert (H7 : env_msg (done 404) = Some (mkMsg CURLMSG_DONE 0 404))
    by reflexivity.
  assert (H8 : req_onResponse (request_of second_get) ≠ Some 1%nat)
    by discriminate.
  pose proof (rejected_404_then_next create "http://h/a" 1%nat 2%nat 0 ok
                second_get ok [still_running] (done 404)
                (mkMsg CURLMSG_DONE 0 404) [done 200]
                H1 H2 H3 H4 H5 H6 H7 eq_refl eq_refl H8) as H.
  split; [exact H1 | split; [exact H2 | split; [exact H3 | split; [exact H4
    | split; [exact H5 | split; [exact H6 | split; [exact H7
    | split; [exact H8 |]]]]]]]].
  lazy in H. destruct H as (_ & H & _). lazy. exact H.
Defined.

End Rejected.

(** * Further properties of the code *)

(** ** The receive loop *)

Section ReceiveLoop.

Import SocketConnection Transport.

Lemma static_cast_int_range (z : Z) :
  - 2 ^ 31 <= static_cast_int z < 2 ^ 31.
Proof.
  unfold static_cast_int.
  pose proof (Z.mod_pos_bound (z + 2 ^ 31) (2 ^ 32)). lia.
Qed.

Lemma listenBody_passed_over (r : RecvResult) (c : t) :
  passed_over r = true → listenBody r c = (c, Continue).
Proof.
  unfold passed_over, listenBody. intros H.
  apply andb_true_iff in H as [Hneg Herr].
  assert ((static_cast_int (recv_size r) =? 0) = false) as -> by lia.
  rewrite Hneg.
  destruct (recv_errno r =? EINTR); [reflexivity |].
  simpl in Herr. rewrite Herr. reflexivity.
Qed.

Lemma retried_not_fatal (r : SendResult) : retried r = true → fatal r = false.
Proof.
  intros Hr. apply carries_on_not_fatal. unfold carries_on. rewrite Hr.
  reflexivity.
Qed.

(** Interrupted and would-block results are recovered inside the loops:
    the receive loop and [send] behave as if those results had not
    occurred, wherever they stand before the next other result. *)
Theorem transient_results_are_invisible
  (ts : list RecvResult) (rs : list RecvResult)
  (us : list SendResult) (env : list SendResult) (len : Z) (c : t) :
  Forall (fun r => passed_over r = true) ts →
  Forall (fun r => retried r = true) us →
  listenLoop (ts ++ rs) c = listenLoop rs c
  ∧ send len (us ++ env) c = send len env c.
Proof.
  intros Hts Hus. split.
  - induction Hts as [| r ts Hr _ IH]; [reflexivity |].
    cbn [app listenLoop]. rewrite (listenBody_passed_over r c Hr), IH.
    destruct (state_eqb (state c) CONNECTED) eqn:Hst; [reflexivity |].
    destruct rs; cbn [listenLoop]; rewrite Hst; reflexivity.
  - unfold send. destruct (negb _); [reflexivity |].
    generalize 0 at 1 2. intros total.
    induction Hus as [| r us Hr _ IH]; [reflexivity |].
    cbn [app]. destruct (Z.ltb_spec total len) as [Hlt | Hge].
    + rewrite sendLoop_turn by exact Hlt.
      rewrite (retried_not_fatal r Hr), Hr. exact IH.
    + rewrite !sendLoop_done by lia. reflexivity.
Qed.

Lemma transient_results_are_invisible_witness :
  let ts := [mkRecv (-1) EINTR []; mkRecv (-1) EAGAIN []] in
  let us := [mkSend (-1) EAGAIN; mkSend (-1) EINTR] in
  Forall (fun r => passed_over r = true) ts
  ∧ Forall (fun r => retried r = true) us
  ∧ listenLoop (ts ++ [mkRecv 1 0 ["q"%byte]]) (startClient create)
    = listenLoop [mkRecv 1 0 ["q"%byte]] (startClient create)
  ∧ send 3 (us ++ [mkSend 3 0]) (startClient create)
    = send 3 [mkSend 3 0] (startClient create).
Proof.
  intros ts us.
  assert (H1 : Forall (fun r => passed_over r = true) ts)
    by (repeat constructor).
  assert (H2 : Forall (fun r => retried r = true) us)
    by (repeat constructor).
  split; [exact H1 | split; [exact H2 |]].
  apply (transient_results_are_invisible ts [mkRecv 1 0 ["q"%byte]] us
           [mkSend 3 0] 3 (startClient create) H1 H2).
Defined.

(** One turn of the loop on a result within the contract of [recv(2)]:
    the queue grows at its end by what the counter grows. *)
Lemma listenBody_accounting (r : RecvResult) (c : t) :
  buffer_ok r → 0 <= totalDownload c < 2 ^ 64 →
  ∃ appended : list byte,
    readBatch (listenBody r c).1 = readBatch c ++ appended
    ∧ totalDownload (listenBody r c).1
      = size_t (totalDownload c + Z.of_nat (length appended))
    ∧ state (listenBody r c).1 = state c
    ∧ thread (listenBody r c).1 = thread c
    ∧ totalUpload (listenBody r c).1 = totalUpload c.
Proof.
  unfold buffer_ok, listenBody. intros Hbuf Hdown.
  set (size := static_cast_int (recv_size r)) in *.
  assert (Hnil : ∃ appended : list byte,
             readBatch c = readBatch c ++ appended
             ∧ totalDownload c
               = size_t (totalDownload c + Z.of_nat (length appended))
             ∧ state c = state c ∧ thread c = thread c
             ∧ totalUpload c = totalUpload c).
  { exists []. cbn. rewrite app_nil_r, Z.add_0_r, size_t_id by exact Hdown.
    repeat split. }
  destruct (size =? 0) eqn:H0; [exact Hnil |].
  destruct (size <? 0) eqn:Hneg; [repeat case_match; exact Hnil |].
  destruct (_ >? _); [exact Hnil |].
  exists (take (Z.to_nat size) (recv_buffer r)). cbn.
  assert (Hlen : Z.of_nat (length (take (Z.to_nat size) (recv_buffer r)))
                 = size) by (rewrite length_take; lia).
  rewrite Hlen. repeat split.
Qed.

(** Whatever the receive loop meets, it only appends to the inbound
    queue (bytes already buffered stay, in place), it books in the
    download counter exactly the number of bytes it appended, and it
    leaves the upload counter alone.  When it is left, the connection is
    [CLOSED] and the thread body has returned; while it is not left, the
    connection is [CONNECTED]. *)
Theorem receive_loop_appends_what_it_books
  (rs : list RecvResult) (c : t) :
  Forall buffer_ok rs → 0 <= totalDownload c < 2 ^ 64 →
  let '(c', exited) := listenLoop rs c in
  (∃ appended : list byte,
     readBatch c' = readBatch c ++ appended
     ∧ totalDownload c'
       = size_t (totalDownload c + Z.of_nat (length appended)))
  ∧ totalUpload c' = totalUpload c
  ∧ (if exited then state c' = CLOSED ∧ thread c' = Finished
     else state c' = CONNECTED ∧ thread c' = thread c).
Proof.
  intros Hrs. revert c.
  assert (Hstop : ∀ c : t,
             0 <= totalDownload c < 2 ^ 64 →
             (∃ appended : list byte,
                readBatch (leaveLoop c) = readBatch c ++ appended
                ∧ totalDownload (leaveLoop c)
                  = size_t (totalDownload c + Z.of_nat (length appended)))
             ∧ totalUpload (leaveLoop c) = totalUpload c
             ∧ state (leaveLoop c) = CLOSED ∧ thread (leaveLoop c) = Finished).
  { intros c Hdown. split; [| repeat split].
    exists []. cbn. rewrite app_nil_r, Z.add_0_r, size_t_id by exact Hdown.
    split; reflexivity. }
  induction Hrs as [| r rs Hr _ IH]; intros c Hdown.
  - cbn [listenLoop].
    destruct (state_eqb (state c) CONNECTED) eqn:Hst; [| apply Hstop, Hdown].
    apply state_eqb_eq in Hst. split; [| repeat split; assumption].
    exists []. rewrite app_nil_r. cbn.
    rewrite Z.add_0_r, size_t_id by exact Hdown. split; reflexivity.
  - cbn [listenLoop].
    destruct (state_eqb (state c) CONNECTED) eqn:Hst; [| apply Hstop, Hdown].
    destruct (listenBody_accounting r c Hr Hdown)
      as (app1 & Hq1 & Hd1 & Hs1 & Ht1 & Hu1).
    destruct (listenBody r c) as [c1 flow]. cbn [fst] in *.
    assert (Hrange : 0 <= totalDownload c1 < 2 ^ 64)
      by (rewrite Hd1; apply size_t_range).
    destruct flow.
    + specialize (IH c1 Hrange).
      destruct (listenLoop rs c1) as [c' exited].
      destruct IH as ((app2 & Hq2 & Hd2) & Hu2 & Hexit).
      split; [| split; [congruence |]].
      * exists (app1 ++ app2). rewrite Hq2, Hq1, <- app_assoc.
        split; [reflexivity |].
        rewrite Hd2, Hd1, size_t_add_l, length_app, Nat2Z.inj_add.
        f_equal. lia.
      * destruct exited; [exact Hexit |].
        destruct Hexit as [Hst' Hth']. split; congruence.
    + destruct (Hstop c1 Hrange) as ((app2 & Hq2 & Hd2) & Hu2 & Hexit).
      split; [| split; [congruence | exact Hexit]].
      exists (app1 ++ app2). rewrite Hq2, Hq1, <- app_assoc.
      split; [reflexivity |].
      rewrite Hd2, Hd1, size_t_add_l, length_app, Nat2Z.inj_add.
      f_equal. lia.
Qed.

Lemma receive_loop_appends_what_it_books_witness :
  let rs := [mkRecv 2 0 ["h"; "i"; "?"]%byte; mkRecv (-1) EINTR [];
             mkRecv 0 0 []; mkRecv 1 0 ["x"%byte]] in
  Forall buffer_ok rs ∧ 0 <= totalDownload (startClient create) < 2 ^ 64
  ∧ listenLoop rs (startClient create)
    = (mk 0 2 CLOSED Finished ["h"; "i"]%byte [Shutdown; CloseSocket], true)
  ∧ totalUpload (listenLoop rs (startClient create)).1
    = totalUpload (startClient create).
Proof.
  intros rs.
  assert (H1 : Forall buffer_ok rs)
    by (repeat constructor; vm_compute; discriminate).
  assert (H2 : 0 <= totalDownload (startClient create) < 2 ^ 64)
    by (cbn; lia).
  pose proof (receive_loop_appends_what_it_books rs (startClient create)
                H1 H2) as H.
  split; [exact H1 | split; [exact H2 | split; [reflexivity |]]].
  revert H. destruct (listenLoop rs (startClient create)) as [c' exited].
  intros (_ & Hup & _). exact Hup.
Defined.

(** Batches that fit are appended whole, in order. *)
Lemma listenLoop_batches (rs : list RecvResult) :
  ∀ c : t,
    state c = CONNECTED → Forall batch rs →
    batch_size c + Z.of_nat (length (concat (recv_buffer <$> rs)))
    <= MAX_INBUF →
    listenLoop rs c
    = (set_totalDownload
         (foldl (fun d r => size_t (d + Z.of_nat (length (recv_buffer r))))
            (totalDownload c) rs)
         (set_readBatch (readBatch c ++ concat (recv_buffer <$> rs)) c),
       false).
Proof.
  induction rs as [| r rs IH]; intros c Hst Hrs Hfit.
  - cbn. rewrite Hst, app_nil_r. destruct c; reflexivity.
  - apply Forall_cons in Hrs as [[Hne Hsize] Hrs].
    cbn [fmap list_fmap concat] in Hfit. rewrite length_app in Hfit.
    rewrite MAX_INBUF_eq in Hfit.
    assert (Hpos : 0 < Z.of_nat (length (recv_buffer r)))
      by (destruct (recv_buffer r); [congruence | cbn; lia]).
    pose proof (batch_size_nonneg c) as Hnn.
    assert (Hbody : listenBody r c
              = (set_totalDownload
                   (size_t (totalDownload c
                            + Z.of_nat (length (recv_buffer r))))
                   (set_readBatch (readBatch c ++ recv_buffer r) c),
                 Continue)).
    { unfold listenBody. rewrite Hsize.
      assert ((Z.of_nat (length (recv_buffer r)) =? 0) = false) as -> by lia.
      assert ((Z.of_nat (length (recv_buffer r)) <? 0) = false) as -> by lia.
      rewrite size_t_id by lia.
      assert ((batch_size c + Z.of_nat (length (recv_buffer r)) >? MAX_INBUF)
              = false) as -> by (rewrite MAX_INBUF_eq; lia).
      rewrite Nat2Z.id, firstn_all. reflexivity. }
    cbn [listenLoop]. rewrite Hst. cbn [state_eqb]. rewrite Hbody.
    rewrite IH; [| exact Hst | exact Hrs |].
    + cbn. rewrite <- app_assoc. reflexivity.
    + unfold batch_size in *. cbn [readBatch set_totalDownload set_readBatch].
      rewrite MAX_INBUF_eq, length_app. lia.
Qed.

(** What the peer sent comes out of [recv] as it came in: batches
    received one after the other behind the bytes already buffered, as
    long as they fit in the queue, are handed out by one [recv] of
    sufficient size in the order received, and the queue is empty
    afterwards. *)
Theorem received_batches_are_read_in_order
  (rs : list RecvResult) (c : t) (maxLen : Z) :
  state c = CONNECTED → Forall batch rs →
  batch_size c + Z.of_nat (length (concat (recv_buffer <$> rs))) <= MAX_INBUF →
  batch_size c + Z.of_nat (length (concat (recv_buffer <$> rs))) <= maxLen →
  let '(c1, exited) := listenLoop rs c in
  let '(c2, out, n) := recv maxLen c1 in
  exited = false
  ∧ out = readBatch c ++ concat (recv_buffer <$> rs)
  ∧ n = Z.of_nat (length out)
  ∧ readBatch c2 = []
  ∧ state c2 = CONNECTED.
Proof.
  intros Hst Hrs Hfit Hlen.
  rewrite (listenLoop_batches rs c Hst Hrs Hfit).
  set (q := readBatch c ++ concat (recv_buffer <$> rs)).
  assert (Hq : Z.of_nat (length q)
               = batch_size c
                 + Z.of_nat (length (concat (recv_buffer <$> rs)))).
  { unfold q, batch_size. rewrite length_app. lia. }
  set (c1 := set_totalDownload _ (set_readBatch q c)).
  pose proof (batch_size_nonneg c) as Hnn.
  assert (Hsize : batch_size c1 = Z.of_nat (length q)) by reflexivity.
  assert (Hc1 : inbuf_ok c1) by (unfold inbuf_ok; rewrite Hsize; lia).
  assert (Hguard : negb (state_eqb (state c1) CONNECTED) && batch_empty c1
                   = false).
  { change (state c1) with (state c). rewrite Hst. reflexivity. }
  rewrite (recv_copy c1 maxLen Hc1 ltac:(lia) Hguard).
  rewrite Hsize, Z.min_l by lia.
  change (readBatch c1) with q.
  rewrite Nat2Z.id, firstn_all, drop_all.
  repeat split. exact Hst.
Qed.

Lemma received_batches_are_read_in_order_witness :
  let rs := [mkRecv 2 0 ["h"; "i"]%byte; mkRecv 1 0 ["!"%byte]] in
  let c := startClient create in
  state c = CONNECTED ∧ Forall batch rs
  ∧ batch_size c + Z.of_nat (length (concat (recv_buffer <$> rs))) <= MAX_INBUF
  ∧ batch_size c + Z.of_nat (length (concat (recv_buffer <$> rs))) <= 16
  ∧ (recv 16 (listenLoop rs c).1).1.2 = ["h"; "i"; "!"]%byte.
Proof.
  intros rs c.
  assert (H1 : state c = CONNECTED) by reflexivity.
  assert (H2 : Forall batch rs)
    by (repeat constructor; discriminate).
  assert (H3 : batch_size c
               + Z.of_nat (length (concat (recv_buffer <$> rs)))
               <= MAX_INBUF) by (vm_compute; discriminate).
  assert (H4 : batch_size c
               + Z.of_nat (length (concat (recv_buffer <$> rs))) <= 16)
    by (vm_compute; discriminate).
  pose proof (received_batches_are_read_in_order rs c 16 H1 H2 H3 H4) as H.
  split; [exact H1 | split; [exact H2 | split; [exact H3 | split; [exact H4 |]]]].
  revert H. destruct (listenLoop rs c) as [c1 exited]. cbn [fst].
  destruct (recv 16 c1) as [[c2 out] n]. cbn [fst snd].
  intros (_ & Hout & _). exact Hout.
Defined.

(** Two reads in a row hand out the same bytes, and leave the same
    connection, as one read of the two sizes together (a [size_t] as
    they are). *)
Theorem recv_in_two_parts (c : t) (a b : Z) :
  inbuf_ok c → 0 <= a → 0 <= b → a + b <= SIZE_MAX →
  (recv a c).1.2 ++ (recv b (recv a c).1.1).1.2 = (recv (a + b) c).1.2
  ∧ (recv b (recv a c).1.1).1.1 = (recv (a + b) c).1.1.
Proof.
  intros Hc Ha Hb _.
  destruct (negb (state_eqb (state c) CONNECTED) && batch_empty c) eqn:Hguard.
  - (* nothing to read and not CONNECTED: all three give -1 *)
    assert (Hr : ∀ k, recv k c = (c, [], -1))
      by (intros k; unfold recv; rewrite Hguard; reflexivity).
    rewrite !Hr. cbn [fst snd]. split; reflexivity.
  - rewrite (recv_copy c a Hc Ha Hguard).
    rewrite (recv_copy c (a + b) Hc ltac:(lia) Hguard). cbn [fst snd].
    set (n1 := Z.min (batch_size c) a).
    set (n := Z.min (batch_size c) (a + b)).
    set (c1 := set_readBatch (drop (Z.to_nat n1) (readBatch c)) c).
    pose proof (batch_size_nonneg c) as Hnn.
    assert (Hsize1 : batch_size c1 = batch_size c - n1).
    { unfold c1, batch_size, n1. cbn. rewrite length_drop.
      unfold batch_size. lia. }
    assert (Hc1 : inbuf_ok c1).
    { unfold inbuf_ok in *. rewrite Hsize1. unfold n1. lia. }
    destruct (negb (state_eqb (state c1) CONNECTED) && batch_empty c1)
      eqn:Hguard1.
    + (* the first read emptied the queue of a connection that is not
         CONNECTED: the second gives -1 *)
      assert (Hr1 : recv b c1 = (c1, [], -1))
        by (unfold recv; rewrite Hguard1; reflexivity).
      rewrite Hr1. cbn [fst snd].
      apply andb_true_iff in Hguard1 as [_ Hemp].
      apply batch_empty_nil in Hemp.
      assert (Hall : batch_size c1 = 0) by (apply batch_size_zero, Hemp).
      assert (Hn : n = n1) by (unfold n, n1 in *; lia).
      rewrite app_nil_r, Hn. split; reflexivity.
    + rewrite (recv_copy c1 b Hc1 Hb Hguard1). cbn [fst snd].
      set (n2 := Z.min (batch_size c1) b).
      assert (Hn : Z.to_nat n = (Z.to_nat n1 + Z.to_nat n2)%nat)
        by (unfold n, n1, n2 in *; lia).
      unfold c1. cbn [readBatch set_readBatch]. rewrite Hn.
      split.
      * apply take_take_drop.
      * unfold set_readBatch. cbn. rewrite drop_drop. reflexivity.
Qed.

Lemma recv_in_two_parts_witness :
  inbuf_ok residual ∧ 0 <= 1 ∧ 0 <= 5 ∧ 1 + 5 <= SIZE_MAX
  ∧ (recv 1 residual).1.2 ++ (recv 5 (recv 1 residual).1.1).1.2
    = ["a"; "b"; "c"]%byte.
Proof.
  assert (Hc : inbuf_ok residual) by (vm_compute; discriminate).
  assert (Ha : 0 <= 1) by lia.
  assert (Hb : 0 <= 5) by lia.
  assert (Hs : 1 + 5 <= SIZE_MAX) by (vm_compute; discriminate).
  split; [exact Hc | split; [exact Ha | split; [exact Hb | split; [exact Hs |]]]].
  rewrite (proj1 (recv_in_two_parts residual 1 5 Hc Ha Hb Hs)). reflexivity.
Defined.

End ReceiveLoop.

(** ** What [send] hands to the transport *)

Section Wire.

Import SocketConnection Transport.

(** One turn of the loop, for the bytes handed over. *)
Lemma sendWire_turn (buf : list byte) (len total : Z) (r : SendResult)
  (env : list SendResult) :
  total < len →
  sendWire buf len total (r :: env)
  = if fatal r then []
    else if retried r then sendWire buf len total env
    else take (Z.to_nat (sent_int r)) (drop (Z.to_nat total) buf)
           ++ sendWire buf len (size_t (total + size_t (sent_int r))) env.
Proof.
  intros Hlt. cbn [sendWire]. fold (sent_int r).
  destruct (total <? len) eqn:E; [| lia].
  unfold fatal, retried, SOCKET_ERROR.
  destruct (sent_int r =? -1) eqn:H1.
  - assert ((sent_int r =? 0) = false) as -> by lia. simpl.
    destruct (send_errno r =? EINTR); [reflexivity |].
    simpl. destruct ((send_errno r =? EAGAIN) || (send_errno r =? EWOULDBLOCK));
      reflexivity.
  - simpl. rewrite orb_false_r. destruct (sent_int r =? 0); reflexivity.
Qed.

Lemma sendWire_done (buf : list byte) (len total : Z) (env : list SendResult) :
  len <= total → sendWire buf len total env = [].
Proof.
  intros Hge. destruct env; cbn [sendWire];
    (destruct (total <? len) eqn:Hlt; [lia | reflexivity]).
Qed.

Lemma sendWire_prefix (buf : list byte) (env : list SendResult) :
  Z.of_nat (length buf) <= SIZE_MAX →
  ∀ total : Z,
    0 <= total <= Z.of_nat (length buf) →
    transport_ok (Z.of_nat (length buf)) total env →
    sendWire buf (Z.of_nat (length buf)) total env
      `prefix_of` drop (Z.to_nat total) buf.
Proof.
  intros Hmax. induction env as [| r env IH]; intros total Ht Hok.
  - cbn [sendWire]. destruct (_ <? _); apply prefix_nil.
  - destruct (Z.eq_dec total (Z.of_nat (length buf))) as [Heq | Hne].
    { rewrite sendWire_done by lia. apply prefix_nil. }
    destruct Hok as [[Hlo Hhi] Hok].
    pose proof (toSend_le _ total Ht Hmax) as Hts.
    rewrite sendWire_turn by lia.
    destruct (sent_int_cases r Hlo)
      as [[Hf Hp] | [(Hf & Hp & Hr) | (Hf & Hp & Hr & Hpos)]]; rewrite Hf.
    + apply prefix_nil.
    + rewrite Hr. rewrite Hp in Hok. apply IH; assumption.
    + rewrite Hr. rewrite Hp in Hok. unfold SIZE_MAX in *.
      rewrite (size_t_id (sent_int r)) by lia.
      rewrite size_t_id by lia.
      rewrite <- (take_drop (Z.to_nat (sent_int r))
                    (drop (Z.to_nat total) buf)) at 2.
      apply prefix_app. rewrite drop_drop, <- Z2Nat.inj_add by lia.
      apply IH; [lia | exact Hok].
Qed.

Lemma sendWire_flush (buf : list byte) (pre post : list SendResult) :
  Z.of_nat (length buf) <= SIZE_MAX →
  Forall (fun x => carries_on x = true) pre →
  ∀ total : Z,
    0 <= total → total + flushed pre = Z.of_nat (length buf) →
    sendWire buf (Z.of_nat (length buf)) total (pre ++ post)
    = drop (Z.to_nat total) buf.
Proof.
  intros Hmax Hpre. induction Hpre as [| x pre Hx Hpre IH];
    intros total Ht Hsum.
  - simpl in Hsum. rewrite Z.add_0_r in Hsum. subst total.
    rewrite sendWire_done, Nat2Z.id, drop_all by lia. reflexivity.
  - simpl in Hsum. pose proof (flushed_nonneg pre) as Hnn.
    destruct (Z.eq_dec total (Z.of_nat (length buf))) as [-> | Hne].
    { rewrite sendWire_done, Nat2Z.id, drop_all by lia. reflexivity. }
    assert (Hstep : 0 <= (if partial x then sent_int x else 0)).
    { unfold partial. destruct (Z.ltb_spec 0 (sent_int x)); lia. }
    rewrite <- app_comm_cons, sendWire_turn
      by (destruct (partial x); lia).
    rewrite (carries_on_not_fatal x Hx).
    unfold carries_on in Hx. destruct (retried x) eqn:Hr.
    + assert (partial x = false) as Hp.
      { unfold retried, partial, SOCKET_ERROR in *.
        apply andb_true_iff in Hr as [Hr _]. lia. }
      rewrite Hp in Hsum. apply IH; lia.
    + simpl in Hx. rewrite Hx in *. unfold partial, SIZE_MAX in *.
      rewrite (size_t_id (sent_int x)) by lia.
      rewrite size_t_id by lia.
      rewrite IH by lia.
      rewrite Z2Nat.inj_add, <- drop_drop by lia.
      apply take_drop.
Qed.

(** [send] hands the bytes of the buffer to the transport in order, each
    at most once: what the transport took is always a prefix of the
    buffer (a retry writes again from the same offset, a partial write
    is followed by a write of the rest), and it is the whole buffer when
    the call comes back with the count. *)
Theorem send_hands_over_a_prefix (buf : list byte) (env : list SendResult) :
  Z.of_nat (length buf) <= SIZE_MAX →
  transport_ok (Z.of_nat (length buf)) 0 env →
  sendWire buf (Z.of_nat (length buf)) 0 env `prefix_of` buf
  ∧ (flushes_all (Z.of_nat (length buf)) 0 env →
     sendWire buf (Z.of_nat (length buf)) 0 env = buf).
Proof.
  intros Hmax Hok. split.
  - apply (sendWire_prefix buf env Hmax 0); [lia | exact Hok].
  - intros (pre & post & -> & Hpre & Hsum).
    apply (sendWire_flush buf pre post Hmax Hpre 0); [lia | exact Hsum].
Qed.

Lemma send_hands_over_a_prefix_witness :
  let buf := ["h"; "e"; "l"; "l"; "o"]%byte in
  Z.of_nat (length buf) <= SIZE_MAX
  ∧ transport_ok (Z.of_nat (length buf)) 0 five_bytes
  ∧ sendWire buf (Z.of_nat (length buf)) 0 five_bytes = buf.
Proof.
  intros buf.
  assert (H1 : Z.of_nat (length buf) <= SIZE_MAX) by (vm_compute; discriminate).
  assert (H2 : transport_ok (Z.of_nat (length buf)) 0 five_bytes)
    by (vm_compute; intuition discriminate).
  split; [exact H1 | split; [exact H2 |]].
  apply (send_hands_over_a_prefix buf five_bytes H1 H2).
  exists five_bytes, []. repeat split. repeat constructor.
Defined.

(** A [send] that fails closes the connection but leaves the inbound
    queue as it was: the bytes buffered before can still be read, and
    every further [send] fails at once without reaching the transport. *)
Theorem failed_send_keeps_inbound_bytes
  (len : Z) (env : list SendResult) (c : t) (maxLen : Z)
  (len' : Z) (env' : list SendResult) :
  state c = CONNECTED → 0 <= len <= SIZE_MAX → stops_fatal len 0 env →
  inbuf_ok c → 0 <= maxLen →
  send len env c = Some (close false c, -1)
  ∧ state (close false c) = CLOSED
  ∧ readBatch (close false c) = readBatch c
  ∧ (recv maxLen (close false c)).1.2
    = take (Z.to_nat (Z.min (batch_size c) maxLen)) (readBatch c)
  ∧ (readBatch c = [] → (recv maxLen (close false c)).2 = -1)
  ∧ send len' env' (close false c) = Some (close false c, -1).
Proof.
  intros Hst Hlen (pre & r & post & -> & Hpre & Hf & Hsum) Hc Hmax.
  pose proof (close_state false c) as Hclosed.
  pose proof (close_readBatch false c) as Hq. cbn iota in Hq.
  split; [| split; [exact Hclosed | split; [exact Hq | split; [| split]]]].
  - unfold send. rewrite (proj2 (state_eqb_eq _ _) Hst). cbn [negb].
    apply sendLoop_fatal; try assumption; lia.
  - destruct (readBatch c) as [| x q] eqn:Hbatch.
    + unfold recv, batch_empty. rewrite Hclosed, Hq. cbn.
      rewrite take_nil. reflexivity.
    + assert (Hok : inbuf_ok (close false c))
        by (unfold inbuf_ok, batch_size in *; rewrite Hq, <- Hbatch; exact Hc).
      assert (Hguard : negb (state_eqb (state (close false c)) CONNECTED)
                       && batch_empty (close false c) = false).
      { unfold batch_empty. rewrite Hq. apply andb_false_r. }
      rewrite (recv_copy _ maxLen Hok Hmax Hguard). cbn [fst snd].
      unfold batch_size. rewrite Hq, Hbatch. reflexivity.
  - intros Hemp. unfold recv, batch_empty. rewrite Hclosed, Hq, Hemp.
    reflexivity.
  - unfold send. rewrite Hclosed. reflexivity.
Qed.

Lemma failed_send_keeps_inbound_bytes_witness :
  let c := mk 0 3 CONNECTED InListen ["a"; "b"; "c"]%byte [] in
  let env := [mkSend 2 0; mkSend (-1) EPIPE] in
  state c = CONNECTED ∧ 0 <= 5 <= SIZE_MAX ∧ stops_fatal 5 0 env
  ∧ inbuf_ok c ∧ 0 <= 8
  ∧ send 5 env c = Some (close false c, -1)
  ∧ (recv 8 (close false c)).1.2 = ["a"; "b"; "c"]%byte.
Proof.
  intros c env.
  assert (H1 : state c = CONNECTED) by reflexivity.
  assert (H2 : 0 <= 5 <= SIZE_MAX) by (unfold SIZE_MAX; lia).
  assert (H3 : stops_fatal 5 0 env).
  { exists [mkSend 2 0], (mkSend (-1) EPIPE), [].
    split; [reflexivity | split; [repeat constructor | split]];
      [reflexivity | vm_compute; reflexivity]. }
  assert (H4 : inbuf_ok c) by (vm_compute; discriminate).
  assert (H5 : 0 <= 8) by lia.
  destruct (failed_send_keeps_inbound_bytes 5 env c 8 1 [] H1 H2 H3 H4 H5)
    as (Hsend & _ & _ & Hrecv & _).
  split; [exact H1 | split; [exact H2 | split; [exact H3 | split; [exact H4
    | split; [exact H5 | split; [exact Hsend |]]]]]].
  rewrite Hrecv. reflexivity.
Defined.

(** After the [close()] that took a connection out of another state, the
    destructor makes no call on the transport handle and joins nothing:
    [close()] has released both.  After a [close()] on a connection that
    the receive loop had closed itself, the thread is still there to be
    joined, and the destructor does just that. *)
Theorem destroy_after_close (d : bool) (c : t) :
  (state c ≠ CLOSED →
   destroy (close d c) = close d c ∧ thread (close d c) = NoThread)
  ∧ (state c = CLOSED → thread c = Finished →
     thread (close d c) = Finished
     ∧ oscalls (close d c) = oscalls c
     ∧ oscalls (destroy (close d c)) = oscalls c ++ [Join]).
Proof.
  destruct c as [up down st th q os]. cbn [state thread oscalls].
  split.
  - intros Hst. destruct d, st, th; try contradiction; split; reflexivity.
  - intros -> ->. destruct d; repeat split.
Qed.

Lemma destroy_after_close_witness :
  state (startClient create) ≠ CLOSED
  ∧ oscalls (destroy (close false (startClient create)))
    = [Shutdown; CloseSocket; Shutdown; CloseSocket; Join]
  ∧ oscalls (destroy (close false residual))
    = [Shutdown; CloseSocket; Join].
Proof.
  assert (H1 : state (startClient create) ≠ CLOSED) by discriminate.
  destruct (destroy_after_close false (startClient create)) as [Ha _].
  destruct (destroy_after_close false residual) as [_ Hb].
  split; [exact H1 | split].
  - rewrite (proj1 (Ha H1)). reflexivity.
  - rewrite (proj2 (proj2 (Hb eq_refl eq_refl))). reflexivity.
Defined.

End Wire.

(** ** The registries of the facade *)

Section Facade.

Import SocketConnection Registry Listener.

Lemma close_again (c : t) : close false (close false c) = close false c.
Proof. apply (close_closed false), close_state. Qed.

(** What the loop of [closeSocket] leaves under each id. *)
Lemma closeClients_lookup (ids : list Z) :
  ∀ (conns : gmap Z SocketConnection.t) (id : Z),
    SocketTcpSServer.closeClients ids conns !! id
    = if decide (id ∈ ids) then close false <$> conns !! id
      else conns !! id.
Proof.
  unfold SocketTcpSServer.closeClients.
  induction ids as [| i ids IH]; intros conns id.
  - cbn [foldl]. rewrite decide_False by apply not_elem_of_nil. reflexivity.
  - cbn [foldl]. rewrite IH.
    assert (Hstep : (match conns !! i with
                     | Some client => <[i := close false client]> conns
                     | None => conns
                     end) !! id
                    = if decide (id = i) then close false <$> conns !! id
                      else conns !! id).
    { destruct (decide (id = i)) as [-> | Hne].
      - destruct (conns !! i) as [client |] eqn:Hi.
        + rewrite lookup_insert_eq. reflexivity.
        + rewrite Hi. reflexivity.
      - destruct (conns !! i); [rewrite lookup_insert_ne by congruence |];
          reflexivity. }
    rewrite Hstep.
    destruct (decide (id = i)) as [-> | Hne].
    + rewrite (decide_True (P := i ∈ i :: ids)) by (apply elem_of_cons; left; reflexivity).
      destruct (conns !! i) as [client |]; cbn;
        [rewrite close_again |]; destruct (decide (i ∈ ids)); reflexivity.
    + destruct (decide (id ∈ ids)) as [Hin | Hnin].
      * rewrite decide_True by (apply elem_of_cons; right; exact Hin). reflexivity.
      * rewrite decide_False; [reflexivity |].
        intros Hin. apply elem_of_cons in Hin as [? | ?]; contradiction.
Qed.

(** [closeSocket] of an open listener closes the connections that this
    listener accepted and that are still registered, keeping what they
    have buffered; it touches no other connection, and neither adds nor
    removes one.  The listener forgets its clients. *)
Theorem listener_close_closes_its_clients
  (srv : SocketTcpSServer.t) (conns : gmap Z SocketConnection.t) (id : Z) :
  SocketTcpSServer.isOpen srv = true →
  let '(srv', conns') := SocketTcpSServer.closeSocket srv conns in
  SocketTcpSServer.isOpen srv' = false
  ∧ SocketTcpSServer.clients srv' = []
  ∧ (id ∈ SocketTcpSServer.clients srv →
     conns' !! id = close false <$> conns !! id)
  ∧ (id ∈ SocketTcpSServer.clients srv →
     ∀ c', conns' !! id = Some c' →
           state c' = CLOSED
           ∧ ∃ c, conns !! id = Some c ∧ readBatch c' = readBatch c)
  ∧ (id ∉ SocketTcpSServer.clients srv → conns' !! id = conns !! id)
  ∧ (conns' !! id = None ↔ conns !! id = None).
Proof.
  unfold SocketTcpSServer.isOpen, SocketTcpSServer.closeSocket. intros ->.
  cbn [negb]. pose proof (closeClients_lookup (SocketTcpSServer.clients srv)
                            conns id) as Hlook.
  split; [reflexivity | split; [reflexivity |]].
  destruct (decide (id ∈ SocketTcpSServer.clients srv)) as [Hin | Hnin].
  - split; [intros _; exact Hlook | split; [| split]].
    + intros _ c' Hc'. rewrite Hlook in Hc'.
      destruct (conns !! id) as [c |]; [| discriminate].
      injection Hc' as <-. split; [apply close_state |].
      exists c. split; [reflexivity | apply (close_readBatch false)].
    + intros Hnin. contradiction.
    + rewrite Hlook. destruct (conns !! id); cbn; split; congruence.
  - split; [intros Hin; contradiction | split; [intros Hin; contradiction |]].
    split; [intros _; exact Hlook |]. rewrite Hlook. reflexivity.
Qed.

Lemma listener_close_closes_its_clients_witness :
  SocketTcpSServer.isOpen listener = true
  ∧ (SocketTcpSServer.closeSocket listener
       {[ 7 := startClient create; 9 := startClient create ]}).2 !! 7
    = Some (close false (startClient create))
  ∧ (SocketTcpSServer.closeSocket listener
       {[ 7 := startClient create; 9 := startClient create ]}).2 !! 9
    = Some (startClient create).
Proof.
  assert (H1 : SocketTcpSServer.isOpen listener = true) by reflexivity.
  pose proof (listener_close_closes_its_clients listener
                {[ 7 := startClient create; 9 := startClient create ]} 7 H1)
    as H7.
  pose proof (listener_close_closes_its_clients listener
                {[ 7 := startClient create; 9 := startClient create ]} 9 H1)
    as H9.
  revert H7 H9.
  destruct (SocketTcpSServer.closeSocket listener _) as [srv' conns'].
  cbn [snd]. intros (_ & _ & H7 & _) (_ & _ & _ & _ & H9 & _).
  split; [exact H1 | split].
  - rewrite H7 by (apply elem_of_cons; left; reflexivity). reflexivity.
  - rewrite H9; [reflexivity |]. cbn. intros Hin.
    apply elem_of_cons in Hin as [Hin | Hin]; [discriminate Hin |].
    apply elem_of_cons in Hin as [Hin | Hin]; [discriminate Hin |].
    apply elem_of_nil in Hin. exact Hin.
Defined.

End Facade.

(** ** Listeners and ids under [update()] *)

Section Housekeeping.

Import SocketConnection Registry Listener.

Lemma sweepServers_lookup (es : list (Z * SocketTcpSServer.t)) :
  ∀ (n : Network.t) (id : Z),
    NoDup es.*1 →
    (∀ k srv, (k, srv) ∈ es → Network.servers n !! k = Some srv) →
    Network.servers (Network.sweepServers es n) !! id
    = match (list_to_map es : gmap Z SocketTcpSServer.t) !! id with
      | Some srv => kept srv
      | None => Network.servers n !! id
      end.
Proof.
  induction es as [| [k srv] es IH]; intros n id Hnd Hes; [reflexivity |].
  apply NoDup_cons in Hnd as [Hk Hnd].
  assert (Hhead : Network.servers n !! k = Some srv)
    by (apply Hes, elem_of_cons; left; reflexivity).
  cbn [Network.sweepServers]. rewrite list_to_map_cons. unfold kept.
  destruct (SocketTcpSServer.isOpen srv) eqn:Ho; cbn [negb].
  - rewrite IH; [| exact Hnd
                 | intros k' srv' Hin; apply Hes, elem_of_cons; right;
                   exact Hin].
    destruct (decide (k = id)) as [-> | Hne].
    + rewrite lookup_insert_eq, (not_elem_of_list_to_map_1 es id Hk), Ho.
      exact Hhead.
    + rewrite lookup_insert_ne by exact Hne. reflexivity.
  - rewrite IH; [| exact Hnd |].
    + cbn [Network.set_servers Network.servers].
      destruct (decide (k = id)) as [-> | Hne].
      * rewrite lookup_insert_eq, (not_elem_of_list_to_map_1 es id Hk), Ho.
        apply lookup_delete_eq.
      * rewrite lookup_insert_ne by exact Hne.
        destruct (list_to_map es !! id); [reflexivity |].
        apply lookup_delete_ne, Hne.
    + intros k' srv' Hin. cbn [Network.set_servers Network.servers].
      rewrite lookup_delete_ne; [apply Hes, elem_of_cons; right; exact Hin |].
      intros ->. apply Hk. apply list_elem_of_fmap.
      exists (k', srv'). split; [reflexivity | exact Hin].
Qed.

(** The listeners after [update()]: each one that is open is found
    under its id as it was, each one that is not is gone. *)
Lemma update_servers_lookup (e : CurlRequests.UpdateEnv) (n : Network.t)
  (id : Z) :
  Network.getServer id (Network.update e n).1
  = Network.getServer id n ≫= kept.
Proof.
  unfold Network.update, Network.getServer.
  destruct (CurlRequests.update e (Network.requests n)) as [r acts].
  cbn [fst].
  set (n1 := Network.sweepConnections _ (Network.set_requests r n)).
  assert (Hsrv : Network.servers n1 = Network.servers n)
    by apply (proj2 (sweepConnections_rest _ (Network.set_requests r n))).
  rewrite sweepServers_lookup.
  - rewrite list_to_map_to_list, Hsrv.
    destruct (Network.servers n !! id); reflexivity.
  - apply NoDup_fst_map_to_list.
  - intros k srv Hin. apply elem_of_map_to_list, Hin.
Qed.

Lemma update_nextConnection (e : CurlRequests.UpdateEnv) (n : Network.t) :
  Network.nextConnection (Network.update e n).1 = Network.nextConnection n.
Proof.
  unfold Network.update.
  destruct (CurlRequests.update e (Network.requests n)) as [r acts].
  cbn [fst].
  assert (Hsv : ∀ es m, Network.nextConnection (Network.sweepServers es m)
                        = Network.nextConnection m).
  { induction es as [| [k srv] es IH]; intros m; [reflexivity |].
    cbn [Network.sweepServers]. destruct (negb _); rewrite IH; reflexivity. }
  assert (Hsc : ∀ es m, Network.nextConnection (Network.sweepConnections es m)
                        = Network.nextConnection m).
  { induction es as [| [k c] es IH]; intros m; [reflexivity |].
    rewrite sweepConnections_cons, IH. reflexivity. }
  rewrite Hsv, Hsc. reflexivity.
Qed.

Lemma drained_twice (c : t) : drained (drained c) = drained c.
Proof. reflexivity. Qed.

(** An [update()] made right after another, with nothing happening to
    the connections and listeners in between, changes neither registry:
    what had to be reclaimed was reclaimed by the first. *)
Theorem second_update_reclaims_nothing
  (e e' : CurlRequests.UpdateEnv) (n : Network.t) :
  Network.connections (Network.update e' (Network.update e n).1).1
  = Network.connections (Network.update e n).1
  ∧ Network.servers (Network.update e' (Network.update e n).1).1
    = Network.servers (Network.update e n).1.
Proof.
  split; apply map_eq; intros id.
  - change (Network.getConnection id
              (Network.update e' (Network.update e n).1).1
            = Network.getConnection id (Network.update e n).1).
    rewrite (update_lookup e'), update_lookup.
    destruct (Network.getConnection id n) as [c |]; [| reflexivity].
    cbn [mbind option_bind].
    destruct (swept c) as [c' |] eqn:Hs; [| reflexivity].
    cbn [mbind option_bind]. rewrite (swept_Some c c' Hs).
    unfold swept in *. rewrite drained_twice.
    destruct (reclaimed (drained c)); [discriminate | reflexivity].
  - change (Network.getServer id (Network.update e' (Network.update e n).1).1
            = Network.getServer id (Network.update e n).1).
    rewrite (update_servers_lookup e'), update_servers_lookup.
    destruct (Network.getServer id n) as [srv |]; [| reflexivity].
    cbn [mbind option_bind]. unfold kept.
    destruct (SocketTcpSServer.isOpen srv) eqn:Ho; [| reflexivity].
    cbn [mbind option_bind]. rewrite Ho. reflexivity.
Qed.

(** [update()] takes out of the registry exactly the listeners that are
    not open: a listener opened by [openServer] is found under its id
    across any number of updates, and is gone after the first
    [update()] that follows its [close()]. *)
Theorem listener_registered_while_open
  (port : Z) (n : Network.t) (es : list CurlRequests.UpdateEnv)
  (e : CurlRequests.UpdateEnv) :
  let '(n1, id) := openServer port n in
  let n2 := calls (CallUpdate <$> es) n1 in
  (∃ srv, Network.getServer id n2 = Some srv
          ∧ SocketTcpSServer.isOpen srv = true
          ∧ SocketTcpSServer.getPort srv = port)
  ∧ Network.getServer id (Network.update e (Network.closeServer id n2)).1
    = None.
Proof.
  unfold openServer. set (id := Network.nextServer n).
  set (srv := SocketTcpSServer.mk [] true true port []).
  set (n1 := Network.mk _ _ _ _ _ _ _).
  assert (H1 : Network.getServer id n1 = Some srv)
    by (unfold Network.getServer, n1; cbn; apply lookup_insert_eq).
  assert (Hkeep : ∀ l m, Network.getServer id m = Some srv →
                         Network.getServer id (calls (CallUpdate <$> l) m)
                         = Some srv).
  { induction l as [| x l IH]; intros m Hm; [exact Hm |].
    cbn [fmap list_fmap calls foldl]. apply IH. cbn [call].
    rewrite update_servers_lookup, Hm. reflexivity. }
  cbv zeta. split.
  - exists srv. split; [apply Hkeep, H1 | split; reflexivity].
  - rewrite update_servers_lookup.
    unfold Network.closeServer. rewrite (Hkeep es n1 H1).
    unfold SocketTcpSServer.closeSocket. cbn.
    unfold Network.getServer. cbn. rewrite lookup_insert_eq. reflexivity.
Qed.

End Housekeeping.

(** ** Connection ids *)

Section Ids.

Import SocketConnection Registry Listener.

Lemma ids_taken_cons (k : Call) (ks : list Call) :
  ids_taken (k :: ks) = (if takes_id k then 1 else 0) + ids_taken ks.
Proof.
  unfold ids_taken. rewrite filter_cons.
  destruct (takes_id k); [rewrite decide_True by reflexivity
                         | rewrite decide_False by discriminate];
    cbn [length]; lia.
Qed.

Lemma ids_taken_nonneg (ks : list Call) : 0 <= ids_taken ks.
Proof. unfold ids_taken. lia. Qed.

Lemma ids_taken_app (a b : list Call) :
  ids_taken (a ++ b) = ids_taken a + ids_taken b.
Proof. unfold ids_taken. rewrite filter_app, length_app. lia. Qed.

Lemma registers_takes_id (k : Call) : registers k = true → takes_id k = true.
Proof. destruct k; cbn; congruence. Qed.

(** Registering under the next id, below the last [u64id_t]. *)
Lemma register_ids_below (n : Network.t) (socket : SocketConnection.t)
  (rest : Network.t) :
  ids_below n → Network.nextConnection n + 1 < 2 ^ 64 →
  Network.connections rest
  = <[Network.nextConnection n := socket]> (Network.connections n) →
  Network.nextConnection rest = size_t (Network.nextConnection n + 1) →
  ids_below rest
  ∧ Network.nextConnection rest = Network.nextConnection n + 1.
Proof.
  intros [Hpos Hkeys] Hmax Hconn Hnext.
  rewrite size_t_id in Hnext by lia.
  split; [| exact Hnext]. split; [lia |].
  intros id Hsome. rewrite Hconn in Hsome. rewrite Hnext.
  destruct (decide (Network.nextConnection n = id)) as [<- | Hne]; [lia |].
  rewrite lookup_insert_ne in Hsome by exact Hne.
  specialize (Hkeys id Hsome). lia.
Qed.

(** A [connect] that throws uses the next id up and registers nothing. *)
Lemma skip_ids_below (n : Network.t) :
  ids_below n → Network.nextConnection n + 1 < 2 ^ 64 →
  ids_below (Network.connectThrows n)
  ∧ Network.nextConnection (Network.connectThrows n)
    = Network.nextConnection n + 1.
Proof.
  intros [Hpos Hkeys] Hmax. unfold Network.connectThrows.
  cbn [Network.nextConnection]. rewrite size_t_id by lia.
  split; [| reflexivity]. split; cbn [Network.nextConnection]; [lia |].
  intros id Hsome. cbn [Network.connections] in Hsome.
  specialize (Hkeys id Hsome). lia.
Qed.

(** A call that keeps the ids in use among those already in use. *)
Lemma shrink_ids_below (n rest : Network.t) :
  ids_below n →
  (∀ id, is_Some (Network.connections rest !! id) →
         is_Some (Network.connections n !! id)) →
  Network.nextConnection rest = Network.nextConnection n →
  ids_below rest.
Proof.
  intros [Hpos Hkeys] Hsub Hnext. split; rewrite Hnext; [exact Hpos |].
  intros id Hsome. apply Hkeys, Hsub, Hsome.
Qed.

Lemma call_ids_below (k : Call) (n : Network.t) :
  ids_below n →
  Network.nextConnection n + (if takes_id k then 1 else 0) < 2 ^ 64 →
  ids_below (call k n)
  ∧ Network.nextConnection (call k n)
    = Network.nextConnection n + (if takes_id k then 1 else 0).
Proof.
  intros Hn Hmax.
  destruct k; cbn [call takes_id Network.connectWith fst] in *.
  - apply (register_ids_below n (connect create)); [exact Hn | exact Hmax | |];
      reflexivity.
  - apply skip_ids_below; assumption.
  - apply (register_ids_below n socket); [exact Hn | exact Hmax | |];
      reflexivity.
  - rewrite Z.add_0_r. split; [| reflexivity].
    apply (shrink_ids_below n); [exact Hn | | reflexivity].
    intros id Hsome. exact Hsome.
  - rewrite Z.add_0_r. split; [| apply update_nextConnection].
    apply (shrink_ids_below n); [exact Hn | | apply update_nextConnection].
    intros id Hsome.
    change (is_Some (Network.getConnection id (Network.update e n).1))
      in Hsome.
    rewrite update_lookup in Hsome. unfold Network.getConnection in Hsome.
    destruct (Network.connections n !! id); [eexists; reflexivity |].
    destruct Hsome as [x Hx]. discriminate Hx.
  - rewrite Z.add_0_r. unfold Network.onConnection, Network.getConnection.
    destruct (Network.connections n !! id) as [c |] eqn:Hc;
      [| split; [exact Hn | reflexivity]].
    split; [| reflexivity].
    apply (shrink_ids_below n); [exact Hn | | reflexivity].
    intros id' Hsome. cbn in Hsome.
    destruct (decide (id = id')) as [<- | Hne];
      [rewrite Hc; eexists; reflexivity |].
    rewrite lookup_insert_ne in Hsome by exact Hne. exact Hsome.
  - rewrite Z.add_0_r. unfold Network.closeServer.
    destruct (Network.getServer id n) as [srv |];
      [| split; [exact Hn | reflexivity]].
    unfold SocketTcpSServer.closeSocket.
    destruct (negb (SocketTcpSServer.open srv)).
    + split; [| reflexivity].
      apply (shrink_ids_below n); [exact Hn | | reflexivity].
      intros id' Hsome. exact Hsome.
    + split; [| reflexivity].
      apply (shrink_ids_below n); [exact Hn | | reflexivity].
      intros id' Hsome. cbn in Hsome.
      rewrite closeClients_lookup in Hsome.
      destruct (Network.connections n !! id'); [eexists; reflexivity |].
      destruct (decide _); destruct Hsome as [x Hx]; discriminate Hx.
Qed.

Lemma calls_ids_below (ks : list Call) :
  ∀ n : Network.t,
    ids_below n →
    Network.nextConnection n + ids_taken ks < 2 ^ 64 →
    ids_below (calls ks n)
    ∧ Network.nextConnection (calls ks n)
      = Network.nextConnection n + ids_taken ks.
Proof.
  induction ks as [| k ks IH]; intros n Hn Hmax.
  - split; [exact Hn |]. unfold ids_taken. cbn. lia.
  - rewrite ids_taken_cons in *.
    pose proof (ids_taken_nonneg ks) as Hnn.
    destruct (call_ids_below k n Hn) as [Hn1 Hnext1].
    { destruct (takes_id k); lia. }
    destruct (IH (call k n) Hn1) as [Hn2 Hnext2].
    { rewrite Hnext1. destruct (takes_id k); lia. }
    change (calls (k :: ks) n) with (calls ks (call k n)).
    split; [exact Hn2 |].
    rewrite Hnext2, Hnext1. destruct (takes_id k); lia.
Qed.

(** As long as the id counter does not wrap, no connection id is given
    twice and none is reused, whatever is done in between (updates that
    reclaim connections, calls on connections, listeners closing,
    connects that throw): the id given by a registration is the first
    id plus the number of ids used up before it, by registrations and
    by connects that threw; it is not in the registry at that moment,
    and every registered id is below the next one to be given.  A
    connect that throws uses an id up and leaves the registry as it
    was. *)
Theorem connection_ids_are_fresh
  (pre : list Call) (k : Call) (post : list Call) (n : Network.t) :
  ids_below n →
  Network.nextConnection n + ids_taken (pre ++ k :: post) < 2 ^ 64 →
  takes_id k = true →
  let before := calls pre n in
  let id := Network.nextConnection before in
  id = Network.nextConnection n + ids_taken pre
  ∧ Network.getConnection id before = None
  ∧ Network.nextConnection (call k before) = id + 1
  ∧ (registers k = true →
     is_Some (Network.getConnection id (call k before)))
  ∧ (registers k = false →
     Network.getConnection id (call k before) = None)
  ∧ (∀ id', id' ≠ id →
            Network.getConnection id' (call k before)
            = Network.getConnection id' before)
  ∧ ids_below (calls (pre ++ k :: post) n).
Proof.
  intros Hn Hmax Hk before id.
  pose proof (ids_taken_nonneg pre) as Hpre.
  pose proof (ids_taken_nonneg post) as Hpost.
  assert (Hsplit : ids_taken (pre ++ k :: post)
                   = ids_taken pre + 1 + ids_taken post).
  { rewrite ids_taken_app, ids_taken_cons, Hk. lia. }
  destruct (calls_ids_below pre n Hn) as [Hbefore Hnext]; [lia |].
  fold before in Hbefore, Hnext. fold id in Hnext.
  assert (Hfree : Network.getConnection id before = None).
  { destruct Hbefore as [_ Hkeys].
    destruct (Network.getConnection id before) as [c |] eqn:Hc;
      [| reflexivity].
    assert (Hlt : 0 <= id < id)
      by (apply Hkeys; unfold Network.getConnection in Hc; rewrite Hc;
          eexists; reflexivity).
    lia. }
  split; [exact Hnext | split; [exact Hfree | split; [| split; [| split;
    [| split]]]]].
  - destruct (call_ids_below k before Hbefore) as [_ Hstep].
    { rewrite Hk. fold id. lia. }
    rewrite Hstep, Hk. reflexivity.
  - intros Hreg.
    destruct k; try discriminate Hreg;
      cbn [call Network.connectWith fst];
      unfold Network.getConnection; cbn; rewrite lookup_insert_eq;
      eexists; reflexivity.
  - intros Hreg.
    destruct k; try discriminate Hreg; try discriminate Hk.
    exact Hfree.
  - intros id' Hne.
    destruct k; try discriminate Hk; cbn [call Network.connectWith fst];
      unfold Network.getConnection; cbn;
      try reflexivity;
      apply lookup_insert_ne; intros Heq; apply Hne; symmetry; exact Heq.
  - apply (calls_ids_below (pre ++ k :: post) n Hn). exact Hmax.
Qed.

Lemma connection_ids_are_fresh_witness :
  let n := Network.create 1 1 in
  let pre := [CallConnect; CallUpdate quiet;
              CallOnConnection 1 (OpConnectStep (-1)); CallUpdate quiet;
              CallConnectThrows] in
  let k := CallAddConnection (startClient create) in
  ids_below n
  ∧ Network.nextConnection n + ids_taken (pre ++ [k]) < 2 ^ 64
  ∧ takes_id k = true
  ∧ Network.nextConnection (calls pre n) = 3
  ∧ Network.getConnection 1 (calls pre n) = None
  ∧ Network.getConnection 2 (calls pre n) = None
  ∧ Network.getConnection 3 (calls pre n) = None
  ∧ is_Some (Network.getConnection 3 (calls (pre ++ [k]) n)).
Proof.
  intros n pre k.
  assert (H1 : ids_below n).
  { split; [cbn; lia |]. intros id [x Hx]. cbn in Hx.
    rewrite lookup_empty in Hx. discriminate Hx. }
  assert (H2 : Network.nextConnection n + ids_taken (pre ++ [k]) < 2 ^ 64)
    by (vm_compute; reflexivity).
  assert (H3 : takes_id k = true) by reflexivity.
  destruct (connection_ids_are_fresh pre k [] n H1 H2 H3)
    as (Hid & Hfree & _ & Hreg & _).
  assert (Hnext : Network.nextConnection (calls pre n) = 3)
    by (rewrite Hid; vm_compute; reflexivity).
  split; [exact H1 | split; [exact H2 | split; [exact H3
    | split; [exact Hnext | split; [| split; [| split]]]]]].
  - vm_compute. reflexivity.
  - vm_compute. reflexivity.
  - rewrite <- Hnext. exact Hfree.
  - unfold calls. rewrite foldl_app. cbn [foldl]. fold (calls pre n).
    rewrite <- Hnext. apply Hreg. reflexivity.
Defined.

End Ids.

(** ** Client connections and accepted connections *)

Section Handshake.

Import SocketConnection Registry Listener.

Lemma swept_keeps (c : t) :
  state c ≠ CLOSED → swept c = Some (drained c).
Proof.
  intros Hst. unfold swept, reclaimed, getState.
  change (state (drained c)) with (state c).
  apply state_eqb_neq in Hst. rewrite Hst, andb_false_r. reflexivity.
Qed.

(** A client connection is registered by [Network::connect] before its
    handshake: its id is valid at once, [recv] and [send] on it give -1,
    and [update()] keeps it for as long as the handshake is pending.
    When the handshake fails the connection is [CLOSED], its thread body
    has returned, and the next [update()] reclaims it; when it succeeds
    the connection is [CONNECTED] with its thread in the receive loop,
    and stays registered. *)
Theorem client_registered_before_handshake
  (n : Network.t) (es : list CurlRequests.UpdateEnv) (res : Z)
  (e : CurlRequests.UpdateEnv) (maxLen len : Z) (env : list SendResult) :
  let '(n1, id) := Network.connect n in
  let pending := SocketConnection.connect create in
  let n2 := calls (CallUpdate <$> es) n1 in
  let n3 := Network.onConnection id (OpConnectStep res) n2 in
  Network.getConnection id n2 = Some pending
  ∧ state pending = INITIAL
  ∧ (recv maxLen pending).2 = -1
  ∧ send len env pending = Some (pending, -1)
  ∧ (res < 0 →
     (∃ c, Network.getConnection id n3 = Some c
           ∧ state c = CLOSED ∧ thread c = Finished)
     ∧ Network.getConnection id (Network.update e n3).1 = None)
  ∧ (0 <= res →
     ∃ c, Network.getConnection id (Network.update e n3).1 = Some c
          ∧ state c = CONNECTED ∧ thread c = InListen).
Proof.
  unfold Network.connect. set (id := Network.nextConnection n).
  set (pending := SocketConnection.connect create).
  set (n1 := Network.mk _ _ _ _ _ _ _).
  assert (H1 : Network.getConnection id n1 = Some pending)
    by (unfold Network.getConnection, n1; cbn; apply lookup_insert_eq).
  assert (Hkeep : ∀ l m, Network.getConnection id m = Some pending →
                         Network.getConnection id (calls (CallUpdate <$> l) m)
                         = Some pending).
  { induction l as [| x l IH]; intros m Hm; [exact Hm |].
    cbn [fmap list_fmap calls foldl]. apply IH. cbn [call].
    rewrite update_lookup, Hm. reflexivity. }
  cbv zeta. pose proof (Hkeep es n1 H1) as H2.
  set (n2 := calls (CallUpdate <$> es) n1) in *.
  assert (H3 : Network.getConnection id
                 (Network.onConnection id (OpConnectStep res) n2)
               = Some (connectStep res pending)).
  { unfold Network.onConnection. rewrite H2.
    unfold Network.getConnection. cbn. apply lookup_insert_eq. }
  split; [exact H2 | split; [reflexivity | split; [reflexivity
    | split; [reflexivity | split]]]].
  - intros Hres. rewrite update_lookup, H3. cbn [mbind option_bind].
    assert (Hstep : connectStep res pending
                    = mk 0 0 CLOSED Finished [] [CloseSocket]).
    { unfold connectStep, connectSocket, pending. cbn.
      assert ((res <? 0) = true) as -> by lia. reflexivity. }
    rewrite Hstep. split; [| reflexivity].
    eexists. repeat split.
  - intros Hres. rewrite update_lookup, H3. cbn [mbind option_bind].
    assert (Hstep : connectStep res pending
                    = mk 0 0 CONNECTED InListen [] []).
    { unfold connectStep, connectSocket, pending. cbn.
      assert ((res <? 0) = false) as -> by lia. reflexivity. }
    rewrite Hstep. eexists. repeat split.
Qed.

Lemma client_registered_before_handshake_witness :
  Network.getConnection 1
    (Network.update quiet
       (Network.onConnection 1 (OpConnectStep (-1))
          (calls [CallUpdate quiet]
             (Network.connect (Network.create 1 1)).1))).1
  = None.
Proof.
  pose proof (client_registered_before_handshake (Network.create 1 1)
                [quiet] (-1) quiet 16 4 []) as H.
  cbv zeta in H. cbn [Network.connect fst snd] in H.
  destruct H as (_ & _ & _ & _ & H & _).
  destruct (H ltac:(lia)) as [_ Hgone]. exact Hgone.
Defined.

(** A turn of the accept loop of an open listener.  An accepted client
    gets the next connection id, under which nothing was registered; it
    is registered [CONNECTED] with its receive thread started, the id is
    appended to the clients of the listener and passed to the handler,
    no other connection is touched, and a later [close()] of the
    listener closes it.  An interrupted [accept] changes nothing and the
    loop goes on. *)
Theorem accepted_client_is_registered
  (r : AcceptResult) (srv : SocketTcpSServer.t) (n : Network.t) :
  SocketTcpSServer.isOpen srv = true → ids_below n →
  (static_cast_int (accept_fd r) ≠ SOCKET_ERROR →
   ∃ srv' n',
     let id := Network.nextConnection n in
     acceptTurn r srv n = Some (srv', n', [id], Continue)
     ∧ Network.getConnection id n = None
     ∧ Network.getConnection id n' = Some (startClient create)
     ∧ (∀ id', id' ≠ id →
               Network.getConnection id' n' = Network.getConnection id' n)
     ∧ SocketTcpSServer.clients srv' = SocketTcpSServer.clients srv ++ [id]
     ∧ SocketTcpSServer.isOpen srv' = true
     ∧ (SocketTcpSServer.closeSocket srv' (Network.connections n')).2 !! id
       = Some (close false (startClient create)))
  ∧ (static_cast_int (accept_fd r) = SOCKET_ERROR → accept_errno r = EINTR →
     acceptTurn r srv n = Some (srv, n, [], Continue)).
Proof.
  unfold SocketTcpSServer.isOpen. intros Hopen [_ Hkeys].
  unfold acceptTurn. rewrite Hopen. cbn [negb]. split.
  - intros Hfd. apply Z.eqb_neq in Hfd. rewrite Hfd.
    unfold Network.addConnection. cbv zeta.
    set (id := Network.nextConnection n).
    assert (Hfree : Network.getConnection id n = None).
    { destruct (Network.getConnection id n) as [c |] eqn:Hc; [| reflexivity].
      assert (0 <= id < id)
        by (apply Hkeys; unfold Network.getConnection in Hc; rewrite Hc;
            eexists; reflexivity).
      lia. }
    eexists _, _.
    split; [reflexivity | split; [exact Hfree |]].
    unfold Network.getConnection. cbn [Network.connections].
    split; [apply lookup_insert_eq |].
    split; [intros id' Hne; apply lookup_insert_ne; congruence |].
    split; [reflexivity | split; [reflexivity |]].
    unfold SocketTcpSServer.closeSocket.
    cbn [SocketTcpSServer.open negb snd SocketTcpSServer.clients].
    rewrite closeClients_lookup, lookup_insert_eq.
    rewrite decide_True; [reflexivity |].
    apply elem_of_app. right. apply elem_of_cons. left. reflexivity.
  - intros -> ->. reflexivity.
Qed.

Lemma accepted_client_is_registered_witness :
  let n := Network.create 1 1 in
  SocketTcpSServer.isOpen listener = true ∧ ids_below n
  ∧ static_cast_int (accept_fd (mkAccept 5 0)) ≠ SOCKET_ERROR
  ∧ (∃ srv' n',
       acceptTurn (mkAccept 5 0) listener n = Some (srv', n', [1], Continue)
       ∧ Network.getConnection 1 n' = Some (startClient create))
  ∧ acceptTurn (mkAccept (-1) EINTR) listener n
    = Some (listener, n, [], Continue).
Proof.
  intros n.
  assert (H1 : SocketTcpSServer.isOpen listener = true) by reflexivity.
  assert (H2 : ids_below n).
  { split; [cbn; lia |]. intros id [x Hx]. cbn in Hx.
    rewrite lookup_empty in Hx. discriminate Hx. }
  assert (H3 : static_cast_int (accept_fd (mkAccept 5 0)) ≠ SOCKET_ERROR)
    by discriminate.
  destruct (accepted_client_is_registered (mkAccept 5 0) listener n H1 H2)
    as [Ha _].
  destruct (accepted_client_is_registered (mkAccept (-1) EINTR) listener n
              H1 H2) as [_ Hb].
  split; [exact H1 | split; [exact H2 | split; [exact H3 | split]]].
  - destruct (Ha H3) as (srv' & n' & Hturn & _ & Hget & _).
    exists srv', n'. split; [exact Hturn | exact Hget].
  - apply Hb; reflexivity.
Defined.

End Handshake.

(** ** More on the request queue *)

Section Pipeline.

Import CurlRequests Queueing.

Lemma processRequest_totals (r : Request) (p : PerformResult) (s : t) :
  totalUpload (processRequest r p s).1 = totalUpload s
  ∧ totalDownload (processRequest r p s).1 = totalDownload s.
Proof.
  unfold processRequest. repeat case_match; split; reflexivity.
Qed.

Lemma startNext_totals (p : PerformResult) (s : t) :
  totalUpload (startNext p s).1 = totalUpload s
  ∧ totalDownload (startNext p s).1 = totalDownload s.
Proof.
  unfold startNext. destruct (url_empty (url s)); [| split; reflexivity].
  destruct (requests s) as [| r rest]; [split; reflexivity |].
  exact (processRequest_totals r p
           (mk (curl s) (totalUpload s) (totalDownload s) (onResponse s)
               (onReject s) (buffer s) (url s) rest)).
Qed.

(** The traffic totals of the request queue change only in an
    [update()] that reads status 200: the upload total grows by the
    request size and the download total by the header size (each when
    libcurl gives it) plus the length of the body.  A rejected request,
    a failed poll, a submission or a start never change them. *)
Theorem http_totals_grow_only_on_200
  (e : UpdateEnv) (s : t) (sub : Submission) (p : PerformResult) :
  let ok200 :=
    match env_msg e with
    | Some m => (perform_code (env_perform e) =? CURLM_OK)
                && (msg_response m =? HTTP_OK)
    | None => false
    end in
  (ok200 = true →
   getTotalUpload (update e s).1
   = add_info (totalUpload s) (env_request_size e)
   ∧ getTotalDownload (update e s).1
     = size_t (add_info (totalDownload s) (env_header_size e)
               + Z.of_nat (length (buffer s
                                   ++ concat (written (env_perform e))))))
  ∧ (ok200 = false →
     getTotalUpload (update e s).1 = getTotalUpload s
     ∧ getTotalDownload (update e s).1 = getTotalDownload s)
  ∧ getTotalUpload (submit sub p s).1 = getTotalUpload s
  ∧ getTotalDownload (submit sub p s).1 = getTotalDownload s.
Proof.
  cbv zeta. unfold getTotalUpload, getTotalDownload.
  assert (Hupd : totalUpload (update e s).1 = totalUpload (poll e s).1.1
                 ∧ totalDownload (update e s).1
                   = totalDownload (poll e s).1.1).
  { unfold update. destruct (poll e s) as [[s1 a1] returned].
    destruct returned; [split; reflexivity |].
    pose proof (startNext_totals (env_start e) s1) as H.
    destruct (startNext (env_start e) s1) as [s2 a2]. exact H. }
  destruct Hupd as [-> ->].
  split; [| split].
  - unfold poll. destruct (env_msg e) as [m |]; [| discriminate].
    intros H. apply andb_true_iff in H as [Hok H200].
    rewrite Hok. cbn [negb]. unfold handleMessage. rewrite H200.
    cbn [fst snd totalUpload totalDownload buffer].
    rewrite foldl_write_callback. split; reflexivity.
  - unfold poll. intros H.
    destruct (perform_code (env_perform e) =? CURLM_OK) eqn:Hok;
      cbn [negb]; [| split; reflexivity].
    destruct (env_msg e) as [m |]; [| split; reflexivity].
    cbn in H. unfold handleMessage. rewrite H. split; reflexivity.
  - rewrite submit_request_of. apply processRequest_totals.
Qed.

Lemma http_totals_grow_only_on_200_witness :
  getTotalUpload (update (done 200) three_active).1 = 80
  ∧ getTotalDownload (update (done 200) three_active).1 = 120
  ∧ getTotalUpload (update (done 404) three_active).1 = 0.
Proof.
  destruct (http_totals_grow_only_on_200 (done 200) three_active
              second_get (mkPerform [] CURLM_OK)) as (H200 & _ & _).
  destruct (http_totals_grow_only_on_200 (done 404) three_active
              second_get (mkPerform [] CURLM_OK)) as (_ & H404 & _).
  destruct (H200 eq_refl) as [Hu Hd]. destruct (H404 eq_refl) as [Hu' _].
  rewrite Hu, Hd, Hu'. repeat split.
Defined.

(** One [update()] that reads a message starts the head of the queue. *)
Lemma update_completing (e : UpdateEnv) (s : t) :
  completing e →
  started (update e s).2
  = match requests s with r :: _ => [req_url r] | [] => [] end
  ∧ requests (update e s).1 = tail (requests s).
Proof.
  intros [Hok [m Hmsg]]. unfold update, poll. rewrite Hok, Hmsg.
  cbn [negb Z.eqb]. rewrite Z.eqb_refl. cbn [negb].
  set (s0 := mk _ _ _ _ _ _ _ _).
  assert (Hh : url (handleMessage e m s0).1 = EmptyString
               ∧ requests (handleMessage e m s0).1 = requests s
               ∧ started (handleMessage e m s0).2 = []).
  { unfold handleMessage.
    destruct (msg_response m =? HTTP_OK); cbn [fst snd url requests];
      (split; [reflexivity | split; [reflexivity |]]);
      destruct (msg m =? CURLMSG_DONE);
      [destruct (onResponse s0) | destruct (onResponse s0)
      | destruct (onReject s0) | destruct (onReject s0)]; reflexivity. }
  destruct (handleMessage e m s0) as [s1 a1]. cbn [fst snd] in Hh.
  destruct Hh as (Hurl & Hreq & Hst).
  unfold startNext. rewrite Hurl. cbn [url_empty]. rewrite Hreq.
  destruct (requests s) as [| r rest].
  - cbn [fst snd]. rewrite app_nil_r. split; [exact Hst | exact Hreq].
  - unfold processRequest. cbn [url url_empty negb].
    unfold started in *. 
    destruct (negb (perform_code (env_start e) =? CURLM_OK));
      cbn [fst snd requests]; rewrite omap_app, Hst; split; try reflexivity.
    cbn. rewrite omap_app.
    destruct (req_onReject r); reflexivity.
Qed.

(** The queue is served first in, first out: over updates that each
    read a message, one queued request is started per update, in the
    order of the queue, whether its own start succeeds or not, and the
    requests not yet started stay queued in their order. *)
Theorem queued_requests_start_in_order (es : list UpdateEnv) (s : t) :
  Forall completing es →
  started (updates es s).2
  = req_url <$> take (length es) (requests s)
  ∧ requests (updates es s).1 = drop (length es) (requests s).
Proof.
  intros Hes. revert s.
  induction Hes as [| e es He _ IH]; intros s.
  - cbn. rewrite drop_0. split; reflexivity.
  - cbn [updates length].
    destruct (update_completing e s He) as [Hst Hreq].
    destruct (update e s) as [s1 a1]. cbn [fst snd] in *.
    specialize (IH s1).
    destruct (updates es s1) as [s2 a2]. cbn [fst snd] in *.
    destruct IH as [Hst2 Hreq2].
    unfold started in *. rewrite omap_app, Hst, Hst2, Hreq2, Hreq.
    destruct (requests s) as [| r rest]; cbn.
    + rewrite take_nil, drop_nil. split; reflexivity.
    + split; reflexivity.
Qed.

Lemma queued_requests_start_in_order_witness :
  Forall completing [done 404; done 200]
  ∧ started (updates [done 404; done 200]
               (submitAll three_queued three_active).1).2
    = ["http://h/b"; "http://h/c"]%string.
Proof.
  assert (H1 : Forall completing [done 404; done 200]).
  { repeat constructor; eexists; reflexivity. }
  split; [exact H1 |].
  rewrite (proj1 (queued_requests_start_in_order [done 404; done 200]
                    (submitAll three_queued three_active).1 H1)).
  reflexivity.
Defined.

(** The slot keeps the callbacks of a request after it has ended: when
    a request has ended with status 200 and nothing was queued, an
    [update()] whose [curl_multi_perform] fails invokes the [onReject]
    of that same request with 502, after its [onResponse]. *)
Theorem failed_poll_rejects_the_last_request
  (s : t) (e1 e2 : UpdateEnv) (m : CURLMsg) :
  requests s = [] →
  perform_code (env_perform e1) = CURLM_OK → env_msg e1 = Some m →
  msg_response m = HTTP_OK → failing e2 →
  callbacks (updates [e1; e2] s).2
  = call_onResponse (onResponse s)
      (buffer s ++ concat (written (env_perform e1)))
    ++ call_onReject (onReject s) HTTP_BAD_GATEWAY.
Proof.
  intros Hq Hok Hmsg H200 Hfail. unfold failing in Hfail.
  apply Z.eqb_neq in Hfail.
  cbn [updates]. unfold update at 1, poll at 1.
  rewrite Hok, Hmsg, Z.eqb_refl. cbn [negb].
  unfold handleMessage. rewrite H200, Z.eqb_refl.
  cbn [fst snd totalUpload totalDownload onResponse onReject buffer url
       requests curl].
  unfold startNext. cbn [url url_empty requests]. rewrite Hq.
  cbn [fst snd]. unfold update, poll. rewrite Hfail.
  cbn [negb fst snd onReject].
  rewrite foldl_write_callback, !app_nil_r, !callbacks_app.
  rewrite callbacks_call_onResponse, callbacks_call_onReject.
  destruct (msg m =? CURLMSG_DONE); cbn; rewrite !app_nil_r; reflexivity.
Qed.

Lemma failed_poll_rejects_the_last_request_witness :
  let s := (processRequest page (mkPerform [["o"; "k"]%byte] CURLM_OK)
              create).1 in
  let e2 := mkEnv (mkPerform [] 1) None None None (mkPerform [] CURLM_OK) in
  requests s = [] ∧ failing e2
  ∧ callbacks (updates [done 200; e2] s).2
    = [CallOnResponse 1%nat ["o"; "k"]%byte; CallOnReject 2%nat 502].
Proof.
  intros s e2.
  assert (H1 : requests s = []) by reflexivity.
  assert (H2 : failing e2) by discriminate.
  split; [exact H1 | split; [exact H2 |]].
  rewrite (failed_poll_rejects_the_last_request s (done 200) e2
             (mkMsg CURLMSG_DONE 0 200) H1 eq_refl eq_refl eq_refl H2).
  reflexivity.
Defined.

(** First in, first out holds among the requests that wait: a request
    submitted while no request is active is started at once, also when
    older requests are still queued, which happens after a queued
    request failed to start.  The older requests stay queued behind
    it. *)
Theorem idle_submission_overtakes_the_queue
  (s : t) (e : UpdateEnv) (r1 : Request) (rest : list Request)
  (sub : Submission) (p : PerformResult) :
  requests s = r1 :: rest → completing e →
  perform_code (env_start e) ≠ CURLM_OK → perform_code p = CURLM_OK →
  let s1 := (update e s).1 in
  let '(s2, a2) := submit sub p s1 in
  active s1 = false ∧ requests s1 = rest
  ∧ a2 = [AddHandle (configure (request_of sub) (curl s1))]
  ∧ url s2 = req_url (request_of sub)
  ∧ onResponse s2 = req_onResponse (request_of sub)
  ∧ onReject s2 = req_onReject (request_of sub)
  ∧ requests s2 = rest.
Proof.
  intros Hq [Hok [m Hmsg]] Hstart Hp. cbv zeta.
  assert (Hs1 : url (update e s).1 = EmptyString
                ∧ requests (update e s).1 = rest).
  { unfold update, poll. rewrite Hok, Hmsg, Z.eqb_refl. cbn [negb].
    set (s0 := mk _ _ _ _ _ _ _ _).
    assert (Hh : url (handleMessage e m s0).1 = EmptyString
                 ∧ requests (handleMessage e m s0).1 = requests s).
    { unfold handleMessage.
      destruct (msg_response m =? HTTP_OK); split; reflexivity. }
    destruct (handleMessage e m s0) as [sh ah]. cbn [fst] in Hh.
    destruct Hh as [Hurl Hreq].
    unfold startNext. rewrite Hurl. cbn [url_empty]. rewrite Hreq, Hq.
    rewrite processRequest_failed by (exact Hstart || reflexivity).
    split; reflexivity. }
  destruct Hs1 as [Hurl Hrest].
  assert (Hidle : url_empty (url (update e s).1) = true)
    by (rewrite Hurl; reflexivity).
  rewrite submit_request_of, (processRequest_idle _ p _ Hidle Hp).
  unfold active. rewrite Hidle.
  cbn [negb fst snd url onResponse onReject requests].
  repeat split; assumption || reflexivity.
Qed.

Lemma idle_submission_overtakes_the_queue_witness :
  let s := (submitAll three_queued three_active).1 in
  let e := mkEnv (mkPerform [] CURLM_OK) (Some (mkMsg CURLMSG_DONE 0 404))
             None None (mkPerform [] 1) in
  completing e ∧ perform_code (env_start e) ≠ CURLM_OK
  ∧ started (submit second_get (mkPerform [] CURLM_OK) (update e s).1).2
    = ["http://h/b"]%string
  ∧ req_url <$> requests
      (submit second_get (mkPerform [] CURLM_OK) (update e s).1).1
    = ["http://h/c"]%string.
Proof.
  intros s e.
  assert (H1 : completing e) by (split; [reflexivity | eexists; reflexivity]).
  assert (H2 : perform_code (env_start e) ≠ CURLM_OK) by discriminate.
  pose proof (idle_submission_overtakes_the_queue s e
                (request_of (Post "http://h/b" "{}" (Some 1%nat) None 0))
                [request_of (Get "http://h/c" (Some 2%nat) (Some 2%nat) 0)]
                second_get (mkPerform [] CURLM_OK) eq_refl H1 H2 eq_refl)
    as H.
  cbv zeta in H. revert H.
  destruct (submit second_get (mkPerform [] CURLM_OK) (update e s).1)
    as [s2 a2]. cbn [fst snd].
  intros (_ & _ & Ha2 & _ & _ & _ & Hreq).
  split; [exact H1 | split; [exact H2 | split]].
  - rewrite Ha2. reflexivity.
  - rewrite Hreq. reflexivity.
Defined.

End Pipeline.

(** ** Ports *)

Section Ports.

Import Sockaddr.

Lemma land_shiftl_low (l h : Z) :
  0 <= h < 2 ^ 8 → Z.land (Z.shiftl l 8) h = 0.
Proof.
  intros Hh. apply Z.bits_inj'. intros n Hn.
  rewrite Z.land_spec, Z.bits_0.
  destruct (Z.ltb_spec n 8) as [Hlow | Hhigh].
  - rewrite Z.shiftl_spec_low by lia. reflexivity.
  - destruct (Z.eq_dec h 0) as [-> | Hpos].
    + rewrite Z.bits_0. apply andb_false_r.
    + rewrite (Z.bits_above_log2 h n); [apply andb_false_r | lia |].
      assert (Z.log2 h < 8) by (apply Z.log2_lt_pow2; lia). lia.
Qed.

(** The byte swap, in arithmetic. *)
Lemma swap_bytes (x : Z) :
  0 <= x < 2 ^ 16 →
  Z.lor (Z.shiftl (Z.land x 255) 8) (Z.shiftr x 8)
  = 256 * (x mod 256) + x / 256.
Proof.
  intros Hx.
  assert (Hland : Z.land x 255 = x mod 256)
    by (change 255 with (Z.ones 8); rewrite Z.land_ones by lia; reflexivity).
  assert (Hhigh : 0 <= x / 256 < 2 ^ 8).
  { split; [apply Z.div_pos; lia |].
    apply Z.div_lt_upper_bound; lia. }
  rewrite Z.shiftr_div_pow2 by lia. change (2 ^ 8) with 256 in *.
  rewrite <- Z.lxor_lor, <- Z.add_nocarry_lxor
    by (apply land_shiftl_low; exact Hhigh).
  rewrite Z.shiftl_mul_pow2, Hland by lia. change (2 ^ 8) with 256. lia.
Qed.

Lemma htons_range (le : bool) (x : Z) : 0 <= htons le x < 2 ^ 16.
Proof.
  unfold htons, uint16.
  pose proof (Z.mod_pos_bound x (2 ^ 16) ltac:(lia)) as Hx.
  destruct le; [| exact Hx].
  rewrite swap_bytes by exact Hx.
  pose proof (Z.mod_pos_bound (x mod 2 ^ 16) 256 ltac:(lia)).
  assert (0 <= x mod 2 ^ 16 / 256 < 256).
  { split; [apply Z.div_pos; lia | apply Z.div_lt_upper_bound; lia]. }
  lia.
Qed.

(** The port given to [SocketConnection::connect] is the one that
    [getPort()] reports, on a host of either byte order, for every port
    of 16 bits; a larger or negative [int] is reported reduced modulo
    2^16.  On a little-endian host the [sin_port] in between holds the
    two bytes of the port swapped. *)
Theorem port_round_trip (little_endian : bool) (port : Z) :
  getPort little_endian (sin_port little_endian port) = port mod 2 ^ 16
  ∧ (0 <= port < 2 ^ 16 →
     getPort little_endian (sin_port little_endian port) = port)
  ∧ (0 <= port < 2 ^ 16 →
     sin_port true port = 256 * (port mod 256) + port / 256).
Proof.
  assert (Hswap : ∀ x, 0 <= x < 2 ^ 16 →
                       htons true (htons true x) = x).
  { intros x Hx. pose proof (htons_range true x) as Hr.
    unfold htons, uint16 in *.
    rewrite (Z.mod_small x) in * by exact Hx.
    rewrite (Z.mod_small _ (2 ^ 16)) by exact Hr.
    rewrite (swap_bytes x Hx) in *.
    rewrite swap_bytes by exact Hr.
    assert (Hl : 0 <= x mod 256 < 256) by (apply Z.mod_pos_bound; lia).
    assert (Hh : 0 <= x / 256 < 256)
      by (split; [apply Z.div_pos; lia | apply Z.div_lt_upper_bound; lia]).
    replace ((256 * (x mod 256) + x / 256) mod 256) with (x / 256)
      by (rewrite Z.add_comm, Z.mul_comm, Z_mod_plus_full, Z.mod_small;
          lia).
    replace ((256 * (x mod 256) + x / 256) / 256) with (x mod 256)
      by (rewrite Z.add_comm, Z.mul_comm, Z_div_plus_full, Z.div_small;
          lia).
    pose proof (Z.div_mod x 256 ltac:(lia)). lia. }
  assert (Hround : getPort little_endian (sin_port little_endian port)
                   = port mod 2 ^ 16).
  { unfold getPort, sin_port. destruct little_endian.
    - assert (Hu : htons true port = htons true (port mod 2 ^ 16)).
      { unfold htons, uint16. rewrite Z.mod_mod by lia. reflexivity. }
      rewrite Hu. apply Hswap. apply Z.mod_pos_bound. lia.
    - unfold htons, uint16. apply Z.mod_mod. lia. }
  split; [exact Hround | split].
  - intros Hp. rewrite Hround. apply Z.mod_small, Hp.
  - intros Hp. unfold sin_port, htons, uint16.
    rewrite Z.mod_small by exact Hp. apply swap_bytes, Hp.
Qed.

Lemma port_round_trip_witness :
  0 <= 25565 < 2 ^ 16
  ∧ sin_port true 25565 = 56675
  ∧ getPort true (sin_port true 25565) = 25565
  ∧ getPort true (sin_port true 70000) = 4464.
Proof.
  assert (Hp : 0 <= 25565 < 2 ^ 16) by lia.
  destruct (port_round_trip true 25565) as (_ & Hback & Hswap).
  destruct (port_round_trip true 70000) as (Hmod & _).
  split; [exact Hp | split; [| split]].
  - rewrite (Hswap Hp). reflexivity.
  - exact (Hback Hp).
  - rewrite Hmod. reflexivity.
Defined.

End Ports.
